(** * cfrSniff: the eCFR client-side state and search engine

    A shallow embedding of [frontend/src/app/services/ecfr.service.ts]
    (class [ECFRService]) and of the data model in
    [frontend/src/app/models/agency.model.ts].

    - Agency objects are mutable JavaScript objects that the service shares
      between the [agencies] signal, the result of [filteredAgencies] and
      [selectedAgency]; they live in a store ([gmap loc Agency]) and are
      named by their location.  Arrays are never updated in place by the
      service (only [filter], [map], [slice] and field assignment), so an
      array is a plain list.
    - Asynchronous methods are cut at their [await]s: the part that runs
      before the first [await] is a function on the world, and every
      continuation is a task that is resumed by the delivery of an HTTP
      response ([deliver]).
    - Strings are ASCII strings; numbers that the code uses as integers
      (CFR title numbers, word counts) are [Z]. *)

From Stdlib Require Import ZArith String Ascii List Lia Permutation DecimalString.
From stdpp Require Import gmap list.
Import ListNotations.

Local Open Scope string_scope.
Local Open Scope Z_scope.
Local Open Scope nat_scope.
Local Open Scope list_scope.

(** ** JavaScript string primitives used by the service *)

Module Js.

(** [String.prototype.toLowerCase] on ASCII text. *)
Definition lower_ascii (c : ascii) : ascii :=
  let n := nat_of_ascii c in
  if (Nat.leb 65 n && Nat.leb n 90)%bool then ascii_of_nat (n + 32) else c.

Fixpoint toLowerCase (s : string) : string :=
  match s with
  | EmptyString => EmptyString
  | String c s' => String (lower_ascii c) (toLowerCase s')
  end.

(** [s.includes(q)]: [q] occurs in [s] as a contiguous substring. *)
Fixpoint includes (s q : string) : bool :=
  String.prefix q s ||
  match s with
  | EmptyString => false
  | String _ s' => includes s' q
  end.

(** [Number.prototype.toString] on an integer (decimal digits, a leading
    minus sign for negative numbers).  JavaScript switches to exponent
    notation from 1e21 on, far above any CFR title number. *)
Definition toString (n : Z) : string := NilZero.string_of_int (Z.to_int n).

(** Truthiness of a string: only the empty string is falsy. *)
Definition truthy (s : string) : bool :=
  match s with EmptyString => false | String _ _ => true end.

(** [a || b] on strings. *)
Definition or_else (a b : string) : string := if truthy a then a else b.

End Js.

(** ** Data model (agency.model.ts) *)

Definition loc := nat.

Module CFRReference.
Record t := mk { title : Z; chapter : option string; subtitle : option string }.
End CFRReference.

Record Agency := mkAgency {
  name : string;
  short_name : option string;
  display_name : string;
  sortable_name : string;
  slug : string;
  children : list loc;
  cfr_references : list CFRReference.t
}.

(** The assignment [agency.children = v]: every other field is kept. *)
Definition set_children (v : list loc) (agency : Agency) : Agency :=
  mkAgency (name agency) (short_name agency) (display_name agency)
           (sortable_name agency) (slug agency) v (cfr_references agency).

(** ** The hierarchical search filter ([searchAgencies]) *)

(** [Array.prototype.filter] with a callback that threads a store: the
    callback is run on the elements in order, each run starting from the
    store the previous one left. *)
Fixpoint filter_st {S A : Type} (f : S -> A -> option (S * bool))
    (s : S) (l : list A) : option (S * list A) :=
  match l with
  | [] => Some (s, [])
  | x :: l' =>
      match f s x with
      | None => None
      | Some (s1, b) =>
          match filter_st f s1 l' with
          | None => None
          | Some (s2, r) => Some (s2, if b then x :: r else r)
          end
      end
  end.

Definition nameMatch (agency : Agency) (query : string) : bool :=
  Js.includes
    (Js.toLowerCase (Js.or_else (Js.or_else (display_name agency) (name agency)) ""))
    query.

Definition titleMatch (agency : Agency) (query : string) : bool :=
  existsb (fun ref => Js.includes (Js.toString (CFRReference.title ref)) query)
          (cfr_references agency).

(** The test [nameMatch || titleMatch] of the callback. *)
Definition matches (agency : Agency) (query : string) : bool :=
  nameMatch agency query || titleMatch agency query.

(** The callback handed to [agencies.filter]; [search] is the recursive
    call [this.searchAgencies].  A location that is not in the store stands
    for a null array element ([if (!agency) return false]). *)
Definition visit
    (search : gmap loc Agency -> list loc -> option (gmap loc Agency * list loc))
    (query : string) (h : gmap loc Agency) (agency : loc)
    : option (gmap loc Agency * bool) :=
  match h !! agency with
  | None => Some (h, false)
  | Some obj =>
      if matches obj query then Some (h, true)
      else
        match search h (children obj) with
        | None => None
        | Some (h1, matchingChildren) =>
            if Nat.ltb 0 (length matchingChildren)
            then Some (alter (set_children matchingChildren) agency h1, true)
            else Some (h1, false)
        end
  end.

(** [searchAgencies(agencies, query)].  The store is threaded through the
    callback because the callback assigns [agency.children].  [fuel] bounds
    the depth of the recursion; [None] means the bound was reached.  The
    guards [!Array.isArray(agencies)], [agency.children || []] and
    [agency.cfr_references || []] are for values that the declared types
    exclude ([children] and [cfr_references] are required arrays). *)
Fixpoint searchAgencies (fuel : nat) (h : gmap loc Agency)
    (agencies : list loc) (query : string) : option (gmap loc Agency * list loc) :=
  match fuel with
  | O => None
  | S fuel' =>
      filter_st (visit (fun h' l => searchAgencies fuel' h' l query) query) h agencies
  end.

(** ** Forests in the store

    The agencies come from a parsed JSON document: every object is reached
    along exactly one path.  [repr h t] says that the store holds the tree
    [t]; [locs] lists the locations of its objects. *)

Inductive tree := Node (a : loc) (obj : Agency) (kids : list tree).

Definition root (t : tree) : loc := match t with Node a _ _ => a end.
Definition payload (t : tree) : Agency := match t with Node _ obj _ => obj end.

Fixpoint depth (t : tree) : nat :=
  match t with Node _ _ kids => S (list_max (map depth kids)) end.

Fixpoint locs (t : tree) : list loc :=
  match t with Node a _ kids => a :: flat_map locs kids end.

Definition depth_forest (ts : list tree) : nat := list_max (map depth ts).
Definition locs_forest (ts : list tree) : list loc := flat_map locs ts.

Inductive repr (h : gmap loc Agency) : tree -> Prop :=
| repr_node a obj kids :
    h !! a = Some obj ->
    children obj = map root kids ->
    Forall (repr h) kids ->
    repr h (Node a obj kids).

(** A store that holds the forest [ts], every object once. *)
Definition forest_in (h : gmap loc Agency) (ts : list tree) : Prop :=
  Forall (repr h) ts /\ NoDup (locs_forest ts).

(** What the filter does, read on trees: [keep] is the value the callback
    returns for a node, [after] the node once the callback has run on it. *)
Fixpoint keep (q : string) (t : tree) : bool :=
  match t with Node _ obj kids => matches obj q || existsb (keep q) kids end.

Fixpoint after (q : string) (t : tree) : tree :=
  match t with
  | Node a obj kids =>
      if matches obj q then Node a obj kids
      else
        let mc := flat_map (fun k => if keep q k then [after q k] else []) kids in
        if Nat.ltb 0 (length mc)
        then Node a (set_children (map root mc) obj) mc
        else Node a obj (map (after q) kids)
  end.

(** What a run of the filter on a forest held by the store yields, for
    forests of depth at most [n]: the kept roots, a store holding the forest
    as [after] describes it, and nothing changed outside the forest. *)
Definition search_ok (q : string)
    (search : gmap loc Agency -> list loc -> option (gmap loc Agency * list loc))
    (n : nat) : Prop :=
  forall ts h,
    depth_forest ts <= n -> Forall (repr h) ts -> NoDup (locs_forest ts) ->
    exists h',
      search h (map root ts) = Some (h', map root (List.filter (keep q) ts)) /\
      Forall (repr h') (map (after q) ts) /\
      (forall l, ~ In l (locs_forest ts) -> h' !! l = h !! l).

(** ** Reading the store as a graph *)

(** [desc h a d]: [d] is reached from [a] through one or more [children]
    links of the store [h]. *)
Inductive desc (h : gmap loc Agency) : loc -> loc -> Prop :=
| desc_child a obj c :
    h !! a = Some obj -> In c (children obj) -> desc h a c
| desc_step a obj c d :
    h !! a = Some obj -> In c (children obj) -> desc h c d -> desc h a d.

(** The node at [a] matches the query directly. *)
Definition matches_at (h : gmap loc Agency) (q : string) (a : loc) : Prop :=
  exists obj, h !! a = Some obj /\ matches obj q = true.

(** The node at [a] matches directly or has a matching descendant. *)
Definition hit (h : gmap loc Agency) (q : string) (a : loc) : Prop :=
  matches_at h q a \/ exists d, desc h a d /\ matches_at h q d.

(** [a] is a node of the forest whose roots are [res]. *)
Definition in_forest (h : gmap loc Agency) (res : list loc) (a : loc) : Prop :=
  In a res \/ exists r, In r res /\ desc h r a.

(** The nodes of the forest [res] that are not below a direct match: the
    roots, and the children of every such node that does not match. *)
Inductive shown (h : gmap loc Agency) (q : string) (res : list loc) : loc -> Prop :=
| shown_root a : In a res -> shown h q res a
| shown_child p obj c :
    shown h q res p -> h !! p = Some obj -> matches obj q = false ->
    In c (children obj) -> shown h q res c.

(** [s] is [t] or one of the subtrees below it. *)
Inductive subtree (s : tree) : tree -> Prop :=
| subtree_refl : subtree s s
| subtree_kid a obj kids k :
    In k kids -> subtree s k -> subtree s (Node a obj kids).

(** The store [h'] differs from [h] at most in [children] fields, each of
    which is a subsequence of what it was. *)
Definition shrinks (h h' : gmap loc Agency) : Prop :=
  forall a,
    match h !! a, h' !! a with
    | Some obj, Some obj' =>
        obj' = set_children (children obj') obj /\
        sublist (children obj') (children obj)
    | None, None => True
    | _, _ => False
    end.

(** Every object of [h] still has the children sequence it had. *)
Definition children_preserved (h h' : gmap loc Agency) : Prop :=
  forall a obj, h !! a = Some obj ->
    exists obj', h' !! a = Some obj' /\ children obj' = children obj.

(** ** Service state: the signals of [ECFRService] *)

Module HistoricalData.
Record t := mk { date : string; wordCount : Z }.
End HistoricalData.

(** [titles] is [any[]] in the source; its elements are never inspected. *)
Module TitleChange.
Record t := mk { date : string; title_count : Z; titles : list string; difference : Z }.
End TitleChange.

Module TitleData.
Record t := mk { title : Z; wordCount : Z; lastUpdated : string }.
End TitleData.

(** The body of [GET /title/{title}/word-count].  The interface declares
    both fields, the code tests for their absence, so both are optional. *)
Module TitleWordCountResponse.
Record t := mk { word_count : option Z; date : option string }.
End TitleWordCountResponse.

Record State := mkState {
  agencies : list loc;
  selectedAgency : option loc;
  selectedTitle : option Z;
  selectedAgencyHistory : list HistoricalData.t;
  selectedAgencyChanges : list TitleChange.t;
  titleData : list TitleData.t;
  searchQuery : string
}.

Definition set_selectedAgency (v : option loc) (s : State) : State :=
  mkState (agencies s) v (selectedTitle s) (selectedAgencyHistory s)
          (selectedAgencyChanges s) (titleData s) (searchQuery s).
Definition set_selectedTitle (v : option Z) (s : State) : State :=
  mkState (agencies s) (selectedAgency s) v (selectedAgencyHistory s)
          (selectedAgencyChanges s) (titleData s) (searchQuery s).
Definition set_selectedAgencyHistory (v : list HistoricalData.t) (s : State) : State :=
  mkState (agencies s) (selectedAgency s) (selectedTitle s) v
          (selectedAgencyChanges s) (titleData s) (searchQuery s).
Definition set_selectedAgencyChanges (v : list TitleChange.t) (s : State) : State :=
  mkState (agencies s) (selectedAgency s) (selectedTitle s) (selectedAgencyHistory s)
          v (titleData s) (searchQuery s).
Definition set_titleData (v : list TitleData.t) (s : State) : State :=
  mkState (agencies s) (selectedAgency s) (selectedTitle s) (selectedAgencyHistory s)
          (selectedAgencyChanges s) v (searchQuery s).
Definition set_searchQuery (v : string) (s : State) : State :=
  mkState (agencies s) (selectedAgency s) (selectedTitle s) (selectedAgencyHistory s)
          (selectedAgencyChanges s) (titleData s) v.

(** ** HTTP traffic and suspended continuations *)

Inductive request :=
| GetHistory (slug : string)
| GetChanges (slug : string)
| GetWordCount (title : Z).

(** What [firstValueFrom(this.http.get(...))] settles with: a body (which
    may be null) or a rejection. *)
Inductive reply (A : Type) :=
| Ok (body : option A)
| Failed.
Arguments Ok {A} body.
Arguments Failed {A}.

(** A response as it reaches a continuation.  [now] is what
    [new Date().toISOString()] returns when the continuation runs. *)
Inductive response :=
| HistoryReply (r : reply (list HistoricalData.t))
| ChangesReply (r : reply (list TitleChange.t))
| WordCountReply (title : Z) (r : reply TitleWordCountResponse.t) (now : string).

Inductive promise (A : Type) :=
| Pending
| Fulfilled (v : A).
Arguments Pending {A}.
Arguments Fulfilled {A} v.

(** [loadTitleData] suspended at [await Promise.all(batchPromises)]: the
    results pushed so far, the current batch with the state of each of its
    promises, and the batches still to run. *)
Record BulkLoad := mkBulk {
  allTitleData : list TitleData.t;
  batchPromises : list (Z * promise (option TitleData.t));
  batches : list (list Z)
}.

Inductive task :=
| Finished
| AwaitHistory
| AwaitChanges
| AwaitBatch (b : BulkLoad)
| AwaitWordCount (title : Z).

Inductive io :=
| Sent (tid : nat) (r : request)
| Arrived (tid : nat) (r : response).

(** The service with everything it shares: the agency objects, the signals,
    the continuations in flight (a task is named by its index) and the
    HTTP traffic so far, oldest first. *)
Record World := mkWorld {
  store : gmap loc Agency;
  signals : State;
  tasks : list task;
  log : list io
}.

Definition upd_signals (f : State -> State) (w : World) : World :=
  mkWorld (store w) (f (signals w)) (tasks w) (log w).
Definition set_store (h : gmap loc Agency) (w : World) : World :=
  mkWorld h (signals w) (tasks w) (log w).
Definition set_task (tid : nat) (t : task) (w : World) : World :=
  mkWorld (store w) (signals w) (<[tid := t]> (tasks w)) (log w).
Definition spawn (t : task) (w : World) : World :=
  mkWorld (store w) (signals w) (tasks w ++ [t]) (log w).
Definition emit (es : list io) (w : World) : World :=
  mkWorld (store w) (signals w) (tasks w) (log w ++ es).

(** ** Search entry points *)

(** [updateSearch(query)]. *)
Definition updateSearch (query : string) (w : World) : World :=
  upd_signals (set_searchQuery query) w.

(** One evaluation of the computed signal [filteredAgencies] (Angular runs
    it again when [searchQuery] or [agencies] has been set since the last
    read).  The assignments of [searchAgencies] go to the shared objects,
    so the world comes back with the store they leave. *)
Definition filteredAgencies (fuel : nat) (w : World) : option (World * list loc) :=
  let query := Js.toLowerCase (searchQuery (signals w)) in
  if Js.truthy query then
    match searchAgencies fuel (store w) (agencies (signals w)) query with
    | None => None
    | Some (h', res) => Some (set_store h' w, res)
    end
  else Some (w, agencies (signals w)).

(** A query that is empty once trimmed: nothing but white space. *)
Definition is_space (c : ascii) : bool :=
  let n := nat_of_ascii c in
  (Nat.eqb n 32 || Nat.leb 9 n && Nat.leb n 13)%bool.

Fixpoint blank (s : string) : bool :=
  match s with
  | EmptyString => true
  | String c s' => is_space c && blank s'
  end.

(** The matching predicate in the words of the specification, on the query
    as the user typed it: the display name (or the name) contains the query
    whatever the case, or a title number printed in decimal contains it. *)
Definition spec_matches (agency : Agency) (q : string) : bool :=
  Js.includes
    (Js.toLowerCase (if Js.truthy (display_name agency)
                     then display_name agency else name agency))
    (Js.toLowerCase q)
  || existsb (fun ref => Js.includes (Js.toString (CFRReference.title ref)) q)
             (cfr_references agency).

(** ** Batched loading of title data *)

(** [Array.from(new Set(l))]: the first occurrence of every value, in
    order; [seen] is the set built so far. *)
Fixpoint set_add_all (seen : list Z) (l : list Z) : list Z :=
  match l with
  | [] => []
  | x :: l' =>
      if existsb (Z.eqb x) seen then set_add_all seen l'
      else x :: set_add_all (x :: seen) l'
  end.

Definition Set_from (l : list Z) : list Z := set_add_all [] l.

(** [l.slice(i, j)] for [0 <= i <= j]. *)
Definition slice {A : Type} (i j : nat) (l : list A) : list A :=
  take (j - i) (drop i l).

(** [for (let i = 0; i < uniqueTitles.length; i += batchSize)
       batches.push(uniqueTitles.slice(i, i + batchSize))],
    from index [i] on, at most [fuel] iterations. *)
Fixpoint batch_loop (fuel : nat) (uniqueTitles : list Z) (batchSize i : nat)
    : list (list Z) :=
  match fuel with
  | O => []
  | S fuel' =>
      if Nat.ltb i (length uniqueTitles)
      then slice i (i + batchSize) uniqueTitles
             :: batch_loop fuel' uniqueTitles batchSize (i + batchSize)
      else []
  end.

Definition batchSize : nat := 5.

(** The loop advances by [batchSize] each time, so [length uniqueTitles]
    iterations are never exceeded. *)
Definition make_batches (uniqueTitles : list Z) : list (list Z) :=
  batch_loop (length uniqueTitles) uniqueTitles batchSize 0.

(** The test [!response?.word_count] on a number that may be absent:
    [Some n] when the number is there and not zero (truthy). *)
Definition truthy_number (n : option Z) : option Z :=
  match n with
  | None => None
  | Some n => if Z.eqb n 0 then None else Some n
  end.

(** [response.date || new Date().toISOString()]. *)
Definition date_or_now (d : option string) (now : string) : string :=
  match d with
  | None => now
  | Some d => Js.or_else d now
  end.

(** The body of the [async title => ...] closure of [loadTitleData] after
    its [await]: the value the promise of [title] is fulfilled with. *)
Definition fetch_result (title : Z) (r : reply TitleWordCountResponse.t)
    (now : string) : option TitleData.t :=
  match r with
  | Failed => None
  | Ok None => None
  | Ok (Some response) =>
      match truthy_number (TitleWordCountResponse.word_count response) with
      | None => None
      | Some word_count =>
          Some (TitleData.mk title word_count
                  (date_or_now (TitleWordCountResponse.date response) now))
      end
  end.

(** The [for (const batch of batches)] loop of task [tid], entered with the
    batches still to run: either the next batch is started (its requests
    are sent and the task waits for them), or the loop is over and
    [titleData] is set. *)
Definition continue_load (tid : nat) (acc : list TitleData.t)
    (todo : list (list Z)) (w : World) : World :=
  match todo with
  | [] => set_task tid Finished (upd_signals (set_titleData acc) w)
  | batch :: rest =>
      set_task tid
        (AwaitBatch (mkBulk acc (map (fun t => (t, Pending)) batch) rest))
        (emit (map (fun t => Sent tid (GetWordCount t)) batch) w)
  end.

(** [loadTitleData(agency)] up to its first [await]. *)
Definition loadTitleData (agency : loc) (w : World) : World :=
  match store w !! agency with
  | None => upd_signals (set_titleData []) w
  | Some obj =>
      match cfr_references obj with
      | [] => upd_signals (set_titleData []) w
      | _ :: _ =>
          let titles := map CFRReference.title (cfr_references obj) in
          let uniqueTitles := Set_from titles in
          continue_load (length (tasks w)) [] (make_batches uniqueTitles)
                        (spawn Finished w)
      end
  end.

(** [loadAgencyHistory(agency)] up to its [await].  Reading [agency.slug]
    of a null agency throws inside the [try]: the [catch] empties the
    history. *)
Definition loadAgencyHistory (agency : loc) (w : World) : World :=
  match store w !! agency with
  | None => upd_signals (set_selectedAgencyHistory []) w
  | Some obj =>
      spawn AwaitHistory (emit [Sent (length (tasks w)) (GetHistory (slug obj))] w)
  end.

(** [loadAgencyChanges(agency)] up to its [await]. *)
Definition loadAgencyChanges (agency : loc) (w : World) : World :=
  match store w !! agency with
  | None => upd_signals (set_selectedAgencyChanges []) w
  | Some obj =>
      spawn AwaitChanges (emit [Sent (length (tasks w)) (GetChanges (slug obj))] w)
  end.

(** [loadTitleWordCount(title)] up to its [await]. *)
Definition loadTitleWordCount (title : Z) (w : World) : World :=
  spawn (AwaitWordCount title)
        (emit [Sent (length (tasks w)) (GetWordCount title)] w).

(** [selectAgency(agency)] up to the [await Promise.all]: the two signals
    are set, then the three loads are started in the order of the array
    literal. *)
Definition selectAgency (agency : loc) (w : World) : World :=
  let w := upd_signals (set_selectedAgency (Some agency)) w in
  let w := upd_signals (set_selectedTitle None) w in
  let w := loadAgencyHistory agency w in
  let w := loadAgencyChanges agency w in
  loadTitleData agency w.

(** [selectTitle(title)] up to its [await]. *)
Definition selectTitle (title : Z) (w : World) : World :=
  let w := upd_signals (set_selectedTitle (Some title)) w in
  loadTitleWordCount title w.

(** ** Continuations *)

(** The promise of [title] in the current batch is fulfilled with [v];
    [None] when no promise of that title is pending. *)
Fixpoint fulfil (title : Z) (v : option TitleData.t)
    (ps : list (Z * promise (option TitleData.t)))
    : option (list (Z * promise (option TitleData.t))) :=
  match ps with
  | [] => None
  | (t, Pending) :: ps' =>
      if Z.eqb t title then Some ((t, Fulfilled v) :: ps')
      else option_map (cons (t, Pending)) (fulfil title v ps')
  | p :: ps' => option_map (cons p) (fulfil title v ps')
  end.

(** [await Promise.all(batchPromises)]: the values in the order of the
    batch once every promise is fulfilled. *)
Fixpoint all_fulfilled (ps : list (Z * promise (option TitleData.t)))
    : option (list (option TitleData.t)) :=
  match ps with
  | [] => Some []
  | (_, Pending) :: _ => None
  | (_, Fulfilled v) :: ps' => option_map (cons v) (all_fulfilled ps')
  end.

(** [batchResults.filter(data => data !== null)]. *)
Definition validResults (batchResults : list (option TitleData.t)) : list TitleData.t :=
  omap id batchResults.

(** The rest of [loadTitleWordCount] once the response is there. *)
Definition refresh_title (title : Z) (r : reply TitleWordCountResponse.t)
    (now : string) (s : State) : State :=
  match r with
  | Failed => s
  | Ok None => s
  | Ok (Some response) =>
      match truthy_number (TitleWordCountResponse.word_count response) with
      | None => s
      | Some word_count =>
          let currentTitleData := titleData s in
          let updatedTitleData :=
            map (fun td =>
                   if Z.eqb (TitleData.title td) title
                   then TitleData.mk (TitleData.title td) word_count
                          (date_or_now (TitleWordCountResponse.date response) now)
                   else td)
                currentTitleData in
          set_titleData updatedTitleData s
      end
  end.

(** [data || []] on the settled history or changes request; a rejection is
    caught and empties the collection. *)
Definition data_or_empty {A : Type} (r : reply (list A)) : list A :=
  match r with
  | Ok (Some data) => data
  | Ok None => []
  | Failed => []
  end.

(** The response [resp] reaches task [tid], whose continuation runs up to
    its next [await] or to its end.  [None]: no such request is in
    flight. *)
Definition deliver (tid : nat) (resp : response) (w : World) : option World :=
  let w1 := emit [Arrived tid resp] w in
  match tasks w !! tid, resp with
  | Some AwaitHistory, HistoryReply r =>
      Some (set_task tid Finished
              (upd_signals (set_selectedAgencyHistory (data_or_empty r)) w1))
  | Some AwaitChanges, ChangesReply r =>
      Some (set_task tid Finished
              (upd_signals (set_selectedAgencyChanges (data_or_empty r)) w1))
  | Some (AwaitBatch b), WordCountReply title r now =>
      match fulfil title (fetch_result title r now) (batchPromises b) with
      | None => None
      | Some ps =>
          match all_fulfilled ps with
          | None =>
              Some (set_task tid (AwaitBatch (mkBulk (allTitleData b) ps (batches b))) w1)
          | Some batchResults =>
              Some (continue_load tid (allTitleData b ++ validResults batchResults)
                                  (batches b) w1)
          end
      end
  | Some (AwaitWordCount title), WordCountReply title' r now =>
      if Z.eqb title title'
      then Some (set_task tid Finished (upd_signals (refresh_title title r now) w1))
      else None
  | _, _ => None
  end.

(** A schedule: responses in the order in which they arrive. *)
Fixpoint run (w : World) (evs : list (nat * response)) : option World :=
  match evs with
  | [] => Some w
  | (tid, resp) :: evs' =>
      match deliver tid resp w with
      | None => None
      | Some w' => run w' evs'
      end
  end.

(** No continuation is waiting. *)
Definition quiescent (w : World) : Prop := Forall (fun t => t = Finished) (tasks w).

(** The word-count traffic of the log. *)
Inductive fetch_event :=
| Start (title : Z)
| Done (title : Z).

Definition fetch_events (l : list io) : list fetch_event :=
  omap (fun e =>
          match e with
          | Sent _ (GetWordCount t) => Some (Start t)
          | Arrived _ (WordCountReply t _ _) => Some (Done t)
          | _ => None
          end) l.

(** A trace that runs the batches one after the other: the requests of a
    batch are all sent, then all settle (in any order), and only then does
    the next batch begin. *)
Inductive batched : list (list Z) -> list fetch_event -> Prop :=
| batched_nil : batched [] []
| batched_cons b bs settles tr :
    Permutation settles (map Done b) ->
    batched bs tr ->
    batched (b :: bs) (map Start b ++ settles ++ tr).

(** The response a schedule delivers for [title] (the first one). *)
Fixpoint reply_for (title : Z) (evs : list (nat * response))
    : option (reply TitleWordCountResponse.t * string) :=
  match evs with
  | [] => None
  | (_, WordCountReply t r now) :: evs' =>
      if Z.eqb t title then Some (r, now) else reply_for title evs'
  | _ :: evs' => reply_for title evs'
  end.

Definition result_for (evs : list (nat * response)) (title : Z) : option TitleData.t :=
  match reply_for title evs with
  | Some (r, now) => fetch_result title r now
  | None => None
  end.

(** A response that carries a usable word count. *)
Definition usable (r : reply TitleWordCountResponse.t) : bool :=
  match r with
  | Ok (Some response) =>
      match truthy_number (TitleWordCountResponse.word_count response) with
      | Some _ => true
      | None => false
      end
  | _ => false
  end.

Definition failure (e : nat * response) : bool :=
  match snd e with
  | HistoryReply Failed | ChangesReply Failed | WordCountReply _ Failed _ => true
  | _ => false
  end.

(** The last response of a schedule that answers a history request, and
    the last one that answers a changes request. *)
Fixpoint last_history (evs : list (nat * response))
    : option (reply (list HistoricalData.t)) :=
  match evs with
  | [] => None
  | (_, resp) :: evs' =>
      match last_history evs' with
      | Some r => Some r
      | None => match resp with HistoryReply r => Some r | _ => None end
      end
  end.

Fixpoint last_changes (evs : list (nat * response))
    : option (reply (list TitleChange.t)) :=
  match evs with
  | [] => None
  | (_, resp) :: evs' =>
      match last_changes evs' with
      | Some r => Some r
      | None => match resp with ChangesReply r => Some r | _ => None end
      end
  end.

(** The number of responses a schedule delivers to task [tid]. *)
Definition answers (tid : nat) (evs : list (nat * response)) : nat :=
  length (List.filter (fun e => Nat.eqb (fst e) tid) evs).

(** The three per-agency collections are empty. *)
Definition collections_cleared (s : State) : Prop :=
  titleData s = [] /\ selectedAgencyHistory s = [] /\ selectedAgencyChanges s = [].

(** The titles the selected agency references. *)
Definition referenced_titles (w : World) : list Z :=
  match selectedAgency (signals w) with
  | None => []
  | Some a =>
      match store w !! a with
      | None => []
      | Some obj => map CFRReference.title (cfr_references obj)
      end
  end.

(** ** Sample data *)

Definition agency_of (display : string) (kids : list loc) (titles : list Z) : Agency :=
  mkAgency display None display display display kids
           (map (fun t => CFRReference.mk t None None) titles).

Definition no_selection (roots : list loc) (query : string) : State :=
  mkState roots None None [] [] [] query.

(** A department with two offices; only the first references title 40. *)
Definition dept_store : gmap loc Agency :=
  <[0 := agency_of "Department" [1; 2] []]>
  (<[1 := agency_of "Alpha Office" [] [40%Z]]>
  (<[2 := agency_of "Beta Office" [] [7%Z]]> ∅)).

Definition dept_forest : list tree :=
  [Node 0 (agency_of "Department" [1; 2] [])
     [Node 1 (agency_of "Alpha Office" [] [40%Z]) [];
      Node 2 (agency_of "Beta Office" [] [7%Z]) []]].

Definition dept_world (query : string) : World :=
  mkWorld dept_store (no_selection [0] query) [] [].

(** An agency that matches the query "epa" with one office that does not. *)
Definition epa_store : gmap loc Agency :=
  <[0 := agency_of "EPA" [1] [40%Z]]> (<[1 := agency_of "Office" [] []]> ∅).

Definition epa_forest : list tree :=
  [Node 0 (agency_of "EPA" [1] [40%Z]) [Node 1 (agency_of "Office" [] []) []]].

Definition epa_world (query : string) : World :=
  mkWorld epa_store (no_selection [0] query) [] [].

(** Strings made of decimal digits and minus signs. *)
Definition digit_or_minus (c : ascii) : bool :=
  let n := nat_of_ascii c in (Nat.eqb n 45 || Nat.leb 48 n && Nat.leb n 57)%bool.

Fixpoint numeric (s : string) : bool :=
  match s with
  | EmptyString => true
  | String c s' => digit_or_minus c && numeric s'
  end.

(** A service that has loaded the data of titles 1, 2 and 3 and is
    refreshing title 3. *)
Definition loaded_titles : list TitleData.t :=
  [TitleData.mk 1 100 "2024-01-01"; TitleData.mk 2 200 "2024-01-01";
   TitleData.mk 3 300 "2024-01-01"].

Definition loaded_world : World :=
  mkWorld dept_store
    (mkState [0] (Some 1) (Some 3%Z)
       [HistoricalData.mk "2024-01-01" 600]
       [TitleChange.mk "2024-01-01" 3 [] 0]
       loaded_titles "")
    [] [].

Definition fresh_count : reply TitleWordCountResponse.t :=
  Ok (Some (TitleWordCountResponse.mk (Some 333%Z) (Some "2024-06-30"))).

(** What holds of a world while every response is a failure, once the
    loads of [selectAgency] have been started from rest: no batched load
    has gathered anything, and a collection that is not yet empty still has
    its load in flight. *)
Definition idle_promise (p : Z * promise (option TitleData.t)) : Prop :=
  snd p = Pending \/ snd p = Fulfilled None.

Definition idle_task (t : task) : Prop :=
  match t with
  | AwaitBatch b => allTitleData b = [] /\ Forall idle_promise (batchPromises b)
  | _ => True
  end.

Definition failing_inv (w : World) : Prop :=
  Forall idle_task (tasks w) /\
  (selectedAgencyHistory (signals w) = [] \/ In AwaitHistory (tasks w)) /\
  (selectedAgencyChanges (signals w) = [] \/ In AwaitChanges (tasks w)) /\
  (titleData (signals w) = [] \/ exists b, In (AwaitBatch b) (tasks w)).

(** The titles of a batch whose promises are still pending. *)
Definition pending_titles (ps : list (Z * promise (option TitleData.t))) : list Z :=
  flat_map (fun p => match snd p with Pending => [fst p] | Fulfilled _ => [] end) ps.

(** What the promises of a batch contribute to [allTitleData] once the
    schedule [evs] has been played: the value of a fulfilled promise, and
    for a pending one the result of the response [evs] brings. *)
Definition promise_value (evs : list (nat * response))
    (p : Z * promise (option TitleData.t)) : option TitleData.t :=
  match snd p with
  | Fulfilled v => v
  | Pending => result_for evs (fst p)
  end.

Definition expected (evs : list (nat * response))
    (ps : list (Z * promise (option TitleData.t))) : list TitleData.t :=
  omap (promise_value evs) ps.

(** A task that neither reads nor writes [titleData] and sends no
    word-count request: the loads [selectAgency] starts next to
    [loadTitleData]. *)
Definition calm_task (t : task) : Prop :=
  t = Finished \/ t = AwaitHistory \/ t = AwaitChanges.

Definition calm (w : World) : Prop := Forall calm_task (tasks w).

(** Task [tid] is a batched load in the given state and no other
    word-count request is in flight. *)
Definition bulk_at (tid : nat) (w : World) (acc : list TitleData.t)
    (ps : list (Z * promise (option TitleData.t))) (rest : list (list Z)) : Prop :=
  tasks w !! tid = Some (AwaitBatch (mkBulk acc ps rest)) /\
  forall j t, tasks w !! j = Some t -> j <> tid -> calm_task t.

(** The titles whose requests a trace sends, in order. *)
Definition started (tr : list fetch_event) : list Z :=
  omap (fun e => match e with Start t => Some t | Done _ => None end) tr.

(** The batches run one after the other, each settling in its own order. *)
Fixpoint serial (bs : list (list Z)) : list fetch_event :=
  match bs with
  | [] => []
  | b :: bs' => map Start b ++ map Done b ++ serial bs'
  end.

(** The schedule [evs] brings a usable word count for [title]. *)
Definition fetched (evs : list (nat * response)) (title : Z) : bool :=
  match reply_for title evs with
  | Some (r, _) => usable r
  | None => false
  end.

(** An agency that references title 1 twice and titles 2 to 6 once. *)
Definition seven_refs_world : World :=
  mkWorld (<[0 := agency_of "Agency" [] [1; 1; 2; 3; 4; 5; 6]%Z]> ∅)
          (no_selection [0] "") [] [].

Definition count (n : Z) : reply TitleWordCountResponse.t :=
  Ok (Some (TitleWordCountResponse.mk (Some n) (Some "2024-06-30"))).

(** Titles 1 to 5 settle out of order, title 5 with a failure; title 6
    settles afterwards. *)
Definition five_fails : list (nat * response) :=
  [(0, WordCountReply 3 (count 30) "now"); (0, WordCountReply 5 Failed "now");
   (0, WordCountReply 1 (count 10) "now"); (0, WordCountReply 4 (count 40) "now");
   (0, WordCountReply 2 (count 20) "now"); (0, WordCountReply 6 (count 60) "now")].

(** The same agency once [selectAgency] has started the history and the
    changes loads, and a schedule in which these two settle among the
    word counts. *)
Definition seven_refs_selected : World :=
  loadAgencyChanges 0
    (loadAgencyHistory 0
       (upd_signals (set_selectedTitle None)
          (upd_signals (set_selectedAgency (Some 0)) seven_refs_world))).

Definition five_fails_selected : list (nat * response) :=
  [(2, WordCountReply 3 (count 30) "now"); (2, WordCountReply 5 Failed "now");
   (0, HistoryReply Failed);
   (2, WordCountReply 1 (count 10) "now"); (2, WordCountReply 4 (count 40) "now");
   (2, WordCountReply 2 (count 20) "now");
   (1, ChangesReply (Ok (Some [])));
   (2, WordCountReply 6 (Ok (Some (TitleWordCountResponse.mk (Some 60%Z) None))) "now")].

(** The same load when the responses for titles 2 to 5 bring no usable
    count: a [word_count] of zero, no [word_count] at all, a null body and
    a rejection. *)
Definition unusable_replies : list (nat * response) :=
  [(2, WordCountReply 1 (count 10) "now");
   (2, WordCountReply 2 (count 0) "now");
   (2, WordCountReply 3
         (Ok (Some (TitleWordCountResponse.mk None (Some "2024-06-30")))) "now");
   (0, HistoryReply Failed);
   (2, WordCountReply 4 (Ok None) "now");
   (2, WordCountReply 5 Failed "now");
   (1, ChangesReply (Ok (Some [])));
   (2, WordCountReply 6 (Ok (Some (TitleWordCountResponse.mk (Some 60%Z) None))) "now")].

(** ** Derived views of the selection *)

(** [l.sort((a, b) => a - b)] on integers.  Which algorithm the engine
    runs is not fixed, but the ascending arrangement of a list of integers
    is unique, so any sorting function computes the array the call leaves;
    this one inserts each element in its place. *)
Fixpoint insert_ascending (x : Z) (l : list Z) : list Z :=
  match l with
  | [] => [x]
  | y :: l' => if Z.leb x y then x :: y :: l' else y :: insert_ascending x l'
  end.

Definition sort_ascending (l : list Z) : list Z := fold_right insert_ascending [] l.

(** Strictly ascending. *)
Fixpoint ascending (l : list Z) : Prop :=
  match l with
  | [] => True
  | x :: l' => match l' with [] => True | y :: _ => (x < y)%Z end /\ ascending l'
  end.

(** The computed signal [uniqueTitles]; a selected location without an
    object stands for a null agency. *)
Definition uniqueTitles (w : World) : list Z :=
  match selectedAgency (signals w) with
  | None => []
  | Some a =>
      match store w !! a with
      | None => []
      | Some agency =>
          sort_ascending (Set_from (map CFRReference.title (cfr_references agency)))
      end
  end.

(** The object [selectedAgencyAnalytics] returns; [uniqueTitles] is the
    size of the set of referenced titles. *)
Module Analytics.
Record t := mk { totalReferences : nat; uniqueTitles : nat; childAgencies : nat }.
End Analytics.

(** The derivation of the computed signal [selectedAgencyAnalytics]: the
    value it yields when it runs in [w].  The signal reads [selectedAgency]
    only and keeps its value until that signal changes, whereas
    [agency.children] is a plain field: this is what a read returns when it
    is the first one since the selection changed, and a value read earlier
    does not follow a later write to [children]. *)
Definition selectedAgencyAnalytics (w : World) : option Analytics.t :=
  match selectedAgency (signals w) with
  | None => None
  | Some a =>
      match store w !! a with
      | None => None
      | Some agency =>
          Some (Analytics.mk
                  (length (cfr_references agency))
                  (length (Set_from (map CFRReference.title (cfr_references agency))))
                  (length (children agency)))
      end
  end.

(** ** [loadAgencies] once its request has settled *)

(** A field read under [||]: falsy (absent, null, zero, the empty string,
    false), an array (truthy even when empty), or another truthy value. *)
Inductive js_field :=
| Falsy
| IsArray (l : list loc)
| Truthy.

(** The body of [GET /agencies], typed [any]: an array, an object with its
    fields [agencies] and [data], or anything else that is not null (a
    number, a string, a boolean). *)
Inductive agencies_response :=
| ResponseArray (l : list loc)
| ResponseObject (agencies data : js_field)
| ResponseOther.

Definition set_agencies (v : list loc) (s : State) : State :=
  mkState v (selectedAgency s) (selectedTitle s) (selectedAgencyHistory s)
          (selectedAgencyChanges s) (titleData s) (searchQuery s).

(** What [this.agencies.set] is given: an array, or a truthy value that is
    not one. *)
Inductive forest_value :=
| Forest (l : list loc)
| NotAnArray.

(** The [try] block after the [await]: the array itself, or
    [response.agencies || response.data || []]; nothing checks that the
    field that is taken holds an array. *)
Definition transformed_agencies (response : agencies_response) : forest_value :=
  match response with
  | ResponseArray l => Forest l
  | ResponseObject (IsArray l) _ => Forest l
  | ResponseObject Truthy _ => NotAnArray
  | ResponseObject Falsy (IsArray l) => Forest l
  | ResponseObject Falsy Truthy => NotAnArray
  | ResponseObject Falsy Falsy => Forest []
  | ResponseOther => Forest []
  end.

(** The continuation of [loadAgencies]: a null body leaves the initial
    [[]], a rejection is caught and sets [[]].  [None]: the signal
    [agencies] is set to a value that is not an array, which [State] does
    not hold. *)
Definition loadAgencies_settled (r : reply agencies_response) (s : State)
    : option State :=
  match r with
  | Ok (Some response) =>
      match transformed_agencies response with
      | Forest l => Some (set_agencies l s)
      | NotAnArray => None
      end
  | Ok None => Some (set_agencies [] s)
  | Failed => Some (set_agencies [] s)
  end.

(** ** The components that read the service *)

Module AgencyVisualization.

(** [getUniqueTitles(agency)]. *)
Definition getUniqueTitles (agency : Agency) : list Z :=
  sort_ascending (Set_from (map CFRReference.title (cfr_references agency))).

(** [onTitleClick(event, agency, title)] up to the first [await] of the
    two calls: neither promise is awaited, so [selectTitle] runs as soon as
    [selectAgency] has started its loads. *)
Definition onTitleClick (agency : loc) (title : Z) (w : World) : World :=
  selectTitle title (selectAgency agency w).

End AgencyVisualization.

Module AgencyAnalytics.

(** The getter [uniqueTitles] of the analytics card (not sorted). *)
Definition uniqueTitles (agency : Agency) : list Z :=
  Set_from (map CFRReference.title (cfr_references agency)).

(** [this.ecfrService.titleData().find(td => td.title === this.selectedTitle)];
    no entry equals a null [selectedTitle]. *)
Definition find_title (selectedTitle : option Z) (titleData : list TitleData.t)
    : option TitleData.t :=
  match selectedTitle with
  | None => None
  | Some t => List.find (fun td => Z.eqb (TitleData.title td) t) titleData
  end.

(** [getTitleWordCount()]: [titleData?.wordCount || 0]. *)
Definition getTitleWordCount (selectedTitle : option Z) (titleData : list TitleData.t) : Z :=
  match find_title selectedTitle titleData with
  | None => 0%Z
  | Some td => if Z.eqb (TitleData.wordCount td) 0 then 0%Z else TitleData.wordCount td
  end.

(** [getTitleLastUpdated()]: [titleData?.lastUpdated || '']. *)
Definition getTitleLastUpdated (selectedTitle : option Z) (titleData : list TitleData.t)
    : string :=
  match find_title selectedTitle titleData with
  | None => ""
  | Some td => Js.or_else (TitleData.lastUpdated td) ""
  end.

(** [agency.cfr_references.filter(ref => ref.title === title).length]. *)
Definition references_to (agency : Agency) (title : Z) : nat :=
  length (List.filter (fun ref => Z.eqb (CFRReference.title ref) title)
                      (cfr_references agency)).

(** [getTitleReferenceCount()]; [!this.selectedTitle] holds for null and
    for the number zero. *)
Definition getTitleReferenceCount (agency : Agency) (selectedTitle : option Z) : nat :=
  match selectedTitle with
  | None => 0
  | Some t => if Z.eqb t 0 then 0 else references_to agency t
  end.

(** The [data] that [createTitleDistributionChart] hands to the chart: one
    bar for each distinct title. *)
Record bar := mkBar { bar_title : Z; bar_count : nat; isSelected : bool }.

Definition titleDistribution (agency : Agency) (selectedTitle : option Z) : list bar :=
  map (fun title =>
         mkBar title (references_to agency title)
               (match selectedTitle with
                | None => false
                | Some t => Z.eqb title t
                end))
      (uniqueTitles agency).

End AgencyAnalytics.

(** Two agencies are selected one after the other while nothing has
    arrived yet. *)
Definition reselected_world : World :=
  selectAgency 2 (selectAgency 1 (dept_world "")).

(** An agency whose references name title 40 twice and title 42 once. *)
Definition epa_refs : Agency := agency_of "EPA" [] [42; 40; 40]%Z.

Definition epa_refs_world : World :=
  mkWorld (<[0 := epa_refs]> ∅) (mkState [0] (Some 0) None [] [] [] "") [] [].

(** A word count without a date, and two schedules that bring the same
    bodies but let titles 1 and 2 arrive in either order. *)
Definition undated (n : Z) : reply TitleWordCountResponse.t :=
  Ok (Some (TitleWordCountResponse.mk (Some n) None)).

Definition undated_first : list (nat * response) :=
  [(2, WordCountReply 1 (undated 10) "09:00"); (2, WordCountReply 2 (undated 20) "09:01");
   (2, WordCountReply 3 (count 30) "09:02"); (2, WordCountReply 4 (count 40) "09:03");
   (2, WordCountReply 5 Failed "09:04"); (2, WordCountReply 6 (count 60) "09:05")].

Definition undated_swapped : list (nat * response) :=
  [(2, WordCountReply 2 (undated 20) "09:00"); (2, WordCountReply 1 (undated 10) "09:01");
   (2, WordCountReply 3 (count 30) "09:02"); (2, WordCountReply 4 (count 40) "09:03");
   (2, WordCountReply 5 Failed "09:04"); (2, WordCountReply 6 (count 60) "09:05")].

(** * Properties *)

(** ** Trees: induction and basic facts *)

Lemma tree_rect' (P : tree -> Prop) :
  (forall a obj kids, Forall P kids -> P (Node a obj kids)) ->
  forall t, P t.
Proof.
  intros IH. fix go 1. intros [a obj kids]. apply IH.
  induction kids as [|k kids IHk]; constructor; [apply go | exact IHk].
Qed.

Lemma depth_pos t : 1 <= depth t.
Proof. destruct t; simpl; lia. Qed.

Lemma depth_forest_cons t ts :
  depth_forest (t :: ts) = Nat.max (depth t) (depth_forest ts).
Proof. reflexivity. Qed.

Lemma depth_kids a obj kids n :
  depth (Node a obj kids) <= S n -> depth_forest kids <= n.
Proof. simpl. unfold depth_forest. lia. Qed.

Lemma pruned_filter q kids :
  flat_map (fun k => if keep q k then [after q k] else []) kids
  = map (after q) (List.filter (keep q) kids).
Proof.
  induction kids as [|k kids IH]; simpl; [reflexivity|].
  destruct (keep q k); simpl; now rewrite IH.
Qed.

Lemma matches_set_children v obj q : matches (set_children v obj) q = matches obj q.
Proof. reflexivity. Qed.

Lemma root_after q t : root (after q t) = root t.
Proof.
  destruct t as [a obj kids]; simpl.
  destruct (matches obj q); [reflexivity|].
  destruct (Nat.ltb _ _); reflexivity.
Qed.

Lemma map_root_after q ts : map root (map (after q) ts) = map root ts.
Proof. rewrite map_map. apply map_ext. intros; apply root_after. Qed.

Lemma locs_after q t l : In l (locs (after q t)) -> In l (locs t).
Proof.
  revert l. induction t as [a obj kids IH] using tree_rect'. intros l.
  simpl. destruct (matches obj q); [trivial|].
  rewrite pruned_filter.
  destruct (Nat.ltb _ _); simpl; intros [->|Hl]; auto; right;
    apply in_flat_map in Hl as (k' & Hk' & Hl);
    apply in_map_iff in Hk' as (k & <- & Hk).
  - apply filter_In in Hk as [Hk _].
    apply in_flat_map. exists k. split; [assumption|].
    rewrite Forall_forall in IH. apply IH; [now apply list_elem_of_In | assumption].
  - apply in_flat_map. exists k. split; [assumption|].
    rewrite Forall_forall in IH. apply IH; [now apply list_elem_of_In | assumption].
Qed.

Lemma repr_ext h h' t :
  (forall l, In l (locs t) -> h' !! l = h !! l) -> repr h t -> repr h' t.
Proof.
  induction t as [a obj kids IH] using tree_rect'. intros Hag Hr.
  inversion Hr as [a' obj' kids' Ha Hc Hk]; subst.
  constructor; [rewrite Hag; [assumption | now left] | assumption |].
  rewrite Forall_forall in *. intros k Hin.
  apply IH; [assumption | | now apply Hk].
  intros l Hl. apply Hag. simpl. right. apply in_flat_map.
  exists k. split; [now apply list_elem_of_In | assumption].
Qed.

Lemma repr_forest_ext h h' ts :
  (forall l, In l (locs_forest ts) -> h' !! l = h !! l) ->
  Forall (repr h) ts -> Forall (repr h') ts.
Proof.
  intros Hag Hr. rewrite Forall_forall in *. intros t Hin.
  apply (repr_ext h); [|now apply Hr].
  intros l Hl. apply Hag. apply in_flat_map. exists t.
  split; [now apply list_elem_of_In | assumption].
Qed.

Lemma nodup_forest_cons a obj kids ts :
  NoDup (locs_forest (Node a obj kids :: ts)) ->
  ~ In a (locs_forest kids) /\ NoDup (locs_forest kids) /\
  NoDup (locs_forest ts) /\
  (forall l, In l (locs (Node a obj kids)) -> ~ In l (locs_forest ts)).
Proof.
  unfold locs_forest. simpl. fold (locs_forest kids). fold (locs_forest ts).
  change (a :: locs_forest kids ++ locs_forest ts)
    with ((a :: locs_forest kids) ++ locs_forest ts).
  rewrite NoDup_app, NoDup_cons. intros ((Ha & Hk) & Hdis & Hts).
  repeat split; try assumption.
  - now rewrite <- list_elem_of_In.
  - intros l Hl Hl'. apply (Hdis l); now apply list_elem_of_In.
Qed.

Lemma in_locs_forest_cons l a obj kids ts :
  In l (locs_forest (Node a obj kids :: ts)) <->
  l = a \/ In l (locs_forest kids) \/ In l (locs_forest ts).
Proof.
  unfold locs_forest. simpl. rewrite in_app_iff. intuition congruence.
Qed.

Lemma ltb_length_filter {A B} (f : A -> B) (p : A -> bool) (l : list A) :
  Nat.ltb 0 (length (map f (List.filter p l))) = existsb p l.
Proof.
  induction l as [|x l IH]; simpl; [reflexivity|].
  destruct (p x); simpl; [reflexivity | assumption].
Qed.

Section Search.
Variable q : string.

Lemma filter_visit search n :
  search_ok q search n -> search_ok q (filter_st (visit search q)) (S n).
Proof.
  intros Hsearch ts. induction ts as [|x ts IH]; intros h Hd Hr Hnd.
  { exists h. simpl. split; [reflexivity | split; [constructor | auto]]. }
  destruct x as [a obj kids].
  apply Forall_cons in Hr as [Hx Hts].
  inversion Hx as [a' obj' kids' Ha Hc Hk]; subst a' obj' kids'.
  destruct (nodup_forest_cons _ _ _ _ Hnd) as (Hak & Hndk & Hndts & Hdis).
  rewrite depth_forest_cons in Hd.
  assert (Hdk : depth_forest kids <= n) by (apply (depth_kids a obj); lia).
  assert (Hdts : depth_forest ts <= S n) by lia.
  simpl map. simpl filter_st. unfold visit at 1. rewrite Ha.
  simpl List.filter. simpl keep.
  destruct (matches obj q) eqn:Hm; simpl orb.
  - destruct (IH h Hdts Hts Hndts) as (h' & Hrun & Hrep & Hframe).
    rewrite Hrun. exists h'. split; [reflexivity|]. split.
    + cbn [map after]. rewrite ?Hm. constructor; [|assumption].
      apply (repr_ext h); [|assumption].
      intros l Hl. apply Hframe. now apply Hdis.
    + intros l Hl. apply Hframe. intros Hl'. apply Hl.
      apply in_locs_forest_cons. auto.
  - rewrite Hc.
    destruct (Hsearch kids h Hdk Hk Hndk) as (h1 & Hrun1 & Hrep1 & Hframe1).
    rewrite Hrun1. rewrite ltb_length_filter.
    assert (Ha1 : h1 !! a = Some obj) by (rewrite Hframe1; assumption).
    assert (Hafter : forall k, In k kids -> forall l, In l (locs (after q k)) ->
                                l <> a /\ ~ In l (locs_forest ts)).
    { intros k Hk' l Hl. apply locs_after in Hl.
      assert (In l (locs_forest kids)) by (apply in_flat_map; eauto).
      split; [congruence|]. apply Hdis. simpl. now right. }
    destruct (existsb (keep q) kids) eqn:Hex.
    + set (mc := map root (List.filter (keep q) kids)) in *.
      set (h2 := alter (set_children mc) a h1).
      assert (Hother : forall l, l <> a -> h2 !! l = h1 !! l).
      { intros l Hl. unfold h2. now rewrite lookup_alter_ne. }
      assert (Hts2 : Forall (repr h2) ts).
      { apply (repr_forest_ext h); [|assumption].
        intros l Hl. rewrite Hother, Hframe1; [reflexivity | |].
        - intros Hl'. apply (Hdis l); [simpl; now right | assumption].
        - intros ->. apply (Hdis a); [now left | assumption]. }
      destruct (IH h2 Hdts Hts2 Hndts) as (h' & Hrun & Hrep & Hframe).
      rewrite Hrun. exists h'. split; [reflexivity|]. split.
      * cbn [map after]. rewrite ?Hm, pruned_filter, ltb_length_filter, Hex.
        constructor; [|assumption].
        rewrite map_root_after. fold mc.
        constructor.
        -- rewrite Hframe; [|apply Hdis; now left].
           unfold h2. rewrite lookup_alter_eq, Ha1. reflexivity.
        -- simpl. unfold mc. now rewrite map_root_after.
        -- rewrite Forall_forall in *. intros k' Hk'.
           apply list_elem_of_In, in_map_iff in Hk' as (k & <- & Hin).
           apply filter_In in Hin as [Hin _].
           apply (repr_ext h1).
           ++ intros l Hl. destruct (Hafter k Hin l Hl) as [Hne Hnts].
              rewrite Hframe, Hother; auto.
           ++ apply Hrep1. apply list_elem_of_In, in_map. assumption.
      * intros l Hl. rewrite Hframe, Hother, Hframe1; [reflexivity | | |].
        -- intros Hl'. apply Hl. apply in_locs_forest_cons. auto.
        -- intros ->. apply Hl. apply in_locs_forest_cons. auto.
        -- intros Hl'. apply Hl. apply in_locs_forest_cons. auto.
    + assert (Hts1 : Forall (repr h1) ts).
      { apply (repr_forest_ext h); [|assumption].
        intros l Hl. rewrite Hframe1; [reflexivity|].
        intros Hl'. apply (Hdis l); [simpl; now right | assumption]. }
      destruct (IH h1 Hdts Hts1 Hndts) as (h' & Hrun & Hrep & Hframe).
      rewrite Hrun. exists h'. split; [reflexivity|]. split.
      * cbn [map after]. rewrite ?Hm, pruned_filter, ltb_length_filter, Hex.
        constructor; [|assumption].
        constructor.
        -- rewrite Hframe; [assumption | apply Hdis; now left].
        -- now rewrite map_root_after.
        -- rewrite Forall_forall in *. intros k' Hk'.
           pose proof Hk' as Hk2.
           apply list_elem_of_In, in_map_iff in Hk' as (k & <- & Hin).
           apply (repr_ext h1); [|now apply Hrep1].
           intros l Hl. destruct (Hafter k Hin l Hl) as [Hne Hnts].
           now rewrite Hframe.
      * intros l Hl. rewrite Hframe, Hframe1; [reflexivity | |].
        -- intros Hl'. apply Hl. apply in_locs_forest_cons. auto.
        -- intros Hl'. apply Hl. apply in_locs_forest_cons. auto.
Qed.

Lemma searchAgencies_ok n :
  search_ok q (fun h l => searchAgencies (S n) h l q) n.
Proof.
  induction n as [|n IH].
  - intros ts h Hd _ _. destruct ts as [|t ts].
    + exists h. simpl. split; [reflexivity | split; [constructor | auto]].
    + rewrite depth_forest_cons in Hd. pose proof (depth_pos t). lia.
  - apply (filter_visit _ n IH).
Qed.

End Search.

(** ** The recursion bound is immaterial once it is large enough *)

Lemma filter_st_mono {S A} (f g : S -> A -> option (S * bool)) :
  (forall s x r, f s x = Some r -> g s x = Some r) ->
  forall l s r, filter_st f s l = Some r -> filter_st g s l = Some r.
Proof.
  intros Hfg l. induction l as [|x l IH]; intros s r; simpl; [trivial|].
  destruct (f s x) as [[s1 b]|] eqn:Hf; [|discriminate].
  rewrite (Hfg _ _ _ Hf).
  destruct (filter_st f s1 l) as [[s2 r']|] eqn:Hrest; [|discriminate].
  now rewrite (IH _ _ Hrest).
Qed.

Lemma visit_mono search search' q :
  (forall h l r, search h l = Some r -> search' h l = Some r) ->
  forall h a r, visit search q h a = Some r -> visit search' q h a = Some r.
Proof.
  intros Hs h a r. unfold visit.
  destruct (h !! a) as [obj|]; [|trivial].
  destruct (matches obj q); [trivial|].
  destruct (search h (children obj)) as [[h1 mc]|] eqn:Hrun; [|discriminate].
  now rewrite (Hs _ _ _ Hrun).
Qed.

Lemma searchAgencies_mono q n :
  forall m h l r, n <= m ->
    searchAgencies n h l q = Some r -> searchAgencies m h l q = Some r.
Proof.
  induction n as [|n IH]; intros m h l r Hle; [discriminate|].
  destruct m as [|m]; [lia|]. simpl.
  apply filter_st_mono. apply visit_mono.
  intros h1 l1 r1. apply IH. lia.
Qed.

(** ** The filter only ever shortens [children] sequences *)

Lemma set_children_twice v v' obj :
  set_children v (set_children v' obj) = set_children v obj.
Proof. reflexivity. Qed.

Lemma set_children_id obj : set_children (children obj) obj = obj.
Proof. now destruct obj. Qed.

Lemma shrinks_refl h : shrinks h h.
Proof.
  intros a. destruct (h !! a) as [obj|]; [|trivial].
  split; [now rewrite set_children_id | reflexivity].
Qed.

Lemma shrinks_trans h1 h2 h3 : shrinks h1 h2 -> shrinks h2 h3 -> shrinks h1 h3.
Proof.
  intros H12 H23 a. specialize (H12 a). specialize (H23 a).
  destruct (h1 !! a) as [o1|], (h2 !! a) as [o2|], (h3 !! a) as [o3|];
    try contradiction; [|trivial].
  destruct H12 as [E12 S12], H23 as [E23 S23]. split.
  - rewrite E23, E12. reflexivity.
  - now transitivity (children o2).
Qed.

Lemma shrinks_alter h h1 a obj mc :
  h !! a = Some obj -> shrinks h h1 -> sublist mc (children obj) ->
  shrinks h (alter (set_children mc) a h1).
Proof.
  intros Ha Hsh Hsub b. specialize (Hsh b).
  destruct (decide (a = b)) as [<-|Hne].
  - rewrite lookup_alter_eq. rewrite Ha in *.
    destruct (h1 !! a) as [obj1|]; [|contradiction].
    destruct Hsh as [E1 _]. simpl. split; [|assumption].
    rewrite E1. reflexivity.
  - now rewrite lookup_alter_ne.
Qed.

Lemma filter_st_inv {S A} (R : S -> S -> Prop) (f : S -> A -> option (S * bool)) :
  (forall s, R s s) -> (forall s1 s2 s3, R s1 s2 -> R s2 s3 -> R s1 s3) ->
  (forall s x s' b, f s x = Some (s', b) -> R s s') ->
  forall l s s' r, filter_st f s l = Some (s', r) -> R s s' /\ sublist r l.
Proof.
  intros Hrefl Htrans Hf l. induction l as [|x l IH]; intros s s' r; simpl.
  - intros [= <- <-]. split; [apply Hrefl | constructor].
  - destruct (f s x) as [[s1 b]|] eqn:Hx; [|discriminate].
    destruct (filter_st f s1 l) as [[s2 r']|] eqn:Hrest; [|discriminate].
    intros [= <- <-]. destruct (IH _ _ _ Hrest) as [HR Hsub]. split.
    + eapply Htrans; [eapply Hf; eassumption | assumption].
    + destruct b; now constructor.
Qed.

Lemma searchAgencies_shrinks q n :
  forall h l h' res,
    searchAgencies n h l q = Some (h', res) -> shrinks h h' /\ sublist res l.
Proof.
  induction n as [|n IH]; intros h l h' res; [discriminate|]. simpl.
  apply filter_st_inv; [apply shrinks_refl | apply shrinks_trans |].
  clear h l h' res. intros h a h' b. unfold visit.
  destruct (h !! a) as [obj|] eqn:Ha; [|intros [= <- <-]; apply shrinks_refl].
  destruct (matches obj q); [intros [= <- <-]; apply shrinks_refl|].
  destruct (searchAgencies n h (children obj) q) as [[h1 mc]|] eqn:Hrun;
    [|discriminate].
  destruct (IH _ _ _ _ Hrun) as [Hsh Hsub].
  destruct (Nat.ltb 0 (length mc)); intros [= <- <-]; [|assumption].
  now apply (shrinks_alter _ _ _ obj).
Qed.

(** ** What is kept, read in the store *)

Lemma existsb_keep_after q kids :
  Forall (fun k => keep q (after q k) = keep q k) kids ->
  existsb (keep q) (map (after q) kids) = existsb (keep q) kids.
Proof.
  induction 1 as [|k kids Hk _ IH]; simpl; [reflexivity|]. now rewrite Hk, IH.
Qed.

Lemma keep_after q t : keep q (after q t) = keep q t.
Proof.
  induction t as [a obj kids IH] using tree_rect'. simpl.
  destruct (matches obj q) eqn:Hm; [simpl; now rewrite Hm|].
  rewrite pruned_filter, ltb_length_filter.
  destruct (existsb (keep q) kids) eqn:Hex; simpl;
    rewrite ?matches_set_children, Hm; simpl.
  - apply existsb_exists in Hex as (k & Hin & Hk).
    apply existsb_exists. exists (after q k). split.
    + apply in_map, filter_In. now split.
    + rewrite Forall_forall in IH. rewrite IH; [assumption|].
      now apply list_elem_of_In.
  - now rewrite existsb_keep_after.
Qed.

Lemma keep_hit h q t : repr h t -> keep q t = true -> hit h q (root t).
Proof.
  induction t as [a obj kids IH] using tree_rect'. intros Hr Hk.
  inversion Hr as [a' obj' kids' Ha Hc Hkids]; subst. simpl in *.
  destruct (matches obj q) eqn:Hm.
  - left. exists obj. now split.
  - simpl in Hk. apply existsb_exists in Hk as (k & Hin & Hk).
    rewrite Forall_forall in IH, Hkids.
    apply list_elem_of_In in Hin.
    assert (Hc' : In (root k) (children obj)).
    { rewrite Hc. apply in_map. now apply list_elem_of_In. }
    destruct (IH k Hin (Hkids k Hin) Hk) as [Hd | (d & Hd & Hmd)]; right.
    + exists (root k). split; [|assumption]. now apply (desc_child h a obj).
    + exists d. split; [|assumption]. now apply (desc_step h a obj (root k)).
Qed.

Lemma shown_tree h q ts a :
  Forall (repr h) (map (after q) ts) ->
  shown h q (map root (List.filter (keep q) ts)) a ->
  exists t, keep q t = true /\ repr h (after q t) /\ root t = a.
Proof.
  intros Hrep. induction 1 as [a Ha | p obj c _ IH Hp Hm Hc].
  - apply in_map_iff in Ha as (t & <- & Ht). apply filter_In in Ht as [Ht Hk].
    exists t. repeat split; [assumption|].
    rewrite Forall_forall in Hrep. apply Hrep. now apply list_elem_of_In, in_map.
  - destruct IH as ([a' obj' kids] & Hk & Hr & <-). simpl in *.
    destruct (matches obj' q) eqn:Hm'.
    + inversion Hr; subst. simpl in Hp. congruence.
    + simpl in Hk. rewrite pruned_filter, ltb_length_filter, Hk in Hr.
      inversion Hr as [a'' obj'' kids'' Ha Hch Hkids]; subst.
      rewrite Hp in Ha. injection Ha as ->. simpl in Hc.
      rewrite map_root_after in Hc.
      apply in_map_iff in Hc as (k & <- & Hin).
      apply filter_In in Hin as [Hin Hkk].
      exists k. repeat split; [assumption|].
      rewrite Forall_forall in Hkids. apply Hkids.
      apply list_elem_of_In, in_map, filter_In. now split.
Qed.

Lemma subtree_keep q s t :
  subtree s t -> matches (payload s) q = true -> keep q t = true.
Proof.
  intros Hsub Hm. induction Hsub as [|a obj kids k Hin _ IH].
  - destruct s as [a obj kids]. simpl in *. now rewrite Hm.
  - simpl. apply orb_true_iff. right. apply existsb_exists. eauto.
Qed.

Lemma subtree_after q s t :
  subtree s t -> matches (payload s) q = true -> subtree s (after q t).
Proof.
  intros Hsub Hm. induction Hsub as [|a obj kids k Hin Hsk IH].
  - destruct s as [a obj kids]. simpl in *. rewrite Hm. constructor.
  - simpl. destruct (matches obj q); [now apply (subtree_kid s a obj kids k)|].
    pose proof (subtree_keep q _ _ Hsk Hm) as Hk.
    rewrite pruned_filter, ltb_length_filter.
    assert (Hex : existsb (keep q) kids = true) by (apply existsb_exists; eauto).
    rewrite Hex. apply (subtree_kid s _ _ _ (after q k)); [|assumption].
    apply in_map, filter_In. now split.
Qed.

Lemma repr_subtree h s t : subtree s t -> repr h t -> repr h s.
Proof.
  induction 1 as [|a obj kids k Hin _ IH]; [trivial|]. intros Hr.
  inversion Hr as [a' obj' kids' _ _ Hkids]; subst.
  rewrite Forall_forall in Hkids. apply IH, Hkids. now apply list_elem_of_In.
Qed.

Lemma repr_agree h h' t :
  repr h t -> repr h' t -> forall l, In l (locs t) -> h' !! l = h !! l.
Proof.
  induction t as [a obj kids IH] using tree_rect'. intros Hr Hr' l Hl.
  inversion Hr as [a1 obj1 kids1 Ha _ Hk]; subst.
  inversion Hr' as [a2 obj2 kids2 Ha' _ Hk']; subst.
  simpl in Hl. destruct Hl as [<-|Hl]; [congruence|].
  apply in_flat_map in Hl as (k & Hin & Hl).
  rewrite Forall_forall in IH, Hk, Hk'. apply list_elem_of_In in Hin.
  now apply (IH k Hin (Hk k Hin) (Hk' k Hin)).
Qed.

Lemma subtree_desc h s t :
  subtree s t -> repr h t -> root s = root t \/ desc h (root t) (root s).
Proof.
  induction 1 as [|a obj kids k Hin _ IH]; [now left|]. intros Hr. right.
  inversion Hr as [a' obj' kids' Ha Hc Hkids]; subst. simpl.
  rewrite Forall_forall in Hkids.
  assert (Hk : repr h k) by (apply Hkids; now apply list_elem_of_In).
  assert (Hc' : In (root k) (children obj)) by (rewrite Hc; now apply in_map).
  destruct (IH Hk) as [-> | Hd].
  - now apply (desc_child h a obj).
  - now apply (desc_step h a obj (root k)).
Qed.

(** The run of the filter on a forest held by the store, for every bound
    above the depth of the forest. *)
Lemma searchAgencies_forest q ts h :
  forest_in h ts ->
  exists h',
    (forall fuel, depth_forest ts < fuel ->
       searchAgencies fuel h (map root ts) q
       = Some (h', map root (List.filter (keep q) ts))) /\
    Forall (repr h') (map (after q) ts) /\
    (forall l, ~ In l (locs_forest ts) -> h' !! l = h !! l).
Proof.
  intros [Hr Hnd].
  destruct (searchAgencies_ok q (depth_forest ts) ts h (le_n _) Hr Hnd)
    as (h' & Hrun & Hrep & Hframe).
  exists h'. split; [|now split].
  intros fuel Hfuel. apply (searchAgencies_mono q (S (depth_forest ts))); [lia|].
  exact Hrun.
Qed.

(** ** The matching predicate and the words of the specification *)

Lemma toLowerCase_digit c d :
  digit_or_minus d = true -> Js.lower_ascii c = d <-> c = d.
Proof.
  unfold digit_or_minus, Js.lower_ascii. intros Hd.
  destruct (Nat.leb 65 (nat_of_ascii c) && Nat.leb (nat_of_ascii c) 90)%bool eqn:Hup;
    [|tauto].
  apply andb_true_iff in Hup as [H1 H2].
  apply Nat.leb_le in H1, H2.
  assert (Hcases : nat_of_ascii d = 45 \/ 48 <= nat_of_ascii d <= 57).
  { apply orb_true_iff in Hd as [Hd|Hd].
    - left. now apply Nat.eqb_eq.
    - right. apply andb_true_iff in Hd as [Ha Hb].
      apply Nat.leb_le in Ha, Hb. lia. }
  split; intros <-; exfalso.
  - rewrite nat_ascii_embedding in Hcases by lia. lia.
  - lia.
Qed.

Lemma prefix_lower_numeric s : forall q,
  numeric s = true -> String.prefix (Js.toLowerCase q) s = String.prefix q s.
Proof.
  induction s as [|d s IH]; intros [|c q] Hs; simpl; try reflexivity.
  simpl in Hs. apply andb_true_iff in Hs as [Hd Hs].
  pose proof (toLowerCase_digit c d Hd) as Hcd.
  destruct (ascii_dec (Js.lower_ascii c) d) as [E|N], (ascii_dec c d) as [E'|N'];
    try tauto.
  now apply IH.
Qed.

Lemma includes_lower_numeric s q :
  numeric s = true -> Js.includes s (Js.toLowerCase q) = Js.includes s q.
Proof.
  induction s as [|d s IH]; intros Hs.
  - unfold Js.includes. now rewrite (prefix_lower_numeric "" q).
  - cbn [Js.includes]. rewrite (prefix_lower_numeric _ q Hs).
    simpl in Hs. apply andb_true_iff in Hs as [_ Hs]. now rewrite IH.
Qed.

Lemma numeric_uint d : numeric (NilZero.string_of_uint d) = true.
Proof.
  assert (H : forall d, numeric (NilEmpty.string_of_uint d) = true)
    by (induction d0 as [|d0 IH|d0 IH|d0 IH|d0 IH|d0 IH|d0 IH|d0 IH|d0 IH|d0 IH|d0 IH];
        cbn [NilEmpty.string_of_uint numeric]; rewrite ?IH; reflexivity).
  destruct d; cbn [NilZero.string_of_uint]; try apply H; reflexivity.
Qed.

Lemma numeric_toString n : numeric (Js.toString n) = true.
Proof.
  unfold Js.toString, NilZero.string_of_int.
  destruct (Z.to_int n); [apply numeric_uint|].
  change (numeric (String "-" (NilZero.string_of_uint d)))
    with (true && numeric (NilZero.string_of_uint d))%bool.
  apply numeric_uint.
Qed.

(** On the query that [filteredAgencies] hands to [searchAgencies], the
    test of the code is the predicate of the specification. *)
Lemma matches_spec obj q : matches obj (Js.toLowerCase q) = spec_matches obj q.
Proof.
  unfold matches, spec_matches, nameMatch, titleMatch. f_equal.
  - unfold Js.or_else. destruct (display_name obj); simpl; [|reflexivity].
    now destruct (name obj).
  - induction (cfr_references obj) as [|ref refs IH]; simpl; [reflexivity|].
    now rewrite IH, includes_lower_numeric by apply numeric_toString.
Qed.

(** ** The filter: claims *)

Lemma truthy_toLowerCase s : s <> "" -> Js.truthy (Js.toLowerCase s) = true.
Proof. destruct s; [congruence | reflexivity]. Qed.

Lemma dept_forest_in q : forest_in (store (dept_world q)) dept_forest.
Proof.
  split.
  - repeat constructor.
  - apply (bool_decide_unpack _). vm_compute. exact I.
Qed.

Lemma epa_forest_in q : forest_in (store (epa_world q)) epa_forest.
Proof.
  split.
  - repeat constructor.
  - apply (bool_decide_unpack _). vm_compute. exact I.
Qed.

Lemma epa_office_not_hit (h : gmap loc Agency) :
  h !! (1 : loc) = Some (agency_of "Office" [] []) -> ~ hit h "epa" 1.
Proof.
  intros H1 [(obj & Ho & Hm) | (d & Hd & _)].
  - assert (obj = agency_of "Office" [] []) as -> by congruence. discriminate.
  - inversion Hd as [a obj c Ha Hc | a obj c d' Ha Hc _]; subst;
      (assert (obj = agency_of "Office" [] []) as -> by congruence);
      contradiction.
Qed.

(** C1, at a failing input: a search for "40" over a department with two
    offices returns the department, and rewrites the [children] of the
    department object itself; once the query is cleared again the forest
    that [filteredAgencies] hands out has lost the second office. *)
Theorem searchAgencies_prunes_the_input :
  exists w' res obj,
    filteredAgencies 3 (dept_world "40") = Some (w', res) /\
    res = [0] /\
    store w' !! (0 : loc) = Some obj /\ children obj = [1] /\
    ~ children_preserved (store (dept_world "40")) (store w') /\
    filteredAgencies 0 (updateSearch "" w') = Some (updateSearch "" w', [0]).
Proof.
  destruct (filteredAgencies 3 (dept_world "40")) as [[w' res]|] eqn:Hrun;
    [|vm_compute in Hrun; discriminate].
  assert (H0 : store w' !! (0 : loc) = Some (agency_of "Department" [1] [])
               /\ res = [0]).
  { vm_compute in Hrun. injection Hrun as <- <-. split; reflexivity. }
  destruct H0 as [H0 ->].
  exists w', [0], (agency_of "Department" [1] []).
  repeat split; try assumption.
  - intros Hp. destruct (Hp (0 : loc) (agency_of "Department" [1; 2] []) eq_refl)
      as (obj' & Ho & Hc).
    assert (obj' = agency_of "Department" [1] []) as -> by congruence.
    discriminate.
  - vm_compute in Hrun. injection Hrun as <-. reflexivity.
Qed.

(** C4, as stated, fails: the agency "EPA" matches the query "epa" and is
    returned, and its office, which neither matches nor has a matching
    descendant, is still among its children. *)
Lemma direct_match_children_not_filtered :
  exists h' res obj,
    searchAgencies 3 epa_store [0] "epa" = Some (h', res) /\
    In 0 res /\
    h' !! (0 : loc) = Some obj /\ matches obj "epa" = true /\
    In 1 (children obj) /\ ~ hit h' "epa" 1.
Proof.
  exists epa_store, [0], (agency_of "EPA" [1] [40%Z]).
  split; [reflexivity|]. split; [now left|]. split; [reflexivity|].
  split; [reflexivity|]. split; [now left|].
  now apply epa_office_not_hit.
Qed.

(** C4, amended: a node that matches the query directly, wherever it sits
    in the forest, is still a node of the returned forest, and the filter
    changes neither the node nor anything below it: its children are kept
    as they were, not filtered. *)
Theorem direct_match_kept_with_subtree q ts (h : gmap loc Agency) t s :
  forest_in h ts -> In t ts -> subtree s t -> matches (payload s) q = true ->
  exists h' res,
    (forall fuel, depth_forest ts < fuel ->
       searchAgencies fuel h (map root ts) q = Some (h', res)) /\
    in_forest h' res (root s) /\
    (forall l, In l (locs s) -> h' !! l = h !! l).
Proof.
  intros Hf Ht Hs Hm.
  destruct (searchAgencies_forest q ts h Hf) as (h' & Hrun & Hrep & Hframe).
  exists h', (map root (List.filter (keep q) ts)). split; [exact Hrun|].
  destruct Hf as [Hr Hnd]. rewrite Forall_forall in Hr, Hrep.
  assert (Hrt : repr h t) by (apply Hr; now apply list_elem_of_In).
  assert (Hrt' : repr h' (after q t)) by (apply Hrep; now apply list_elem_of_In, in_map).
  pose proof (subtree_keep q s t Hs Hm) as Hk.
  pose proof (subtree_after q s t Hs Hm) as Hs'.
  assert (Hres : In (root t) (map root (List.filter (keep q) ts))).
  { apply in_map, filter_In. now split. }
  split.
  - destruct (subtree_desc h' s (after q t) Hs' Hrt') as [E | Hd];
      rewrite root_after in *.
    + left. now rewrite E.
    + right. now exists (root t).
  - apply repr_agree; [apply (repr_subtree h s t) | apply (repr_subtree h' s (after q t))];
      assumption.
Qed.

Lemma direct_match_kept_witness :
  exists h' res,
    (forall fuel, depth_forest epa_forest < fuel ->
       searchAgencies fuel epa_store (map root epa_forest) "epa" = Some (h', res)) /\
    in_forest h' res 0 /\
    (forall l, In l [0; 1] -> h' !! l = epa_store !! l).
Proof.
  apply (direct_match_kept_with_subtree "epa" epa_forest epa_store
           (Node 0 (agency_of "EPA" [1] [40%Z]) [Node 1 (agency_of "Office" [] []) []])
           (Node 0 (agency_of "EPA" [1] [40%Z]) [Node 1 (agency_of "Office" [] []) []])).
  - split; [repeat constructor | apply (bool_decide_unpack _); vm_compute; exact I].
  - now left.
  - constructor.
  - reflexivity.
Defined.

(** C5, as stated, fails: a query of one space is blank, yet the forest
    that holds "EPA" is filtered down to nothing. *)
Lemma blank_query_is_not_identity :
  blank " " = true /\
  agencies (signals (epa_world " ")) = [0] /\
  exists w', filteredAgencies 3 (epa_world " ") = Some (w', []).
Proof.
  split; [reflexivity|]. split; [reflexivity|].
  exists (epa_world " "). vm_compute. reflexivity.
Qed.

(** C5, amended: with the empty query [filteredAgencies] hands back the
    [agencies] array itself and touches nothing, whatever the forest. *)
Theorem empty_query_is_identity fuel w :
  searchQuery (signals w) = "" ->
  filteredAgencies fuel w = Some (w, agencies (signals w)).
Proof. intros Hq. unfold filteredAgencies. now rewrite Hq. Qed.

Lemma empty_query_is_identity_witness :
  filteredAgencies 0 (dept_world "")
  = Some (dept_world "", agencies (signals (dept_world ""))).
Proof. apply (empty_query_is_identity 0 (dept_world "")). reflexivity. Defined.

(** C6, as stated, fails: the office returned below "EPA" for the query
    "epa" neither matches nor has a matching descendant. *)
Lemma returned_node_without_match :
  exists w' res,
    filteredAgencies 3 (epa_world "epa") = Some (w', res) /\
    in_forest (store w') res 1 /\ ~ hit (store w') "epa" 1.
Proof.
  exists (epa_world "epa"), [0]. split; [reflexivity|]. split.
  - right. exists 0. split; [now left|].
    apply (desc_child _ 0 (agency_of "EPA" [1] [40%Z])); [reflexivity | now left].
  - now apply epa_office_not_hit.
Qed.

(** C6, amended: for a forest held by the store and a query that is not
    empty, [filteredAgencies] returns; every root it returns, and every
    child of a returned node that does not itself match, matches directly
    or has a matching descendant in the returned forest (the children of a
    direct match are returned unfiltered); the returned roots are a
    subsequence of the input, and so is every [children] sequence of what
    it was; the test of the code is the predicate of the specification. *)
Theorem filteredAgencies_no_false_inclusion w ts :
  forest_in (store w) ts ->
  agencies (signals w) = map root ts ->
  searchQuery (signals w) <> "" ->
  let query := Js.toLowerCase (searchQuery (signals w)) in
  exists w' res,
    (forall fuel, depth_forest ts < fuel -> filteredAgencies fuel w = Some (w', res)) /\
    (forall a, shown (store w') query res a -> hit (store w') query a) /\
    sublist res (agencies (signals w)) /\
    shrinks (store w) (store w') /\
    (forall obj, matches obj query = spec_matches obj (searchQuery (signals w))).
Proof.
  intros Hf Hroots Hq query.
  destruct (searchAgencies_forest query ts (store w) Hf) as (h' & Hrun & Hrep & Hframe).
  exists (set_store h' w), (map root (List.filter (keep query) ts)).
  split; [|split; [|split; [|split]]].
  - intros fuel Hfuel. unfold filteredAgencies. fold query.
    unfold query at 1. rewrite truthy_toLowerCase by assumption.
    now rewrite Hroots, (Hrun fuel Hfuel).
  - intros a Ha. simpl in *.
    destruct (shown_tree h' query ts a Hrep Ha) as (t & Hk & Hr & <-).
    rewrite <- (root_after query t). apply keep_hit; [assumption|].
    now rewrite keep_after.
  - rewrite Hroots.
    eapply (searchAgencies_shrinks query (S (depth_forest ts))), Hrun. lia.
  - eapply (searchAgencies_shrinks query (S (depth_forest ts))), Hrun. lia.
  - intros obj. apply matches_spec.
Qed.

Lemma filteredAgencies_no_false_inclusion_witness :
  exists w' res,
    (forall fuel, depth_forest dept_forest < fuel ->
       filteredAgencies fuel (dept_world "40") = Some (w', res)) /\
    (forall a, shown (store w') "40" res a -> hit (store w') "40" a) /\
    sublist res [0] /\
    shrinks dept_store (store w') /\
    (forall obj, matches obj "40" = spec_matches obj "40").
Proof.
  apply (filteredAgencies_no_false_inclusion (dept_world "40") dept_forest).
  - split; [repeat constructor | apply (bool_decide_unpack _); vm_compute; exact I].
  - reflexivity.
  - discriminate.
Defined.

(** ** The single-title refresh *)

Lemma deliver_word_count w tid t r now :
  tasks w !! tid = Some (AwaitWordCount t) ->
  deliver tid (WordCountReply t r now) w
  = Some (set_task tid Finished
            (upd_signals (refresh_title t r now) (emit [Arrived tid (WordCountReply t r now)] w))).
Proof. intros Ht. unfold deliver. now rewrite Ht, Z.eqb_refl. Qed.

Lemma refresh_title_unusable t r now s : usable r = false -> refresh_title t r now s = s.
Proof.
  destruct r as [[response|]|]; simpl; try reflexivity.
  now destruct (truthy_number _).
Qed.

Lemma refresh_title_titles t r now s :
  map TitleData.title (titleData (refresh_title t r now s))
  = map TitleData.title (titleData s).
Proof.
  destruct r as [[response|]|]; simpl; try reflexivity.
  destruct (truthy_number _); [|reflexivity]. simpl.
  rewrite map_map. apply map_ext. intros td.
  now destruct (Z.eqb _ _).
Qed.

(** C9: when the response of a single-title refresh of [t] arrives, the
    continuation runs to its end without an error; [titleData] keeps its
    length and order, every entry whose title is not [t] is the entry that
    was there, and with a usable word count the entries of title [t] get
    the new word count and date; when the fetch failed or brought no usable
    word count no signal changes at all. *)
Theorem refresh_replaces_only_the_matching_entry w tid t r now :
  tasks w !! tid = Some (AwaitWordCount t) ->
  exists w',
    deliver tid (WordCountReply t r now) w = Some w' /\
    length (titleData (signals w')) = length (titleData (signals w)) /\
    (forall i td, titleData (signals w) !! i = Some td ->
       TitleData.title td <> t -> titleData (signals w') !! i = Some td) /\
    (forall response n, r = Ok (Some response) ->
       truthy_number (TitleWordCountResponse.word_count response) = Some n ->
       forall i td, titleData (signals w) !! i = Some td ->
         TitleData.title td = t ->
         titleData (signals w') !! i
         = Some (TitleData.mk t n
                   (date_or_now (TitleWordCountResponse.date response) now))) /\
    (usable r = false -> signals w' = signals w).
Proof.
  intros Ht. eexists. split; [now apply deliver_word_count|]. simpl.
  split; [|split; [|split]].
  - rewrite <- (length_map TitleData.title), refresh_title_titles.
    apply length_map.
  - intros i td Hi Hne.
    destruct r as [[response|]|]; simpl; try assumption.
    destruct (truthy_number _); [|assumption]. simpl.
    rewrite list_lookup_fmap, Hi. simpl.
    destruct (Z.eqb_spec (TitleData.title td) t); [contradiction | reflexivity].
  - intros response n -> Hn i td Hi Htd. simpl. rewrite Hn. simpl.
    rewrite list_lookup_fmap, Hi. simpl.
    destruct (Z.eqb_spec (TitleData.title td) t); [now subst | contradiction].
  - apply refresh_title_unusable.
Qed.

Lemma refresh_replaces_only_the_matching_entry_witness :
  exists w',
    deliver 0 (WordCountReply 3 fresh_count "now") (loadTitleWordCount 3 loaded_world)
    = Some w' /\
    titleData (signals w')
    = [TitleData.mk 1 100 "2024-01-01"; TitleData.mk 2 200 "2024-01-01";
       TitleData.mk 3 333 "2024-06-30"].
Proof.
  destruct (refresh_replaces_only_the_matching_entry
              (loadTitleWordCount 3 loaded_world) 0 3 fresh_count "now" eq_refl)
    as (w' & Hrun & _).
  exists w'. split; [exact Hrun|].
  vm_compute in Hrun. injection Hrun as <-. reflexivity.
Defined.

(** C10: the response of a single-title refresh never adds an entry: the
    titles present in [titleData] stay the same, in the same order,
    whatever arrives; and when no entry has title [t], [titleData] is left
    exactly as it was, the fetched data being dropped. *)
Theorem refresh_never_adds_an_entry w tid t r now :
  tasks w !! tid = Some (AwaitWordCount t) ->
  exists w',
    deliver tid (WordCountReply t r now) w = Some w' /\
    map TitleData.title (titleData (signals w'))
    = map TitleData.title (titleData (signals w)) /\
    ((forall td, In td (titleData (signals w)) -> TitleData.title td <> t) ->
     titleData (signals w') = titleData (signals w)).
Proof.
  intros Ht. eexists. split; [now apply deliver_word_count|]. simpl.
  split; [apply refresh_title_titles|].
  intros Hno. destruct r as [[response|]|]; simpl; try reflexivity.
  destruct (truthy_number _); [|reflexivity]. simpl.
  rewrite <- (map_id (titleData (signals w))) at 2.
  apply map_ext_in. intros td Hin.
  destruct (Z.eqb_spec (TitleData.title td) t); [|reflexivity].
  now destruct (Hno td Hin).
Qed.

Lemma refresh_never_adds_an_entry_witness :
  exists w',
    deliver 0 (WordCountReply 9 fresh_count "now") (loadTitleWordCount 9 loaded_world)
    = Some w' /\
    map TitleData.title (titleData (signals w')) = [1; 2; 3]%Z /\
    ((forall td, In td loaded_titles -> TitleData.title td <> 9%Z) ->
     titleData (signals w') = loaded_titles).
Proof.
  exact (refresh_never_adds_an_entry
           (loadTitleWordCount 9 loaded_world) 0 9 fresh_count "now" eq_refl).
Defined.

(** ** Selecting a title *)

(** C3, as stated, fails: no agency is selected, title 99 is referenced by
    nothing, and yet [selectTitle(99)] records the selection and sends a
    request. *)
Lemma selectTitle_unreferenced_is_not_ignored :
  ~ In 99%Z (referenced_titles (dept_world "")) /\
  selectTitle 99 (dept_world "") <> dept_world "" /\
  selectedTitle (signals (selectTitle 99 (dept_world ""))) = Some 99%Z /\
  log (selectTitle 99 (dept_world "")) = [Sent 0 (GetWordCount 99)].
Proof.
  split; [intros []|]. split; [discriminate|]. split; reflexivity.
Qed.

(** C3, amended: [selectTitle(t)] does not look at the selected agency: for
    every [t] it sets [selectedTitle] to [t] and sends exactly one
    word-count request for [t], whose continuation is left waiting; the
    other signals and the agency objects are as they were. *)
Theorem selectTitle_always_selects t w :
  let w' := selectTitle t w in
  selectedTitle (signals w') = Some t /\
  log w' = log w ++ [Sent (length (tasks w)) (GetWordCount t)] /\
  tasks w' = tasks w ++ [AwaitWordCount t] /\
  signals w' = set_selectedTitle (Some t) (signals w) /\
  store w' = store w.
Proof. repeat split. Qed.

(** ** Selecting an agency *)

Lemma in_insert_other {A} (l : list A) i old new x :
  l !! i = Some old -> x <> old -> In x l -> In x (<[i := new]> l).
Proof.
  intros Hi Hne Hx. apply list_elem_of_In, list_elem_of_lookup in Hx as [j Hj].
  apply list_elem_of_In, list_elem_of_lookup. exists j.
  rewrite list_lookup_insert_ne; [assumption|]. intros ->. congruence.
Qed.

Lemma in_insert_new {A} (l : list A) i old new :
  l !! i = Some old -> In new (<[i := new]> l).
Proof.
  intros Hi. apply list_elem_of_In, list_elem_of_lookup. exists i.
  apply list_lookup_insert_eq. now apply lookup_lt_Some in Hi.
Qed.

Lemma fulfil_idle t ps : forall ps',
  Forall idle_promise ps -> fulfil t None ps = Some ps' -> Forall idle_promise ps'.
Proof.
  induction ps as [|[t0 p] ps IH]; intros ps' Hall; simpl; [discriminate|].
  apply Forall_cons in Hall as [Hp Hall].
  destruct p as [|v].
  - destruct (Z.eqb t0 t).
    + intros [= <-]. constructor; [now right | assumption].
    + destruct (fulfil t None ps) as [ps0|]; [|discriminate].
      intros [= <-]. constructor; [assumption | now apply IH].
  - destruct (fulfil t None ps) as [ps0|]; [|discriminate].
    intros [= <-]. constructor; [assumption | now apply IH].
Qed.

Lemma all_fulfilled_idle ps : forall rs,
  Forall idle_promise ps -> all_fulfilled ps = Some rs -> validResults rs = [].
Proof.
  induction ps as [|[t0 p] ps IH]; intros rs Hall; simpl.
  - now intros [= <-].
  - apply Forall_cons in Hall as [Hp Hall]. destruct p as [|v]; [discriminate|].
    destruct (all_fulfilled ps) as [rs0|]; [|discriminate].
    intros [= <-]. destruct Hp as [Hp|Hp]; [discriminate|].
    simpl in Hp. injection Hp as ->. simpl. now apply IH.
Qed.

Lemma failing_inv_deliver w tid resp w' :
  failing_inv w -> failure (tid, resp) = true ->
  deliver tid resp w = Some w' -> failing_inv w'.
Proof.
  intros (Hidle & Hh & Hc & Ht) Hfail. unfold deliver.
  destruct (tasks w !! tid) as [t|] eqn:Htid; [|discriminate].
  destruct t as [| | |b|title], resp as [r|r|title' r now]; try discriminate;
    destruct r as [body|]; try discriminate; clear Hfail.
  - intros [= <-]. simpl. split; [now apply Forall_insert|].
    split; [now left|]. split.
    + destruct Hc as [Hc|Hc]; [now left | right].
      now apply (in_insert_other _ _ AwaitHistory).
    + destruct Ht as [Ht|[b Hb]]; [now left | right]. exists b.
      now apply (in_insert_other _ _ AwaitHistory).
  - intros [= <-]. simpl. split; [now apply Forall_insert|]. split.
    + destruct Hh as [Hh|Hh]; [now left | right].
      now apply (in_insert_other _ _ AwaitChanges).
    + split; [now left|].
      destruct Ht as [Ht|[b Hb]]; [now left | right]. exists b.
      now apply (in_insert_other _ _ AwaitChanges).
  - simpl fetch_result.
    assert (Hb : idle_task (AwaitBatch b)).
    { rewrite Forall_forall in Hidle. apply Hidle.
      now apply list_elem_of_lookup_2 in Htid. }
    destruct Hb as [Hacc Hps].
    destruct (fulfil title' None (batchPromises b)) as [ps|] eqn:Hful; [|discriminate].
    pose proof (fulfil_idle _ _ _ Hps Hful) as Hps'.
    destruct (all_fulfilled ps) as [rs|] eqn:Hall.
    + rewrite (all_fulfilled_idle _ _ Hps' Hall), Hacc. simpl app.
      intros [= <-]. destruct (batches b) as [|batch rest]; simpl.
      * split; [now apply Forall_insert|]. split.
        -- destruct Hh as [Hh|Hh]; [now left | right].
           now apply (in_insert_other _ _ (AwaitBatch b)).
        -- split; [|now left].
           destruct Hc as [Hc|Hc]; [now left | right].
           now apply (in_insert_other _ _ (AwaitBatch b)).
      * split.
        { apply Forall_insert; [assumption|]. split; [reflexivity|].
          apply Forall_forall. intros p Hp.
          apply list_elem_of_In, in_map_iff in Hp as (t0 & <- & _). now left. }
        split.
        -- destruct Hh as [Hh|Hh]; [now left | right].
           now apply (in_insert_other _ _ (AwaitBatch b)).
        -- split.
           ++ destruct Hc as [Hc|Hc]; [now left | right].
              now apply (in_insert_other _ _ (AwaitBatch b)).
           ++ right. eexists. now apply (in_insert_new _ _ (AwaitBatch b)).
    + intros [= <-]. simpl. split.
      { apply Forall_insert; [assumption|]. now split. }
      split.
      * destruct Hh as [Hh|Hh]; [now left | right].
        now apply (in_insert_other _ _ (AwaitBatch b)).
      * split.
        -- destruct Hc as [Hc|Hc]; [now left | right].
           now apply (in_insert_other _ _ (AwaitBatch b)).
        -- right. eexists. now apply (in_insert_new _ _ (AwaitBatch b)).
  - destruct (Z.eqb title title'); [|discriminate].
    intros [= <-]. simpl. split; [now apply Forall_insert|]. split.
    + destruct Hh as [Hh|Hh]; [now left | right].
      now apply (in_insert_other _ _ (AwaitWordCount title)).
    + split.
      * destruct Hc as [Hc|Hc]; [now left | right].
        now apply (in_insert_other _ _ (AwaitWordCount title)).
      * destruct Ht as [Ht|[b Hb]]; [now left | right]. exists b.
        now apply (in_insert_other _ _ (AwaitWordCount title)).
Qed.

Lemma failing_inv_run evs : forall w w',
  failing_inv w -> forallb failure evs = true ->
  run w evs = Some w' -> failing_inv w'.
Proof.
  induction evs as [|[tid resp] evs IH]; intros w w' Hinv Hfail; simpl.
  - now intros [= <-].
  - simpl in Hfail. apply andb_true_iff in Hfail as [Hf Hfail].
    destruct (deliver tid resp w) as [w1|] eqn:Hd; [|discriminate].
    apply IH; [|assumption]. now apply (failing_inv_deliver w tid resp).
Qed.

Lemma failing_inv_quiescent w :
  failing_inv w -> quiescent w -> collections_cleared (signals w).
Proof.
  intros (_ & Hh & Hc & Ht) Hq. unfold quiescent in Hq.
  rewrite Forall_forall in Hq.
  assert (Hno : forall t, In t (tasks w) -> t = Finished)
    by (intros t Hin; apply Hq; now apply list_elem_of_In).
  repeat split.
  - destruct Ht as [Ht|[b Hb]]; [assumption|]. now apply Hno in Hb.
  - destruct Hh as [Hh|Hh]; [assumption|]. now apply Hno in Hh.
  - destruct Hc as [Hc|Hc]; [assumption|]. now apply Hno in Hc.
Qed.

Lemma insert_snoc {A} (l : list A) x y : <[length l := x]> (l ++ [y]) = l ++ [x].
Proof. rewrite insert_app_r_alt by lia. now rewrite Nat.sub_diag. Qed.

Lemma Set_from_cons x l : Set_from (x :: l) = x :: set_add_all [x] l.
Proof. reflexivity. Qed.

Lemma make_batches_cons x l :
  make_batches (x :: l)
  = slice 0 batchSize (x :: l) :: batch_loop (length l) (x :: l) batchSize batchSize.
Proof. reflexivity. Qed.

Lemma loadTitleData_tasks a w :
  exists t, tasks (loadTitleData a w) = tasks w \/
            (tasks (loadTitleData a w) = tasks w ++ [t] /\ idle_task t).
Proof.
  unfold loadTitleData.
  destruct (store w !! a) as [obj|]; [|exists Finished; now left].
  destruct (cfr_references obj) as [|ref refs]; [exists Finished; now left|].
  destruct (make_batches _) as [|batch rest]; simpl.
  - exists Finished. right. rewrite insert_snoc. now split.
  - eexists. right. rewrite insert_snoc. split; [reflexivity|].
    split; [reflexivity|]. apply Forall_forall. intros p Hp.
    apply list_elem_of_In, in_map_iff in Hp as (t0 & <- & _). now left.
Qed.

Lemma loadTitleData_started a w :
  titleData (signals (loadTitleData a w)) = [] \/
  exists b, In (AwaitBatch b) (tasks (loadTitleData a w)).
Proof.
  unfold loadTitleData.
  destruct (store w !! a) as [obj|]; [|now left].
  destruct (cfr_references obj) as [|ref refs]; [now left|].
  destruct (make_batches _) as [|batch rest]; simpl; [now left|].
  right. eexists. rewrite insert_snoc. apply in_or_app. right. now left.
Qed.

Lemma selectAgency_failing_inv a obj w :
  store w !! a = Some obj -> quiescent w -> failing_inv (selectAgency a w).
Proof.
  intros Ha Hq. unfold selectAgency, loadAgencyHistory, loadAgencyChanges.
  simpl. rewrite Ha. simpl. rewrite Ha.
  set (w2 := spawn AwaitChanges _).
  assert (Htasks : tasks w2 = (tasks w ++ [AwaitHistory]) ++ [AwaitChanges]) by reflexivity.
  assert (Hidle2 : Forall idle_task (tasks w2)).
  { rewrite Htasks. repeat apply Forall_app_2; try (repeat constructor).
    unfold quiescent in Hq. eapply Forall_impl; [exact Hq|]. now intros t ->. }
  assert (Hkeep : forall t, In t (tasks w2) -> In t (tasks (loadTitleData a w2))).
  { intros t Hin. destruct (loadTitleData_tasks a w2) as (t' & [E | [E _]]);
      rewrite E; [assumption | apply in_or_app; now left]. }
  split; [|split; [|split]].
  - destruct (loadTitleData_tasks a w2) as (t' & [E | [E Ht']]); rewrite E;
      [assumption | apply Forall_app_2; [assumption | now constructor]].
  - right. apply Hkeep. rewrite Htasks. apply in_or_app. left.
    apply in_or_app. right. now left.
  - right. apply Hkeep. rewrite Htasks. apply in_or_app. right. now left.
  - apply loadTitleData_started.
Qed.

(** C2, as stated, fails: the service holds the data of a previous agency;
    once [selectAgency] has run up to its [await], the three collections
    are all still there, and when the new history arrives the old title
    data and the old changes are still there beside it. *)
Lemma selectAgency_leaves_collections :
  selectedAgency (signals (selectAgency 2 loaded_world)) = Some 2 /\
  titleData (signals (selectAgency 2 loaded_world)) = loaded_titles /\
  selectedAgencyHistory (signals (selectAgency 2 loaded_world))
  = [HistoricalData.mk "2024-01-01" 600] /\
  selectedAgencyChanges (signals (selectAgency 2 loaded_world))
  = [TitleChange.mk "2024-01-01" 3 [] 0] /\
  ~ collections_cleared (signals (selectAgency 2 loaded_world)) /\
  exists w',
    deliver 0 (HistoryReply (Ok (Some [HistoricalData.mk "2024-06-30" 70])))
            (selectAgency 2 loaded_world) = Some w' /\
    selectedAgencyHistory (signals w') = [HistoricalData.mk "2024-06-30" 70] /\
    titleData (signals w') = loaded_titles /\
    selectedAgencyChanges (signals w') = [TitleChange.mk "2024-01-01" 3 [] 0].
Proof.
  do 4 (split; [reflexivity|]). split; [intros (H & _); discriminate|].
  eexists. split; [reflexivity|]. repeat split.
Qed.

(** ** Deduplication and batching *)

Lemma existsb_eqb_In x l : existsb (Z.eqb x) l = true <-> In x l.
Proof.
  rewrite existsb_exists. split.
  - intros (y & Hy & E). apply Z.eqb_eq in E. now subst.
  - intros Hx. exists x. split; [assumption | apply Z.eqb_refl].
Qed.

Lemma set_add_all_In l : forall seen x,
  In x (set_add_all seen l) <-> In x l /\ ~ In x seen.
Proof.
  induction l as [|y l IH]; intros seen x; simpl; [tauto|].
  destruct (existsb (Z.eqb y) seen) eqn:Hy.
  - apply existsb_eqb_In in Hy. rewrite IH. split; [tauto|].
    intros [[->|Hx] Hn]; tauto.
  - assert (Hy' : ~ In y seen).
    { intros Hin. apply existsb_eqb_In in Hin. congruence. }
    simpl. rewrite IH. simpl. split.
    + intros [<-|[Hx Hn]]; tauto.
    + intros [[<-|Hx] Hn]; [now left|].
      destruct (Z.eq_dec y x) as [->|Hne]; [now left | right; tauto].
Qed.

Lemma set_add_all_NoDup l : forall seen, NoDup (set_add_all seen l).
Proof.
  induction l as [|y l IH]; intros seen; simpl; [constructor|].
  destruct (existsb (Z.eqb y) seen); [apply IH|].
  apply NoDup_cons. split; [|apply IH].
  rewrite list_elem_of_In, set_add_all_In. simpl. tauto.
Qed.

Lemma Set_from_NoDup l : NoDup (Set_from l).
Proof. apply set_add_all_NoDup. Qed.

Lemma Set_from_In l x : In x (Set_from l) <-> In x l.
Proof. unfold Set_from. rewrite set_add_all_In. simpl. tauto. Qed.

Lemma batch_loop_concat (l : list Z) bs : 0 < bs ->
  forall fuel i, length l - i <= fuel -> concat (batch_loop fuel l bs i) = drop i l.
Proof.
  intros Hbs fuel. induction fuel as [|fuel IH]; intros i Hfuel; simpl.
  - symmetry. apply drop_ge. lia.
  - destruct (Nat.ltb_spec i (length l)) as [Hlt|Hge].
    + simpl. rewrite IH by lia. unfold slice.
      replace (i + bs - i) with bs by lia.
      rewrite <- drop_drop. apply take_drop.
    + symmetry. apply drop_ge. lia.
Qed.

Lemma batch_loop_sizes (l : list Z) bs : 0 < bs ->
  forall fuel i,
    Forall (fun b => 0 < length b <= bs) (batch_loop fuel l bs i).
Proof.
  intros Hbs fuel. induction fuel as [|fuel IH]; intros i; simpl; [constructor|].
  destruct (Nat.ltb_spec i (length l)) as [Hlt|Hge]; [|constructor].
  constructor; [|apply IH]. unfold slice.
  rewrite length_take, length_drop. lia.
Qed.

Lemma make_batches_concat l : concat (make_batches l) = l.
Proof.
  unfold make_batches. rewrite batch_loop_concat; [reflexivity | unfold batchSize; lia | lia].
Qed.

Lemma make_batches_sizes l :
  Forall (fun b => 0 < length b <= 5) (make_batches l).
Proof. apply (batch_loop_sizes l batchSize). unfold batchSize. lia. Qed.

(** ** Runs of the batched load *)

Lemma result_for_here tid t r now evs :
  result_for ((tid, WordCountReply t r now) :: evs) t = fetch_result t r now.
Proof. unfold result_for. simpl. now rewrite Z.eqb_refl. Qed.

Lemma result_for_skip tid t r now evs t' :
  t <> t' -> result_for ((tid, WordCountReply t r now) :: evs) t' = result_for evs t'.
Proof.
  intros Hne. unfold result_for. simpl.
  destruct (Z.eqb_spec t t'); [contradiction | reflexivity].
Qed.

Lemma expected_cons evs p ps :
  expected evs (p :: ps)
  = match promise_value evs p with
    | Some x => x :: expected evs ps
    | None => expected evs ps
    end.
Proof. reflexivity. Qed.

Lemma promise_value_skip tid t r now evs t0 p :
  t0 <> t ->
  promise_value ((tid, WordCountReply t r now) :: evs) (t0, p) = promise_value evs (t0, p).
Proof.
  intros Hne. destruct p; [|reflexivity]. unfold promise_value. simpl.
  apply result_for_skip. congruence.
Qed.

Lemma expected_skip tid t r now evs ps :
  ~ In t (map fst ps) ->
  expected ((tid, WordCountReply t r now) :: evs) ps = expected evs ps.
Proof.
  induction ps as [|[t0 p] ps IH]; intros Hn; [reflexivity|].
  simpl in Hn. rewrite !expected_cons, IH by tauto.
  rewrite promise_value_skip; [reflexivity|]. intros ->. tauto.
Qed.

Lemma omap_result_for_skip tid t r now evs l :
  ~ In t l ->
  omap (result_for ((tid, WordCountReply t r now) :: evs)) l = omap (result_for evs) l.
Proof.
  induction l as [|t0 l IH]; intros Hn; [reflexivity|].
  simpl in Hn. cbn [omap list_omap].
  rewrite IH by tauto. rewrite result_for_skip; [reflexivity|].
  intros ->. tauto.
Qed.

Lemma expected_pending evs b :
  expected evs (map (fun t => (t, Pending)) b) = omap (result_for evs) b.
Proof.
  induction b as [|t b IH]; [reflexivity|].
  cbn [map]. rewrite expected_cons, IH. reflexivity.
Qed.

Lemma pending_titles_pending b : pending_titles (map (fun t => (t, Pending)) b) = b.
Proof. induction b as [|t b IH]; [reflexivity|]. simpl. now rewrite IH. Qed.

Lemma fulfil_spec tid t r now evs ps : forall ps',
  NoDup (map fst ps) ->
  fulfil t (fetch_result t r now) ps = Some ps' ->
  map fst ps' = map fst ps /\
  expected evs ps' = expected ((tid, WordCountReply t r now) :: evs) ps /\
  Permutation (pending_titles ps) (t :: pending_titles ps') /\
  In t (map fst ps).
Proof.
  induction ps as [|[t0 p] ps IH]; intros ps' Hnd; simpl; [discriminate|].
  simpl in Hnd. apply NoDup_cons in Hnd as [Ht0 Hnd].
  rewrite list_elem_of_In in Ht0.
  assert (Hcons : forall ps0,
            fulfil t (fetch_result t r now) ps = Some ps0 -> t0 <> t ->
            map fst ((t0, p) :: ps0) = t0 :: map fst ps /\
            expected evs ((t0, p) :: ps0)
            = expected ((tid, WordCountReply t r now) :: evs) ((t0, p) :: ps) /\
            Permutation (pending_titles ((t0, p) :: ps))
                        (t :: pending_titles ((t0, p) :: ps0)) /\
            (t0 = t \/ In t (map fst ps))).
  { intros ps0 Hps0 Hne.
    destruct (IH ps0 Hnd Hps0) as (Hfst & Hexp & Hperm & Hin).
    split; [simpl; now rewrite Hfst|]. split; [|split; [|now right]].
    - rewrite !expected_cons, Hexp. now rewrite promise_value_skip.
    - unfold pending_titles in *. simpl. destruct p; simpl; [|assumption].
      rewrite Hperm. apply perm_swap. }
  destruct p as [|v].
  - destruct (Z.eqb_spec t0 t) as [->|Hne].
    + intros [= <-]. split; [reflexivity|]. split; [|split; [|now left]].
      * rewrite !expected_cons. unfold promise_value. cbn [snd fst].
        rewrite result_for_here. now rewrite expected_skip.
      * reflexivity.
    + destruct (fulfil t (fetch_result t r now) ps) as [ps0|] eqn:Hps0; [|discriminate].
      intros [= <-]. now apply Hcons.
  - destruct (fulfil t (fetch_result t r now) ps) as [ps0|] eqn:Hps0; [|discriminate].
    intros [= <-]. apply Hcons; [reflexivity|].
    intros ->. destruct (IH ps0 Hnd eq_refl) as (_ & _ & _ & Hin). contradiction.
Qed.

Lemma all_fulfilled_spec evs ps : forall rs,
  all_fulfilled ps = Some rs ->
  validResults rs = expected evs ps /\ pending_titles ps = [].
Proof.
  induction ps as [|[t0 p] ps IH]; intros rs; cbn [all_fulfilled].
  - intros [= <-]. now split.
  - destruct p as [|v]; [discriminate|].
    destruct (all_fulfilled ps) as [rs0|]; [|discriminate].
    intros [= <-]. destruct (IH rs0 eq_refl) as [Hv Hp].
    split; [|assumption].
    rewrite expected_cons, <- Hv. unfold promise_value. cbn [snd fst].
    unfold validResults. cbn [omap list_omap]. now destruct v.
Qed.

Lemma fetch_events_app l1 l2 :
  fetch_events (l1 ++ l2) = fetch_events l1 ++ fetch_events l2.
Proof. apply omap_app. Qed.

Lemma fetch_events_sent tid b :
  fetch_events (map (fun t => Sent tid (GetWordCount t)) b) = map Start b.
Proof.
  induction b as [|t b IH]; [reflexivity|].
  unfold fetch_events in *. cbn [map omap list_omap]. now rewrite IH.
Qed.

Lemma deliver_calm w tid' t resp w1 :
  tasks w !! tid' = Some t -> calm_task t -> deliver tid' resp w = Some w1 ->
  tasks w1 = <[tid' := Finished]> (tasks w) /\
  titleData (signals w1) = titleData (signals w) /\
  fetch_events (log w1) = fetch_events (log w) /\
  (forall title evs, reply_for title ((tid', resp) :: evs) = reply_for title evs).
Proof.
  intros Ht Hcalm. unfold deliver. rewrite Ht.
  destruct Hcalm as [-> | [-> | ->]]; destruct resp as [r|r|title r now];
    try discriminate; intros [= <-]; simpl;
    rewrite fetch_events_app, app_nil_r; repeat split.
Qed.

Lemma calm_run tid evs : forall w w',
  calm w -> run w evs = Some w' -> tasks w !! tid = Some Finished ->
  titleData (signals w') = titleData (signals w) /\
  fetch_events (log w') = fetch_events (log w) /\
  tasks w' !! tid = Some Finished.
Proof.
  induction evs as [|[tid' resp] evs IH]; intros w w' Hcalm; simpl.
  - intros [= <-] Hfin. now repeat split.
  - destruct (deliver tid' resp w) as [w1|] eqn:Hd; [|discriminate].
    intros Hrun Hfin.
    assert (Ht : exists t, tasks w !! tid' = Some t).
    { unfold deliver in Hd. destruct (tasks w !! tid'); [eauto | discriminate]. }
    destruct Ht as [t Ht].
    assert (Hct : calm_task t).
    { unfold calm in Hcalm. rewrite Forall_forall in Hcalm. apply Hcalm.
      now apply list_elem_of_lookup_2 in Ht. }
    destruct (deliver_calm _ _ _ _ _ Ht Hct Hd) as (Htasks & Hdata & Hlog & _).
    assert (Hcalm1 : calm w1).
    { unfold calm. rewrite Htasks. apply Forall_insert; [assumption | now left]. }
    assert (Hfin1 : tasks w1 !! tid = Some Finished).
    { rewrite Htasks. destruct (decide (tid' = tid)) as [->|Hne].
      - apply list_lookup_insert_eq. now apply lookup_lt_Some in Hfin.
      - now rewrite list_lookup_insert_ne. }
    destruct (IH w1 w' Hcalm1 Hrun Hfin1) as (Hd' & Hl' & Hf').
    rewrite Hd', Hl'. now repeat split.
Qed.

Lemma deliver_bulk tid w acc ps rest resp w1 :
  bulk_at tid w acc ps rest -> deliver tid resp w = Some w1 ->
  exists t r now ps',
    resp = WordCountReply t r now /\
    fulfil t (fetch_result t r now) ps = Some ps' /\
    w1 = match all_fulfilled ps' with
         | None => set_task tid (AwaitBatch (mkBulk acc ps' rest))
                            (emit [Arrived tid resp] w)
         | Some rs => continue_load tid (acc ++ validResults rs) rest
                                    (emit [Arrived tid resp] w)
         end.
Proof.
  intros [Htid Hothers]. unfold deliver.
  rewrite Htid. destruct resp as [r|r|t r now]; try discriminate.
  simpl.
  destruct (fulfil t (fetch_result t r now) ps) as [ps'|] eqn:Hful; [|discriminate].
  intros Hw1. exists t, r, now, ps'.
  split; [reflexivity|]. split; [assumption|].
  destruct (all_fulfilled ps'); now injection Hw1 as <-.
Qed.

Lemma bulk_at_insert tid w acc ps rest w1 acc' ps' rest' :
  bulk_at tid w acc ps rest ->
  tasks w1 = <[tid := AwaitBatch (mkBulk acc' ps' rest')]> (tasks w) ->
  bulk_at tid w1 acc' ps' rest'.
Proof.
  intros [Htid Hothers] Htasks. split; rewrite Htasks.
  - apply list_lookup_insert_eq. now apply lookup_lt_Some in Htid.
  - intros j t Hj Hne. rewrite list_lookup_insert_ne in Hj by congruence. eauto.
Qed.

Lemma bulk_at_other tid w acc ps rest w1 tid' :
  bulk_at tid w acc ps rest -> tid' <> tid ->
  tasks w1 = <[tid' := Finished]> (tasks w) ->
  bulk_at tid w1 acc ps rest.
Proof.
  intros [Htid Hothers] Hne Htasks. split; rewrite Htasks.
  - now rewrite list_lookup_insert_ne.
  - intros j t Hj Hj'. destruct (decide (tid' = j)) as [->|Hne'].
    + destruct (tasks w !! j) as [t0|] eqn:Ht0.
      * rewrite list_lookup_insert_eq in Hj by (now apply lookup_lt_Some in Ht0).
        injection Hj as <-. now left.
      * rewrite list_insert_ge in Hj by (now apply lookup_ge_None in Ht0).
        congruence.
    + rewrite list_lookup_insert_ne in Hj by assumption. eauto.
Qed.

Lemma bulk_at_finish tid w acc ps rest w1 :
  bulk_at tid w acc ps rest ->
  tasks w1 = <[tid := Finished]> (tasks w) ->
  calm w1 /\ tasks w1 !! tid = Some Finished.
Proof.
  intros [Htid Hothers] Htasks. rewrite Htasks. split.
  - unfold calm. rewrite Htasks.
    apply Forall_forall. intros t Ht.
    apply list_elem_of_lookup in Ht as [j Hj].
    destruct (decide (j = tid)) as [->|Hne].
    + rewrite list_lookup_insert_eq in Hj by (now apply lookup_lt_Some in Htid).
      injection Hj as <-. now left.
    + rewrite list_lookup_insert_ne in Hj by congruence. eauto.
  - apply list_lookup_insert_eq. now apply lookup_lt_Some in Htid.
Qed.

Lemma result_for_ext evs1 evs2 t :
  reply_for t evs1 = reply_for t evs2 -> result_for evs1 t = result_for evs2 t.
Proof. unfold result_for. now intros ->. Qed.

Lemma expected_ext evs1 evs2 ps :
  (forall t, reply_for t evs1 = reply_for t evs2) ->
  expected evs1 ps = expected evs2 ps.
Proof.
  intros Hext. induction ps as [|[t p] ps IH]; [reflexivity|].
  rewrite !expected_cons, IH. unfold promise_value. cbn [fst snd].
  destruct p; [|reflexivity]. now rewrite (result_for_ext evs1 evs2).
Qed.

Lemma omap_result_for_ext evs1 evs2 (l : list Z) :
  (forall t, reply_for t evs1 = reply_for t evs2) ->
  omap (result_for evs1) l = omap (result_for evs2) l.
Proof.
  intros Hext. induction l as [|t l IH]; [reflexivity|].
  cbn [omap list_omap]. now rewrite IH, (result_for_ext evs1 evs2).
Qed.

Lemma batched_serial bs : batched bs (serial bs).
Proof. induction bs as [|b bs IH]; simpl; constructor; auto. Qed.

(** A schedule played on a batched load: the word-count traffic so far is
    the beginning of a batch-after-batch trace, and when the load has
    reached its end [titleData] holds the results in the order of the
    titles. *)
Lemma bulk_run tid evs : forall w acc ps rest w',
  bulk_at tid w acc ps rest ->
  NoDup (map fst ps ++ concat rest) ->
  run w evs = Some w' ->
  (tasks w' !! tid = Some Finished ->
   titleData (signals w')
   = acc ++ expected evs ps ++ omap (result_for evs) (concat rest)) /\
  exists settles tr ext,
    fetch_events (log w') ++ ext = fetch_events (log w) ++ settles ++ tr /\
    Permutation settles (map Done (pending_titles ps)) /\
    batched rest tr /\
    (tasks w' !! tid = Some Finished -> ext = []).
Proof.
  induction evs as [|[tid' resp] evs IH]; intros w acc ps rest w' Hat Hnd; simpl.
  - intros [= <-]. destruct Hat as [Htid _]. split; [congruence|].
    exists (map Done (pending_titles ps)), (serial rest),
           (map Done (pending_titles ps) ++ serial rest).
    split; [reflexivity|]. split; [reflexivity|].
    split; [apply batched_serial | congruence].
  - destruct (deliver tid' resp w) as [w1|] eqn:Hd; [|discriminate].
    intros Hrun.
    destruct (decide (tid' = tid)) as [->|Hne].
    + destruct (deliver_bulk _ _ _ _ _ _ _ Hat Hd)
        as (t & r & now & ps' & -> & Hful & Hw1).
      pose proof Hnd as Hnd0.
      apply NoDup_app in Hnd as (Hndps & Hdis & Hndrest).
      destruct (fulfil_spec tid t r now evs ps ps' Hndps Hful)
        as (Hfst & Hexp & Hperm & Hin).
      assert (Hnotrest : ~ In t (concat rest)).
      { rewrite <- list_elem_of_In. apply Hdis. now apply list_elem_of_In. }
      rewrite (omap_result_for_skip _ _ _ _ _ _ Hnotrest), <- Hexp.
      destruct (all_fulfilled ps') as [rs|] eqn:Hall.
      * destruct (all_fulfilled_spec evs ps' rs Hall) as [Hvalid Hnone].
        rewrite Hnone in Hperm.
        destruct rest as [|b rest].
        -- destruct (bulk_at_finish tid w acc ps [] w1 Hat) as [Hcalm Hfin1];
             [now subst w1|].
           destruct (calm_run tid evs w1 w' Hcalm Hrun Hfin1) as (Hd' & Hl' & Hf').
           split.
           ++ intros _. rewrite Hd'. subst w1. simpl. rewrite Hvalid.
              unfold expected at 2. now rewrite app_nil_r.
           ++ exists [Done t], [], []. rewrite Hl'. subst w1. simpl.
              rewrite fetch_events_app.
              split; [now rewrite !app_nil_r|].
              split; [|split; [constructor | trivial]].
              rewrite Hperm. reflexivity.
        -- assert (Hat1 : bulk_at tid w1 (acc ++ validResults rs)
                                  (map (fun t => (t, Pending)) b) rest)
             by (apply (bulk_at_insert tid w acc ps (b :: rest));
                 [assumption | now subst w1]).
           assert (Hnd1 : NoDup (map fst (map (fun t : Z =>
                                   (t, @Pending (option TitleData.t))) b)
                                 ++ concat rest)).
           { rewrite map_map. simpl. rewrite map_id. exact Hndrest. }
           destruct (IH w1 _ _ _ w' Hat1 Hnd1 Hrun)
             as (Hdata & settles & tr & ext & Hlog & Hp & Hb & Hext).
           split.
           ++ intros Hfin. rewrite (Hdata Hfin), Hvalid, expected_pending.
              simpl concat. rewrite omap_app, <- !app_assoc. reflexivity.
           ++ exists [Done t], (map Start b ++ settles ++ tr), ext.
              split; [|split; [|split; [|assumption]]].
              ** rewrite Hlog. subst w1. simpl.
                 rewrite !fetch_events_app, fetch_events_sent, <- !app_assoc.
                 reflexivity.
              ** rewrite Hperm. reflexivity.
              ** constructor; [|assumption].
                 now rewrite pending_titles_pending in Hp.
      * assert (Hat1 : bulk_at tid w1 acc ps' rest)
          by (apply (bulk_at_insert tid w acc ps rest); [assumption | now subst w1]).
        assert (Hnd1 : NoDup (map fst ps' ++ concat rest)) by now rewrite Hfst.
        destruct (IH w1 _ _ _ w' Hat1 Hnd1 Hrun)
          as (Hdata & settles & tr & ext & Hlog & Hp & Hb & Hext).
        split; [exact Hdata|].
        exists (Done t :: settles), tr, ext. split; [|split; [|split; assumption]].
        -- rewrite Hlog. subst w1. simpl. rewrite fetch_events_app, <- app_assoc.
           reflexivity.
        -- rewrite Hperm. simpl. now constructor.
    + assert (Ht : exists t, tasks w !! tid' = Some t).
      { unfold deliver in Hd. destruct (tasks w !! tid'); [eauto | discriminate]. }
      destruct Ht as [t Ht].
      assert (Hct : calm_task t) by (destruct Hat as [_ Ho]; now apply (Ho tid')).
      destruct (deliver_calm _ _ _ _ _ Ht Hct Hd) as (Htasks & Hdata1 & Hlog1 & Hrep).
      assert (Hat1 : bulk_at tid w1 acc ps rest)
        by now apply (bulk_at_other tid w acc ps rest w1 tid').
      destruct (IH w1 _ _ _ w' Hat1 Hnd Hrun)
        as (Hdata & settles & tr & ext & Hlog & Hp & Hb & Hext).
      rewrite (expected_ext _ evs ps) by (intros; apply Hrep).
      rewrite (omap_result_for_ext _ evs) by (intros; apply Hrep).
      split; [exact Hdata|].
      exists settles, tr, ext. rewrite <- Hlog1. now repeat split.
Qed.

Lemma started_starts b : started (map Start b) = b.
Proof.
  induction b as [|t b IH]; [reflexivity|].
  unfold started in *. cbn [map omap list_omap]. now rewrite IH.
Qed.

Lemma started_settles settles b :
  Permutation settles (map Done b) -> started settles = [].
Proof.
  intros Hperm.
  assert (Hdone : Forall (fun e => exists t, e = Done t) settles).
  { apply Forall_forall. intros e He.
    apply list_elem_of_In, (Permutation_in _ Hperm), in_map_iff in He as (t & <- & _).
    now exists t. }
  clear Hperm. induction Hdone as [|e l [t ->] _ IHl]; [reflexivity|].
  unfold started in *. cbn [omap list_omap]. now rewrite IHl.
Qed.

Lemma started_app l1 l2 : started (l1 ++ l2) = started l1 ++ started l2.
Proof. apply omap_app. Qed.

Lemma batched_started bs tr : batched bs tr -> started tr = concat bs.
Proof.
  induction 1 as [|b bs settles tr Hperm _ IH]; [reflexivity|].
  rewrite !started_app, IH, started_starts, (started_settles settles b Hperm).
  reflexivity.
Qed.

Lemma loadTitleData_bulk a obj w0 :
  store w0 !! a = Some obj -> cfr_references obj <> [] -> calm w0 ->
  exists b rest,
    make_batches (Set_from (map CFRReference.title (cfr_references obj))) = b :: rest /\
    bulk_at (length (tasks w0)) (loadTitleData a w0) []
            (map (fun t => (t, Pending)) b) rest /\
    log (loadTitleData a w0)
    = log w0 ++ map (fun t => Sent (length (tasks w0)) (GetWordCount t)) b.
Proof.
  intros Ha Hrefs Hq. unfold loadTitleData. rewrite Ha.
  destruct (cfr_references obj) as [|ref refs]; [congruence|].
  cbn [map]. rewrite Set_from_cons, make_batches_cons.
  eexists. eexists. split; [reflexivity|]. split; [|reflexivity].
  unfold bulk_at. simpl. rewrite insert_snoc. split.
  - apply list_lookup_middle. reflexivity.
  - intros j t Hj Hne. apply lookup_app_Some in Hj as [Hj | [Hlen Hj]].
    + unfold calm in Hq. rewrite Forall_forall in Hq. apply Hq.
      now apply list_elem_of_lookup_2 in Hj.
    + destruct (j - length (tasks w0)) as [|n] eqn:E; [lia | discriminate].
Qed.

Lemma fulfil_pending t v ps :
  In t (pending_titles ps) -> exists ps', fulfil t v ps = Some ps'.
Proof.
  induction ps as [|[t0 p] ps IH]; simpl; [contradiction|].
  destruct p as [|v0]; simpl.
  - intros [->|Hin].
    + rewrite Z.eqb_refl. eauto.
    + destruct (Z.eqb t0 t); [eauto|].
      destruct (IH Hin) as [ps' ->]. simpl. eauto.
  - intros Hin. destruct (IH Hin) as [ps' ->]. simpl. eauto.
Qed.

Lemma result_for_fetched evs t :
  result_for evs t
  = if fetched evs t
    then option_map (fun td => TitleData.mk t (TitleData.wordCount td)
                                 (TitleData.lastUpdated td)) (result_for evs t)
    else None.
Proof.
  unfold result_for, fetched. destruct (reply_for t evs) as [[r now]|]; [|reflexivity].
  destruct r as [[response|]|]; simpl; try reflexivity.
  now destruct (truthy_number _).
Qed.

Lemma fetched_result evs t : fetched evs t = true -> exists td, result_for evs t = Some td.
Proof.
  unfold result_for, fetched. destruct (reply_for t evs) as [[r now]|]; [|discriminate].
  destruct r as [[response|]|]; simpl; try discriminate.
  destruct (truthy_number _); [eauto | discriminate].
Qed.

Lemma titles_of_results evs l :
  map TitleData.title (omap (result_for evs) l) = List.filter (fetched evs) l.
Proof.
  induction l as [|t l IH]; [reflexivity|]. cbn [omap list_omap List.filter].
  rewrite result_for_fetched. destruct (fetched evs t) eqn:Hf; [|assumption].
  destruct (fetched_result evs t Hf) as [td ->]. simpl. now rewrite IH.
Qed.

Lemma all_fulfilled_None ps : all_fulfilled ps = None -> pending_titles ps <> [].
Proof.
  induction ps as [|[t p] ps IH]; simpl; [discriminate|].
  destruct p as [|v]; [discriminate|].
  destruct (all_fulfilled ps); [discriminate|]. intros _. now apply IH.
Qed.

(** A batched load that has not finished is waiting for at least one
    response: it never stalls between two batches. *)
Lemma bulk_run_live tid evs : forall w acc ps rest w',
  bulk_at tid w acc ps rest ->
  pending_titles ps <> [] -> Forall (fun b => b <> []) rest ->
  run w evs = Some w' ->
  tasks w' !! tid = Some Finished \/
  exists b, tasks w' !! tid = Some (AwaitBatch b) /\
            pending_titles (batchPromises b) <> [].
Proof.
  induction evs as [|[tid' resp] evs IH]; intros w acc ps rest w' Hat Hp Hrest; simpl.
  - intros [= <-]. right. destruct Hat as [Htid _]. eauto.
  - destruct (deliver tid' resp w) as [w1|] eqn:Hd; [|discriminate].
    intros Hrun.
    destruct (decide (tid' = tid)) as [->|Hne].
    + destruct (deliver_bulk _ _ _ _ _ _ _ Hat Hd)
        as (t & r & now & ps' & -> & Hful & Hw1).
      destruct (all_fulfilled ps') as [rs|] eqn:Hall.
      * destruct rest as [|b rest].
        -- destruct (bulk_at_finish tid w acc ps [] w1 Hat) as [Hcalm Hfin1];
             [now subst w1|].
           left. now apply (calm_run tid evs w1 w').
        -- apply Forall_cons in Hrest as [Hb Hrest].
           apply (IH w1 (acc ++ validResults rs) (map (fun t => (t, Pending)) b) rest);
             try assumption.
           ++ apply (bulk_at_insert tid w acc ps (b :: rest)); [assumption | now subst w1].
           ++ now rewrite pending_titles_pending.
      * apply (IH w1 acc ps' rest); try assumption.
        -- apply (bulk_at_insert tid w acc ps rest); [assumption | now subst w1].
        -- now apply all_fulfilled_None.
    + assert (Ht : exists t, tasks w !! tid' = Some t).
      { unfold deliver in Hd. destruct (tasks w !! tid'); [eauto | discriminate]. }
      destruct Ht as [t Ht].
      assert (Hct : calm_task t) by (destruct Hat as [_ Ho]; now apply (Ho tid')).
      destruct (deliver_calm _ _ _ _ _ Ht Hct Hd) as (Htasks & _).
      apply (IH w1 acc ps rest); try assumption.
      now apply (bulk_at_other tid w acc ps rest w1 tid').
Qed.

(** ** Selecting an agency: when the collections are replaced *)

Lemma loadTitleData_final a obj w0 evs w' :
  store w0 !! a = Some obj -> cfr_references obj <> [] -> calm w0 ->
  run (loadTitleData a w0) evs = Some w' ->
  tasks w' !! length (tasks w0) = Some Finished ->
  titleData (signals w')
  = omap (result_for evs) (Set_from (map CFRReference.title (cfr_references obj))).
Proof.
  intros Ha Hrefs Hq Hrun Hfin.
  destruct (loadTitleData_bulk a obj w0 Ha Hrefs Hq) as (b & rest & HB & Hat & Hlog).
  assert (Hcat : b ++ concat rest
                 = Set_from (map CFRReference.title (cfr_references obj))).
  { change (b ++ concat rest) with (concat (b :: rest)). rewrite <- HB.
    apply make_batches_concat. }
  assert (Hnd : NoDup (map fst (map (fun t : Z => (t, @Pending (option TitleData.t))) b)
                       ++ concat rest)).
  { rewrite map_map. simpl. rewrite map_id, Hcat. apply Set_from_NoDup. }
  destruct (bulk_run _ evs _ _ _ _ w' Hat Hnd Hrun) as (Hdata & _).
  rewrite (Hdata Hfin), expected_pending. simpl.
  now rewrite <- omap_app, Hcat.
Qed.

Lemma deliver_collections tid resp w w' :
  deliver tid resp w = Some w' ->
  match resp with
  | HistoryReply r =>
      selectedAgencyHistory (signals w') = data_or_empty r /\
      selectedAgencyChanges (signals w') = selectedAgencyChanges (signals w)
  | ChangesReply r =>
      selectedAgencyHistory (signals w') = selectedAgencyHistory (signals w) /\
      selectedAgencyChanges (signals w') = data_or_empty r
  | WordCountReply _ _ _ =>
      selectedAgencyHistory (signals w') = selectedAgencyHistory (signals w) /\
      selectedAgencyChanges (signals w') = selectedAgencyChanges (signals w)
  end.
Proof.
  unfold deliver. destruct (tasks w !! tid) as [t|]; [|discriminate].
  destruct t as [| | |b|title], resp as [r|r|title' r now]; try discriminate.
  - intros [= <-]. now split.
  - intros [= <-]. now split.
  - destruct (fulfil title' _ _) as [ps|]; [|discriminate].
    destruct (all_fulfilled ps) as [rs|]; intros [= <-]; [|now split].
    destruct (batches b); now split.
  - destruct (Z.eqb title title'); [|discriminate]. intros [= <-]. simpl.
    destruct r as [[response|]|]; simpl; try now split.
    destruct (truthy_number _); now split.
Qed.

Lemma run_collections evs : forall w w',
  run w evs = Some w' ->
  selectedAgencyHistory (signals w')
  = match last_history evs with
    | Some r => data_or_empty r
    | None => selectedAgencyHistory (signals w)
    end /\
  selectedAgencyChanges (signals w')
  = match last_changes evs with
    | Some r => data_or_empty r
    | None => selectedAgencyChanges (signals w)
    end.
Proof.
  induction evs as [|[tid resp] evs IH]; intros w w'; simpl.
  - intros [= <-]. now split.
  - destruct (deliver tid resp w) as [w1|] eqn:Hd; [|discriminate]. intros Hrun.
    destruct (IH _ _ Hrun) as [Hh Hc]. apply deliver_collections in Hd.
    split.
    + rewrite Hh. destruct (last_history evs); [reflexivity|].
      destruct resp; tauto.
    + rewrite Hc. destruct (last_changes evs); [reflexivity|].
      destruct resp; tauto.
Qed.

Lemma calm_run_data evs : forall w w',
  calm w -> run w evs = Some w' -> titleData (signals w') = titleData (signals w).
Proof.
  induction evs as [|[tid resp] evs IH]; intros w w' Hcalm; simpl.
  - now intros [= <-].
  - destruct (deliver tid resp w) as [w1|] eqn:Hd; [|discriminate]. intros Hrun.
    assert (Ht : exists t, tasks w !! tid = Some t).
    { unfold deliver in Hd. destruct (tasks w !! tid); [eauto | discriminate]. }
    destruct Ht as [t Ht].
    assert (Hct : calm_task t).
    { unfold calm in Hcalm. rewrite Forall_forall in Hcalm. apply Hcalm.
      now apply list_elem_of_lookup_2 in Ht. }
    destruct (deliver_calm _ _ _ _ _ Ht Hct Hd) as (Htasks & Hdata & _).
    rewrite <- Hdata. apply IH; [|assumption].
    unfold calm. rewrite Htasks. apply Forall_insert; [assumption | now left].
Qed.

(** A batched load writes [titleData] at its end only. *)
Lemma bulk_run_keeps tid evs : forall w acc ps rest w',
  bulk_at tid w acc ps rest -> run w evs = Some w' ->
  tasks w' !! tid <> Some Finished ->
  titleData (signals w') = titleData (signals w).
Proof.
  induction evs as [|[tid' resp] evs IH]; intros w acc ps rest w' Hat; simpl.
  - now intros [= <-].
  - destruct (deliver tid' resp w) as [w1|] eqn:Hd; [|discriminate].
    intros Hrun Hnot.
    destruct (decide (tid' = tid)) as [->|Hne].
    + destruct (deliver_bulk _ _ _ _ _ _ _ Hat Hd)
        as (t & r & now & ps' & -> & Hful & Hw1).
      destruct (all_fulfilled ps') as [rs|] eqn:Hall.
      * destruct rest as [|b0 rest].
        -- destruct (bulk_at_finish tid w acc ps [] w1 Hat) as [Hcalm Hfin1];
             [now subst w1|].
           destruct (calm_run tid evs w1 w' Hcalm Hrun Hfin1) as (_ & _ & Hf).
           contradiction.
        -- rewrite (IH w1 (acc ++ validResults rs) (map (fun t => (t, Pending)) b0) rest w');
             try assumption; [now subst w1|].
           apply (bulk_at_insert tid w acc ps (b0 :: rest)); [assumption | now subst w1].
      * rewrite (IH w1 acc ps' rest w'); try assumption; [now subst w1|].
        apply (bulk_at_insert tid w acc ps rest); [assumption | now subst w1].
    + assert (Ht : exists t, tasks w !! tid' = Some t).
      { unfold deliver in Hd. destruct (tasks w !! tid'); [eauto | discriminate]. }
      destruct Ht as [t Ht].
      assert (Hct : calm_task t) by (destruct Hat as [_ Ho]; now apply (Ho tid')).
      destruct (deliver_calm _ _ _ _ _ Ht Hct Hd) as (Htasks & Hdata & _).
      rewrite <- Hdata. apply (IH w1 acc ps rest); try assumption.
      now apply (bulk_at_other tid w acc ps rest w1 tid').
Qed.

(** [selectAgency] is the batched load started once the two signals are
    set and the history and changes requests are on their way. *)
Lemma selectAgency_started a obj w :
  store w !! a = Some obj ->
  exists w2,
    selectAgency a w = loadTitleData a w2 /\
    store w2 !! a = Some obj /\
    tasks w2 = tasks w ++ [AwaitHistory; AwaitChanges] /\
    titleData (signals w2) = titleData (signals w).
Proof.
  intros Ha. eexists. split; [reflexivity|].
  unfold loadAgencyChanges, loadAgencyHistory. simpl. rewrite Ha. simpl. rewrite Ha.
  simpl. split; [exact Ha|]. split; [|reflexivity]. now rewrite <- app_assoc.
Qed.

(** C2, amended: [selectAgency(a)] sets [selectedAgency] to [a] and clears
    [selectedTitle] before it waits; the history and the changes keep their
    previous content at that point, and so does [titleData] unless the
    agency has no CFR reference, in which case it is emptied at once.  A
    collection is replaced only when its own load settles.  After any
    responses, in any order, the history is what the last history response
    brought (its data, or the empty list for a null body or a failure) and
    is the previous history as long as none has arrived; the same holds of
    the changes; and, no other word-count request being in flight,
    [titleData] is the previous one until the batched load has finished and
    is then made of the results of the responses.  Hence, started from a
    service at rest, if every response is a failure then, in whatever order
    the failures arrive, all three collections are empty once no load is
    left waiting. *)
Theorem selectAgency_clears_when_loads_settle a obj w :
  store w !! a = Some obj ->
  let w1 := selectAgency a w in
  let tid := length (tasks w) + 2 in
  let uniqueTitles := Set_from (map CFRReference.title (cfr_references obj)) in
  selectedAgency (signals w1) = Some a /\
  selectedTitle (signals w1) = None /\
  selectedAgencyHistory (signals w1) = selectedAgencyHistory (signals w) /\
  selectedAgencyChanges (signals w1) = selectedAgencyChanges (signals w) /\
  titleData (signals w1)
  = match cfr_references obj with [] => [] | _ :: _ => titleData (signals w) end /\
  (forall evs w', run w1 evs = Some w' ->
     selectedAgencyHistory (signals w')
     = match last_history evs with
       | None => selectedAgencyHistory (signals w)
       | Some (Ok (Some data)) => data
       | Some (Ok None) => []
       | Some Failed => []
       end /\
     selectedAgencyChanges (signals w')
     = match last_changes evs with
       | None => selectedAgencyChanges (signals w)
       | Some (Ok (Some data)) => data
       | Some (Ok None) => []
       | Some Failed => []
       end /\
     (calm w ->
      (cfr_references obj = [] -> titleData (signals w') = []) /\
      (cfr_references obj <> [] -> tasks w' !! tid <> Some Finished ->
       titleData (signals w') = titleData (signals w)) /\
      (cfr_references obj <> [] -> tasks w' !! tid = Some Finished ->
       titleData (signals w') = omap (result_for evs) uniqueTitles))) /\
  (quiescent w ->
   forall evs w', forallb failure evs = true -> run w1 evs = Some w' ->
     quiescent w' -> collections_cleared (signals w')).
Proof.
  intros Ha w1 tid uniqueTitles.
  assert (Hsig : signals w1
                 = match cfr_references obj with
                   | [] => set_titleData [] | _ :: _ => fun s => s
                   end (set_selectedTitle None (set_selectedAgency (Some a) (signals w)))).
  { unfold w1, selectAgency, loadAgencyHistory, loadAgencyChanges, loadTitleData.
    simpl. rewrite Ha. simpl. rewrite Ha. simpl. rewrite Ha.
    destruct (cfr_references obj) as [|ref refs]; [reflexivity|].
    cbn [map]. rewrite Set_from_cons, make_batches_cons. reflexivity. }
  assert (Hhist : selectedAgencyHistory (signals w1) = selectedAgencyHistory (signals w))
    by (rewrite Hsig; destruct (cfr_references obj); reflexivity).
  assert (Hchan : selectedAgencyChanges (signals w1) = selectedAgencyChanges (signals w))
    by (rewrite Hsig; destruct (cfr_references obj); reflexivity).
  split; [rewrite Hsig; destruct (cfr_references obj); reflexivity|].
  split; [rewrite Hsig; destruct (cfr_references obj); reflexivity|].
  split; [exact Hhist|]. split; [exact Hchan|].
  split; [rewrite Hsig; destruct (cfr_references obj); reflexivity|].
  split.
  - intros evs w' Hrun.
    destruct (run_collections evs w1 w' Hrun) as [Hh Hc].
    split; [|split].
    + rewrite Hh, Hhist. now destruct (last_history evs) as [[[data|]|]|].
    + rewrite Hc, Hchan. now destruct (last_changes evs) as [[[data|]|]|].
    + intros Hcalm.
      destruct (selectAgency_started a obj w Ha) as (w2 & Hw1 & Ha2 & Htasks2 & Hdata2).
      fold w1 in Hw1.
      assert (Hcalm2 : calm w2).
      { unfold calm. rewrite Htasks2. apply Forall_app_2; [exact Hcalm|].
        constructor; [right; now left|]. constructor; [right; now right | constructor]. }
      assert (Hlen2 : length (tasks w2) = tid).
      { rewrite Htasks2, length_app. reflexivity. }
      split; [|split].
      * intros Hnone. rewrite Hw1 in Hrun. unfold loadTitleData in Hrun.
        rewrite Ha2, Hnone in Hrun.
        now rewrite (calm_run_data evs (upd_signals (set_titleData []) w2) w' Hcalm2 Hrun).
      * intros Hrefs Hnot. rewrite <- Hdata2. rewrite Hw1 in Hrun.
        destruct (loadTitleData_bulk a obj w2 Ha2 Hrefs Hcalm2)
          as (b & rest & HB & Hat & Hlog).
        rewrite Hlen2 in Hat.
        rewrite (bulk_run_keeps tid evs _ _ _ _ w' Hat Hrun Hnot).
        unfold loadTitleData. rewrite Ha2.
        destruct (cfr_references obj) as [|ref refs]; [congruence|].
        cbn [map]. rewrite Set_from_cons, make_batches_cons. reflexivity.
      * intros Hrefs Hfin. rewrite Hw1 in Hrun. rewrite <- Hlen2 in Hfin.
        exact (loadTitleData_final a obj w2 evs w' Ha2 Hrefs Hcalm2 Hrun Hfin).
  - intros Hq evs w' Hfail Hrun Hq'.
    apply (failing_inv_quiescent w'); [|assumption].
    apply (failing_inv_run evs w1 w'); try assumption.
    now apply (selectAgency_failing_inv a obj).
Qed.

Lemma selectAgency_all_fetches_fail :
  let w1 := selectAgency 2 loaded_world in
  let evs := [(2, WordCountReply 7 Failed "now"); (0, HistoryReply Failed);
              (1, ChangesReply Failed)] in
  let newer := [(1, ChangesReply (Ok (Some [TitleChange.mk "2024-06-30" 1 [] 1])))] in
  selectedAgency (signals w1) = Some 2 /\ selectedTitle (signals w1) = None /\
  (exists w', run w1 evs = Some w' /\ collections_cleared (signals w')) /\
  (exists w',
     run w1 newer = Some w' /\
     selectedAgencyChanges (signals w') = [TitleChange.mk "2024-06-30" 1 [] 1] /\
     selectedAgencyHistory (signals w') = [HistoricalData.mk "2024-01-01" 600] /\
     titleData (signals w') = loaded_titles).
Proof.
  intros w1 evs newer.
  destruct (selectAgency_clears_when_loads_settle 2 (agency_of "Beta Office" [] [7%Z])
              loaded_world eq_refl) as (Hsel & Htitle & _ & _ & _ & Hlater & Hfail).
  split; [exact Hsel|]. split; [exact Htitle|]. split.
  - destruct (run w1 evs) as [w'|] eqn:Hrun; [|vm_compute in Hrun; discriminate].
    exists w'. split; [reflexivity|].
    apply (Hfail (List.Forall_nil _) evs w' eq_refl Hrun).
    vm_compute in Hrun. injection Hrun as <-. repeat constructor.
  - destruct (run w1 newer) as [w'|] eqn:Hrun; [|vm_compute in Hrun; discriminate].
    destruct (Hlater newer w' Hrun) as (Hh & Hc & Hdata).
    destruct (Hdata (List.Forall_nil _)) as (_ & Hkeep & _).
    exists w'. split; [reflexivity|]. split; [exact Hc|]. split; [exact Hh|].
    apply Hkeep; [discriminate|].
    vm_compute in Hrun. injection Hrun as <-. discriminate.
Defined.

(** C7: [loadTitleData] fetches the distinct titles of the agency, each
    once: the titles are deduplicated, cut in order into batches of one to
    five, and in every run the word-count traffic is the beginning of a
    trace in which a batch is sent whole, then settles whole, before the
    next batch is sent; when the load has finished, the requests sent are
    exactly the distinct titles.  The load is started while no other
    word-count request is in flight; the history and the changes loads of
    [selectAgency] may be, and may settle at any point of the run. *)
Theorem loadTitleData_batches_run_in_sequence a obj w0 :
  store w0 !! a = Some obj -> cfr_references obj <> [] -> calm w0 ->
  let uniqueTitles := Set_from (map CFRReference.title (cfr_references obj)) in
  let tid := length (tasks w0) in
  NoDup uniqueTitles /\
  (forall t, In t uniqueTitles <-> In t (map CFRReference.title (cfr_references obj))) /\
  concat (make_batches uniqueTitles) = uniqueTitles /\
  Forall (fun b => 0 < length b <= 5) (make_batches uniqueTitles) /\
  forall evs w',
    run (loadTitleData a w0) evs = Some w' ->
    exists tr ext,
      fetch_events (log w') ++ ext = fetch_events (log w0) ++ tr /\
      batched (make_batches uniqueTitles) tr /\
      (tasks w' !! tid = Some Finished -> ext = [] /\ started tr = uniqueTitles).
Proof.
  intros Ha Hrefs Hq uniqueTitles tid.
  split; [apply Set_from_NoDup|]. split; [apply Set_from_In|].
  split; [apply make_batches_concat|]. split; [apply make_batches_sizes|].
  intros evs w' Hrun.
  destruct (loadTitleData_bulk a obj w0 Ha Hrefs Hq) as (b & rest & HB & Hat & Hlog).
  fold uniqueTitles in HB. fold tid in Hat, Hlog.
  assert (Hnd : NoDup (map fst (map (fun t : Z => (t, @Pending (option TitleData.t))) b)
                       ++ concat rest)).
  { rewrite map_map. simpl. rewrite map_id.
    change (NoDup (concat (b :: rest))). rewrite <- HB, make_batches_concat.
    apply Set_from_NoDup. }
  destruct (bulk_run tid evs _ _ _ _ w' Hat Hnd Hrun)
    as (_ & settles & tr & ext & Htrace & Hperm & Hb & Hext).
  rewrite pending_titles_pending in Hperm.
  exists (map Start b ++ settles ++ tr), ext. split; [|split].
  - rewrite Htrace, Hlog, fetch_events_app, fetch_events_sent, <- !app_assoc.
    reflexivity.
  - rewrite HB. now constructor.
  - intros Hfin. split; [now apply Hext|].
    rewrite (batched_started (b :: rest)); [|now constructor].
    rewrite <- HB. apply make_batches_concat.
Qed.

Lemma fulfil_pending_length t v ps : forall ps',
  fulfil t v ps = Some ps' ->
  length (pending_titles ps) = S (length (pending_titles ps')).
Proof.
  unfold pending_titles.
  induction ps as [|[t0 p] ps IH]; intros ps'; simpl; [discriminate|].
  destruct p as [|v0].
  - destruct (Z.eqb t0 t); [now intros [= <-]|].
    destruct (fulfil t v ps) as [ps0|]; [|discriminate].
    intros [= <-]. simpl. now rewrite (IH ps0).
  - destruct (fulfil t v ps) as [ps0|]; [|discriminate].
    intros [= <-]. simpl. now apply IH.
Qed.

(** A load that has finished takes no further response. *)
Lemma calm_run_answers tid evs : forall w w',
  calm w -> run w evs = Some w' -> tasks w !! tid = Some Finished ->
  answers tid evs = 0.
Proof.
  induction evs as [|[tid' resp] evs IH]; intros w w' Hcalm; [reflexivity|]. simpl.
  destruct (deliver tid' resp w) as [w1|] eqn:Hd; [|discriminate].
  intros Hrun Hfin.
  assert (Hne : tid' <> tid).
  { intros ->. unfold deliver in Hd. rewrite Hfin in Hd. discriminate. }
  assert (Ht : exists t, tasks w !! tid' = Some t).
  { unfold deliver in Hd. destruct (tasks w !! tid'); [eauto | discriminate]. }
  destruct Ht as [t Ht].
  assert (Hct : calm_task t).
  { unfold calm in Hcalm. rewrite Forall_forall in Hcalm. apply Hcalm.
    now apply list_elem_of_lookup_2 in Ht. }
  destruct (deliver_calm _ _ _ _ _ Ht Hct Hd) as (Htasks & _).
  unfold answers. simpl. destruct (Nat.eqb_spec tid' tid); [contradiction|].
  apply (IH w1 w'); [|assumption|].
  - unfold calm. rewrite Htasks. apply Forall_insert; [assumption | now left].
  - rewrite Htasks. now rewrite list_lookup_insert_ne.
Qed.

(** Every response taken by a batched load settles one title: the load
    has finished exactly when it has taken as many responses as there were
    titles left. *)
Lemma bulk_run_answers tid evs : forall w acc ps rest w',
  bulk_at tid w acc ps rest ->
  pending_titles ps <> [] -> Forall (fun b => b <> []) rest ->
  run w evs = Some w' ->
  (tasks w' !! tid = Some Finished /\
   answers tid evs = length (pending_titles ps) + length (concat rest)) \/
  (exists b, tasks w' !! tid = Some (AwaitBatch b) /\
             answers tid evs < length (pending_titles ps) + length (concat rest)).
Proof.
  induction evs as [|[tid' resp] evs IH]; intros w acc ps rest w' Hat Hp Hrest; simpl.
  - intros [= <-]. right. destruct Hat as [Htid _]. eexists. split; [eassumption|].
    unfold answers. simpl. destruct (pending_titles ps); [congruence | simpl; lia].
  - destruct (deliver tid' resp w) as [w1|] eqn:Hd; [|discriminate].
    intros Hrun. unfold answers. simpl. fold (answers tid evs).
    destruct (decide (tid' = tid)) as [->|Hne].
    + rewrite Nat.eqb_refl. simpl. fold (answers tid evs).
      destruct (deliver_bulk _ _ _ _ _ _ _ Hat Hd)
        as (t & r & now & ps' & -> & Hful & Hw1).
      pose proof (fulfil_pending_length _ _ _ _ Hful) as Hlen.
      destruct (all_fulfilled ps') as [rs|] eqn:Hall.
      * destruct (all_fulfilled_spec [] ps' rs Hall) as [_ Hnone].
        rewrite Hnone in Hlen. simpl in Hlen.
        destruct rest as [|b0 rest].
        -- destruct (bulk_at_finish tid w acc ps [] w1 Hat) as [Hcalm Hfin1];
             [now subst w1|].
           left. split; [now apply (calm_run tid evs w1 w')|].
           rewrite (calm_run_answers tid evs w1 w' Hcalm Hrun Hfin1), Hlen.
           reflexivity.
        -- apply Forall_cons in Hrest as [Hb0 Hrest].
           assert (Hat1 : bulk_at tid w1 (acc ++ validResults rs)
                                  (map (fun t => (t, Pending)) b0) rest)
             by (apply (bulk_at_insert tid w acc ps (b0 :: rest));
                 [assumption | now subst w1]).
           assert (Hp1 : pending_titles (map (fun t : Z =>
                           (t, @Pending (option TitleData.t))) b0) <> [])
             by now rewrite pending_titles_pending.
           destruct (IH w1 _ _ _ w' Hat1 Hp1 Hrest Hrun) as [[Hfin Hk] | (b & Hb & Hk)];
             rewrite pending_titles_pending in Hk; simpl concat;
             rewrite length_app, Hlen; [left | right; exists b]; (split; [assumption | lia]).
      * assert (Hat1 : bulk_at tid w1 acc ps' rest)
          by (apply (bulk_at_insert tid w acc ps rest); [assumption | now subst w1]).
        pose proof (all_fulfilled_None _ Hall) as Hp1.
        destruct (IH w1 _ _ _ w' Hat1 Hp1 Hrest Hrun) as [[Hfin Hk] | (b & Hb & Hk)];
          rewrite Hlen; [left | right; exists b]; (split; [assumption | lia]).
    + destruct (Nat.eqb_spec tid' tid); [contradiction|].
      assert (Ht : exists t, tasks w !! tid' = Some t).
      { unfold deliver in Hd. destruct (tasks w !! tid'); [eauto | discriminate]. }
      destruct Ht as [t Ht].
      assert (Hct : calm_task t) by (destruct Hat as [_ Ho]; now apply (Ho tid')).
      destruct (deliver_calm _ _ _ _ _ Ht Hct Hd) as (Htasks & _).
      apply (IH w1 acc ps rest); try assumption.
      now apply (bulk_at_other tid w acc ps rest w1 tid').
Qed.

Lemma result_for_Some evs t td :
  result_for evs t = Some td <->
  exists response now n,
    reply_for t evs = Some (Ok (Some response), now) /\
    TitleWordCountResponse.word_count response = Some n /\ n <> 0%Z /\
    td = TitleData.mk t n (date_or_now (TitleWordCountResponse.date response) now).
Proof.
  unfold result_for. destruct (reply_for t evs) as [[r now]|].
  2: { split; [discriminate|]. intros (? & ? & ? & H & _). discriminate. }
  destruct r as [[response|]|]; simpl.
  - destruct (TitleWordCountResponse.word_count response) as [n|] eqn:Hn; simpl.
    + destruct (Z.eqb_spec n 0) as [->|Hne].
      * split; [discriminate|].
        intros (response' & now' & n' & [= <- <-] & Hn' & Hne' & _). congruence.
      * split.
        -- intros [= <-]. exists response, now, n. auto.
        -- intros (response' & now' & n' & [= <- <-] & Hn' & _ & ->).
           rewrite Hn in Hn'. now injection Hn' as <-.
    + split; [discriminate|].
      intros (response' & now' & n' & [= <- <-] & Hn' & _). congruence.
  - split; [discriminate|]. intros (? & ? & ? & H & _). discriminate.
  - split; [discriminate|]. intros (? & ? & ? & H & _). discriminate.
Qed.

Lemma In_omap_result_for evs (l : list Z) td :
  In td (omap (result_for evs) l) <-> exists t, In t l /\ result_for evs t = Some td.
Proof.
  rewrite <- list_elem_of_In, list_elem_of_omap.
  split; intros (t & Ht & E); exists t; (split; [now apply list_elem_of_In | assumption]).
Qed.

(** C8: a fetch that fails, or that brings no word count or a zero one,
    only leaves its title out: whatever the responses and the order in
    which they arrive, once the load has finished [titleData] holds, in the
    order of the distinct titles, one entry for every title whose response
    was usable and nothing else.  An entry is there exactly for a distinct
    title whose request was answered with a body whose [word_count] is a
    number other than zero, and it carries that number; a rejection, a null
    body, a body without [word_count] and a [word_count] of zero leave no
    entry.  Nothing aborts the load: as long as it has not finished it is
    waiting for some response, every response to a pending request,
    failures included, is taken by the continuation, and the load has
    finished exactly when it has taken one response for each distinct
    title. *)
Theorem loadTitleData_tolerates_failures a obj w0 :
  store w0 !! a = Some obj -> cfr_references obj <> [] -> calm w0 ->
  let uniqueTitles := Set_from (map CFRReference.title (cfr_references obj)) in
  let tid := length (tasks w0) in
  forall evs w',
    run (loadTitleData a w0) evs = Some w' ->
    (tasks w' !! tid = Some Finished ->
     titleData (signals w') = omap (result_for evs) uniqueTitles /\
     map TitleData.title (titleData (signals w'))
     = List.filter (fetched evs) uniqueTitles /\
     NoDup (map TitleData.title (titleData (signals w'))) /\
     (forall td, In td (titleData (signals w')) ->
        In (TitleData.title td) uniqueTitles /\
        TitleData.wordCount td <> 0%Z /\
        exists response now,
          reply_for (TitleData.title td) evs = Some (Ok (Some response), now) /\
          TitleWordCountResponse.word_count response = Some (TitleData.wordCount td) /\
          TitleData.lastUpdated td
          = date_or_now (TitleWordCountResponse.date response) now) /\
     (forall t response n now,
        In t uniqueTitles ->
        reply_for t evs = Some (Ok (Some response), now) ->
        TitleWordCountResponse.word_count response = Some n -> n <> 0%Z ->
        In (TitleData.mk t n (date_or_now (TitleWordCountResponse.date response) now))
           (titleData (signals w'))) /\
     (forall t,
        (exists now, reply_for t evs = Some (Failed, now)) \/
        (exists now, reply_for t evs = Some (Ok None, now)) \/
        (exists response now,
           reply_for t evs = Some (Ok (Some response), now) /\
           (TitleWordCountResponse.word_count response = None \/
            TitleWordCountResponse.word_count response = Some 0%Z)) ->
        ~ In t (map TitleData.title (titleData (signals w'))))) /\
    (tasks w' !! tid = Some Finished \/
     exists b, tasks w' !! tid = Some (AwaitBatch b) /\
               pending_titles (batchPromises b) <> [] /\
               forall t r now,
                 In t (pending_titles (batchPromises b)) ->
                 exists w'', deliver tid (WordCountReply t r now) w' = Some w'') /\
    answers tid evs <= length uniqueTitles /\
    (tasks w' !! tid = Some Finished <-> answers tid evs = length uniqueTitles).
Proof.
  intros Ha Hrefs Hq uniqueTitles tid evs w' Hrun.
  destruct (loadTitleData_bulk a obj w0 Ha Hrefs Hq) as (b & rest & HB & Hat & Hlog).
  fold uniqueTitles in HB. fold tid in Hat, Hlog.
  assert (Hsizes0 : Forall (fun b => 0 < length b <= 5) (b :: rest))
    by (rewrite <- HB; apply make_batches_sizes).
  apply Forall_cons in Hsizes0 as [Hb0 Hsizes0].
  assert (Hb0' : pending_titles (map (fun t : Z => (t, @Pending (option TitleData.t))) b)
                 <> []).
  { rewrite pending_titles_pending. intros ->. simpl in Hb0. lia. }
  assert (Hrest0 : Forall (fun b => b <> []) rest).
  { eapply Forall_impl; [exact Hsizes0|]. intros b1 Hb1 ->. simpl in Hb1. lia. }
  assert (Htotal : length (pending_titles (map (fun t : Z =>
                             (t, @Pending (option TitleData.t))) b))
                   + length (concat rest) = length uniqueTitles).
  { rewrite pending_titles_pending, <- length_app.
    change (b ++ concat rest) with (concat (b :: rest)).
    now rewrite <- HB, make_batches_concat. }
  split; [|split].
  3: { destruct (bulk_run_answers tid evs _ _ _ _ w' Hat Hb0' Hrest0 Hrun)
         as [[Hfin Hk] | (b1 & Hb1 & Hk)]; rewrite Htotal in Hk.
       - split; [lia|]. tauto.
       - split; [lia|]. split; [congruence | lia]. }
  - intros Hfin.
    assert (Hcat : b ++ concat rest = uniqueTitles).
    { change (concat (b :: rest) = uniqueTitles). rewrite <- HB.
      apply make_batches_concat. }
    assert (Hnd : NoDup (map fst (map (fun t : Z => (t, @Pending (option TitleData.t))) b)
                         ++ concat rest)).
    { rewrite map_map. simpl. rewrite map_id, Hcat. apply Set_from_NoDup. }
    destruct (bulk_run tid evs _ _ _ _ w' Hat Hnd Hrun) as (Hdata & _).
    assert (E : titleData (signals w') = omap (result_for evs) uniqueTitles).
    { rewrite (Hdata Hfin), expected_pending. simpl.
      now rewrite <- omap_app, Hcat. }
    assert (Hentry : forall td, In td (titleData (signals w')) ->
              In (TitleData.title td) uniqueTitles /\
              TitleData.wordCount td <> 0%Z /\
              exists response now,
                reply_for (TitleData.title td) evs = Some (Ok (Some response), now) /\
                TitleWordCountResponse.word_count response
                = Some (TitleData.wordCount td) /\
                TitleData.lastUpdated td
                = date_or_now (TitleWordCountResponse.date response) now).
    { intros td Htd. rewrite E in Htd.
      apply In_omap_result_for in Htd as (t & Ht & Hres).
      apply result_for_Some in Hres as (response & now & n & Hreply & Hn & Hne & ->).
      simpl. split; [assumption|]. split; [assumption|]. eauto. }
    split; [exact E|]. rewrite E at 1 2. rewrite titles_of_results.
    split; [reflexivity|].
    split; [apply NoDup_ListNoDup, List.NoDup_filter, NoDup_ListNoDup, Set_from_NoDup|].
    split; [exact Hentry|]. split.
    + intros t response n now Ht Hreply Hn Hne. rewrite E.
      apply In_omap_result_for. exists t. split; [assumption|].
      apply result_for_Some. exists response, now, n. auto.
    + intros t Hbad Hin. apply in_map_iff in Hin as (td & <- & Htd).
      destruct (Hentry td Htd) as (_ & Hne & response & now & Hreply & Hn & _).
      destruct Hbad as [[now' H] | [[now' H] | (response' & now' & H & [Hn' | Hn'])]];
        rewrite Hreply in H; try discriminate; injection H as <- <-; congruence.
  - destruct (bulk_run_live tid evs _ _ _ _ w' Hat Hb0' Hrest0 Hrun)
      as [Hfin | (b1 & Hb1 & Hp1)]; [now left | right].
    exists b1. split; [assumption|]. split; [assumption|].
    intros t r now Hin. unfold deliver. rewrite Hb1.
    destruct (fulfil_pending t (fetch_result t r now) _ Hin) as [ps' ->].
    destruct (all_fulfilled ps'); eauto.
Qed.

Lemma loadTitleData_batches_witness :
  Set_from [1; 1; 2; 3; 4; 5; 6]%Z = [1; 2; 3; 4; 5; 6]%Z /\
  make_batches [1; 2; 3; 4; 5; 6]%Z = [[1; 2; 3; 4; 5]; [6]]%Z /\
  exists w' tr,
    run (loadTitleData 0 seven_refs_world) five_fails = Some w' /\
    fetch_events (log w') = tr /\
    batched [[1; 2; 3; 4; 5]; [6]]%Z tr /\
    started tr = [1; 2; 3; 4; 5; 6]%Z.
Proof.
  split; [reflexivity|]. split; [reflexivity|].
  destruct (loadTitleData_batches_run_in_sequence 0
              (agency_of "Agency" [] [1; 1; 2; 3; 4; 5; 6]%Z) seven_refs_world
              eq_refl ltac:(discriminate) (List.Forall_nil _))
    as (_ & _ & _ & _ & Hruns).
  destruct (run (loadTitleData 0 seven_refs_world) five_fails) as [w'|] eqn:Hrun;
    [|vm_compute in Hrun; discriminate].
  destruct (Hruns five_fails w' Hrun) as (tr & ext & Htrace & Hb & Hfin).
  assert (Hdone : tasks w' !! 0 = Some Finished)
    by (vm_compute in Hrun; injection Hrun as <-; reflexivity).
  destruct (Hfin Hdone) as [-> Hstarted].
  exists w', tr. split; [reflexivity|].
  rewrite app_nil_r in Htrace. split; [exact Htrace|].
  split; [exact Hb | exact Hstarted].
Defined.

Lemma loadTitleData_tolerates_failures_witness :
  selectAgency 0 seven_refs_world = loadTitleData 0 seven_refs_selected /\
  (exists w',
     run (selectAgency 0 seven_refs_world) five_fails_selected = Some w' /\
     tasks w' !! 2 = Some Finished /\
     titleData (signals w')
     = [TitleData.mk 1 10 "2024-06-30"; TitleData.mk 2 20 "2024-06-30";
        TitleData.mk 3 30 "2024-06-30"; TitleData.mk 4 40 "2024-06-30";
        TitleData.mk 6 60 "now"]) /\
  (exists w',
     run (selectAgency 0 seven_refs_world) unusable_replies = Some w' /\
     tasks w' !! 2 = Some Finished /\
     titleData (signals w')
     = [TitleData.mk 1 10 "2024-06-30"; TitleData.mk 6 60 "now"] /\
     ~ In 2%Z (map TitleData.title (titleData (signals w'))) /\
     ~ In 3%Z (map TitleData.title (titleData (signals w'))) /\
     ~ In 4%Z (map TitleData.title (titleData (signals w'))) /\
     ~ In 5%Z (map TitleData.title (titleData (signals w')))).
Proof.
  split; [reflexivity|].
  change (selectAgency 0 seven_refs_world) with (loadTitleData 0 seven_refs_selected).
  assert (Hcalm : calm seven_refs_selected)
    by (unfold calm; simpl; constructor;
        [right; now left | constructor; [right; now right | constructor]]).
  pose proof (loadTitleData_tolerates_failures 0
                (agency_of "Agency" [] [1; 1; 2; 3; 4; 5; 6]%Z) seven_refs_selected
                eq_refl ltac:(discriminate) Hcalm) as Hload.
  split.
  - destruct (run (loadTitleData 0 seven_refs_selected) five_fails_selected)
      as [w'|] eqn:Hrun; [|vm_compute in Hrun; discriminate].
    assert (Hdone : tasks w' !! 2 = Some Finished)
      by (vm_compute in Hrun; injection Hrun as <-; reflexivity).
    destruct (Hload five_fails_selected w' Hrun) as (Hdata & _).
    destruct (Hdata Hdone) as (E & _).
    exists w'. split; [reflexivity|]. split; [exact Hdone|].
    rewrite E. reflexivity.
  - destruct (run (loadTitleData 0 seven_refs_selected) unusable_replies)
      as [w'|] eqn:Hrun; [|vm_compute in Hrun; discriminate].
    assert (Hdone : tasks w' !! 2 = Some Finished)
      by (vm_compute in Hrun; injection Hrun as <-; reflexivity).
    destruct (Hload unusable_replies w' Hrun) as (Hdata & _).
    destruct (Hdata Hdone) as (E & _ & _ & _ & _ & Hout).
    exists w'. split; [reflexivity|]. split; [exact Hdone|].
    split; [rewrite E; reflexivity|].
    split; [|split; [|split]]; apply Hout.
    + right. right. exists (TitleWordCountResponse.mk (Some 0%Z) (Some "2024-06-30")), "now".
      split; [reflexivity | now right].
    + right. right. exists (TitleWordCountResponse.mk None (Some "2024-06-30")), "now".
      split; [reflexivity | now left].
    + right. left. now exists "now".
    + left. now exists "now".
Defined.

(** * Further properties of the filter *)

Lemma filter_st_kept {S A} (R : S -> S -> Prop) (f : S -> A -> option (S * bool)) :
  (forall s, R s s) -> (forall s1 s2 s3, R s1 s2 -> R s2 s3 -> R s1 s3) ->
  (forall s x s' b, f s x = Some (s', b) -> R s s') ->
  forall l s s' r, filter_st f s l = Some (s', r) ->
    forall x, In x r -> exists s0 s1, R s s0 /\ f s0 x = Some (s1, true).
Proof.
  intros Hrefl Htrans Hf l. induction l as [|y l IH]; intros s s' r; simpl.
  - intros [= <- <-] x [].
  - destruct (f s y) as [[s1 b]|] eqn:Hy; [|discriminate].
    destruct (filter_st f s1 l) as [[s2 r']|] eqn:Hrest; [|discriminate].
    intros [= <- <-] x Hx.
    assert (Hlater : In x r' -> exists s0 s3, R s s0 /\ f s0 x = Some (s3, true)).
    { intros Hin. destruct (IH _ _ _ Hrest x Hin) as (s0 & s3 & HR & Hfx).
      exists s0, s3. split; [|assumption]. eapply Htrans; [eapply Hf|]; eassumption. }
    destruct b; [|now apply Hlater].
    destruct Hx as [<-|Hx]; [|now apply Hlater].
    exists s, s1. split; [apply Hrefl | assumption].
Qed.

Lemma visit_shrinks q n (h : gmap loc Agency) a h' b :
  visit (fun h0 l => searchAgencies n h0 l q) q h a = Some (h', b) -> shrinks h h'.
Proof.
  unfold visit.
  destruct (h !! a) as [obj|] eqn:Ha; [|intros [= <- <-]; apply shrinks_refl].
  destruct (matches obj q); [intros [= <- <-]; apply shrinks_refl|].
  destruct (searchAgencies n h (children obj) q) as [[h1 mc]|] eqn:Hrun;
    [|discriminate].
  destruct (searchAgencies_shrinks q n _ _ _ _ Hrun) as [Hsh Hsub].
  destruct (Nat.ltb 0 (length mc)); intros [= <- <-]; [|assumption].
  now apply (shrinks_alter _ _ _ obj).
Qed.

Lemma shrinks_is_Some (h h' : gmap loc Agency) a :
  shrinks h h' -> is_Some (h' !! a) -> is_Some (h !! a).
Proof.
  intros Hsh [obj' Ho]. specialize (Hsh a). rewrite Ho in Hsh.
  destruct (h !! a); [eauto | contradiction].
Qed.

(** X1: whatever the store and the recursion bound, a run of
    [searchAgencies] that returns hands back a subsequence of the array it
    was given, made of entries that are objects (null entries are dropped);
    it creates and deletes no object, and the only field it ever writes is
    [children], which it replaces by a subsequence of its former value. *)
Theorem filter_returns_subsequence_and_shortens_children
    fuel (h : gmap loc Agency) agencies q h' res :
  searchAgencies fuel h agencies q = Some (h', res) ->
  sublist res agencies /\
  (forall a, In a res -> is_Some (h !! a)) /\
  (forall a, is_Some (h' !! a) <-> is_Some (h !! a)) /\
  (forall a obj obj', h !! a = Some obj -> h' !! a = Some obj' ->
     obj' = set_children (children obj') obj /\
     sublist (children obj') (children obj)).
Proof.
  intros Hrun. destruct (searchAgencies_shrinks q fuel _ _ _ _ Hrun) as [Hsh Hsub].
  split; [exact Hsub|]. split; [|split].
  - destruct fuel as [|n]; [discriminate|]. simpl in Hrun.
    intros a Ha.
    destruct (filter_st_kept shrinks _ shrinks_refl shrinks_trans
                (visit_shrinks q n) _ _ _ _ Hrun a Ha) as (h0 & h1 & Hsh0 & Hv).
    apply (shrinks_is_Some h h0); [assumption|].
    unfold visit in Hv. destruct (h0 !! a); [eauto | discriminate].
  - intros a. specialize (Hsh a).
    destruct (h !! a), (h' !! a); try contradiction; split; eauto;
      intros [x Hx]; discriminate.
  - intros a obj obj' Ha Ha'. specialize (Hsh a). now rewrite Ha, Ha' in Hsh.
Qed.

Lemma filter_returns_subsequence_witness :
  exists h' res,
    searchAgencies 3 dept_store [0; 5] "40" = Some (h', res) /\
    sublist res [0; 5] /\
    (forall a, In a res -> is_Some (dept_store !! a)).
Proof.
  destruct (searchAgencies 3 dept_store [0; 5] "40") as [[h' res]|] eqn:Hrun;
    [|vm_compute in Hrun; discriminate].
  destruct (filter_returns_subsequence_and_shortens_children _ _ _ _ _ _ Hrun)
    as (Hsub & Hobj & _).
  exists h', res. now repeat split.
Defined.

Lemma desc_subtree (h : gmap loc Agency) a d :
  desc h a d -> forall t, repr h t -> root t = a ->
  exists s, subtree s t /\ root s = d.
Proof.
  induction 1 as [a obj c Ha Hc | a obj c d Ha Hc _ IH]; intros t Hr <-;
    inversion Hr as [a' obj' kids Ha' Hch Hkids]; subst; simpl in Ha;
    (assert (obj' = obj) as -> by congruence);
    rewrite Hch in Hc; apply in_map_iff in Hc as (k & <- & Hk);
    rewrite Forall_forall in Hkids;
    (assert (Hrk : repr h k) by (apply Hkids; now apply list_elem_of_In)).
  - exists k. split; [|reflexivity].
    apply (subtree_kid k _ _ _ k); [assumption | constructor].
  - destruct (IH k Hrk eq_refl) as (s & Hs & <-).
    exists s. split; [|reflexivity]. now apply (subtree_kid s _ _ _ k).
Qed.

Lemma repr_lookup (h : gmap loc Agency) t : repr h t -> h !! root t = Some (payload t).
Proof. now inversion 1. Qed.

Lemma hit_keep (h : gmap loc Agency) q t :
  repr h t -> hit h q (root t) -> keep q t = true.
Proof.
  intros Hr [(obj & Ho & Hm) | (d & Hd & obj & Ho & Hm)].
  - apply (subtree_keep q t t); [constructor|].
    rewrite (repr_lookup h t Hr) in Ho. now injection Ho as ->.
  - destruct (desc_subtree h _ _ Hd t Hr eq_refl) as (s & Hs & <-).
    apply (subtree_keep q s t Hs).
    rewrite (repr_lookup h s (repr_subtree h s t Hs Hr)) in Ho. now injection Ho as ->.
Qed.

Lemma filter_keep_after q l :
  List.filter (keep q) (map (after q) l) = map (after q) (List.filter (keep q) l).
Proof.
  induction l as [|t l IH]; [reflexivity|]. simpl.
  rewrite keep_after. destruct (keep q t); simpl; now rewrite IH.
Qed.

Lemma filter_keep_all q l :
  Forall (fun t => keep q t = true) l -> List.filter (keep q) l = l.
Proof.
  induction 1 as [|t l Ht _ IH]; [reflexivity|]. simpl. now rewrite Ht, IH.
Qed.

Lemma filter_keep_none q l :
  existsb (keep q) l = false -> List.filter (keep q) l = [].
Proof.
  induction l as [|t l IH]; [reflexivity|]. simpl.
  destruct (keep q t); [discriminate|]. exact IH.
Qed.

Lemma after_not_kept q t : keep q t = false -> after q t = t.
Proof.
  induction t as [a obj kids IH] using tree_rect'. simpl.
  destruct (matches obj q); [discriminate|]. simpl. intros Hex.
  rewrite pruned_filter, (filter_keep_none q kids Hex). simpl. f_equal.
  rewrite <- (map_id kids) at 2. apply map_ext_in. intros k Hk.
  rewrite Forall_forall in IH. apply IH; [now apply list_elem_of_In|].
  destruct (keep q k) eqn:E; [|reflexivity].
  assert (existsb (keep q) kids = true) by (apply existsb_exists; eauto). congruence.
Qed.

Lemma after_idem q t : after q (after q t) = after q t.
Proof.
  induction t as [a obj kids IH] using tree_rect'. simpl.
  destruct (matches obj q) eqn:Hm; [simpl; now rewrite Hm|].
  rewrite pruned_filter, ltb_length_filter.
  assert (Hmap : forall l, incl l kids -> map (after q) (map (after q) l) = map (after q) l).
  { intros l Hl. rewrite map_map. apply map_ext_in. intros k Hk.
    rewrite Forall_forall in IH. apply IH. now apply list_elem_of_In, Hl. }
  destruct (existsb (keep q) kids) eqn:Hex; simpl;
    rewrite ?matches_set_children, Hm, pruned_filter, filter_keep_after.
  - assert (Hall : List.filter (keep q) (List.filter (keep q) kids)
                   = List.filter (keep q) kids).
    { apply filter_keep_all, Forall_forall. intros k Hk.
      apply list_elem_of_In, filter_In in Hk. tauto. }
    rewrite Hall, Hmap by (intros k Hk; apply filter_In in Hk; tauto).
    now rewrite ltb_length_filter, Hex, map_root_after.
  - rewrite (filter_keep_none q kids Hex). simpl.
    now rewrite Hmap by apply incl_refl.
Qed.

Lemma locs_after_sublist q t : sublist (locs (after q t)) (locs t).
Proof.
  induction t as [a obj kids IH] using tree_rect'. simpl.
  destruct (matches obj q); [reflexivity|].
  rewrite pruned_filter.
  assert (Hall : sublist (flat_map locs (map (after q) kids)) (flat_map locs kids)).
  { induction IH as [|k kids Hk _ IHk]; simpl; [constructor|]. now apply sublist_app. }
  assert (Hkept : sublist (flat_map locs (map (after q) (List.filter (keep q) kids)))
                          (flat_map locs kids)).
  { clear Hall. induction IH as [|k kids Hk _ IHk]; simpl; [constructor|].
    destruct (keep q k); simpl; [now apply sublist_app | now apply sublist_inserts_l]. }
  destruct (Nat.ltb _ _); simpl; now constructor.
Qed.

Lemma locs_forest_kept_sublist q ts :
  sublist (locs_forest (map (after q) (List.filter (keep q) ts))) (locs_forest ts).
Proof.
  unfold locs_forest. induction ts as [|t ts IH]; simpl; [constructor|].
  destruct (keep q t); simpl.
  - apply sublist_app; [apply locs_after_sublist | assumption].
  - now apply sublist_inserts_l.
Qed.

Lemma depth_after q t : depth (after q t) <= depth t.
Proof.
  induction t as [a obj kids IH] using tree_rect'. simpl.
  destruct (matches obj q); [reflexivity|].
  rewrite pruned_filter. rewrite Forall_forall in IH.
  assert (Hle : forall l, incl l kids ->
            list_max (map depth (map (after q) l)) <= list_max (map depth kids)).
  { intros l Hl. apply list_max_le, List.Forall_forall. intros n Hn.
    apply in_map_iff in Hn as (k' & <- & Hk').
    apply in_map_iff in Hk' as (k & <- & Hk).
    transitivity (depth k); [apply IH; now apply list_elem_of_In, Hl|].
    assert (Hmax := proj1 (list_max_le (map depth kids) (list_max (map depth kids)))
                          (le_n _)).
    rewrite List.Forall_forall in Hmax. apply Hmax, in_map, Hl, Hk. }
  destruct (Nat.ltb _ _); simpl; apply le_n_S, Hle.
  - intros k Hk. apply filter_In in Hk. tauto.
  - apply incl_refl.
Qed.

Lemma depth_forest_kept q ts :
  depth_forest (map (after q) (List.filter (keep q) ts)) <= depth_forest ts.
Proof.
  unfold depth_forest. apply list_max_le, List.Forall_forall. intros n Hn.
  apply in_map_iff in Hn as (t' & <- & Ht').
  apply in_map_iff in Ht' as (t & <- & Ht). apply filter_In in Ht as [Ht _].
  transitivity (depth t); [apply depth_after|].
  assert (Hmax := proj1 (list_max_le (map depth ts) (list_max (map depth ts))) (le_n _)).
  rewrite List.Forall_forall in Hmax. now apply Hmax, in_map.
Qed.

Lemma store_eq_of_repr (h1 h2 : gmap loc Agency) ts :
  Forall (repr h1) ts -> Forall (repr h2) ts ->
  (forall l, ~ In l (locs_forest ts) -> h2 !! l = h1 !! l) -> h2 = h1.
Proof.
  intros H1 H2 Hframe. apply map_eq. intros l.
  destruct (in_dec Nat.eq_dec l (locs_forest ts)) as [Hin|Hout]; [|now apply Hframe].
  apply in_flat_map in Hin as (t & Ht & Hl).
  rewrite Forall_forall in H1, H2. apply list_elem_of_In in Ht.
  now apply (repr_agree h1 h2 t (H1 t Ht) (H2 t Ht)).
Qed.

(** X2: no false exclusion.  On a forest held by the store the filter
    returns exactly the roots that match directly or have a matching
    descendant: a root is returned if and only if it is such a root. *)
Theorem filter_returns_every_hit q ts (h : gmap loc Agency) :
  forest_in h ts ->
  exists h' res,
    (forall fuel, depth_forest ts < fuel ->
       searchAgencies fuel h (map root ts) q = Some (h', res)) /\
    (forall a, In a res <-> In a (map root ts) /\ hit h q a).
Proof.
  intros Hf. destruct (searchAgencies_forest q ts h Hf) as (h' & Hrun & _).
  exists h', (map root (List.filter (keep q) ts)). split; [exact Hrun|].
  destruct Hf as [Hr _]. rewrite Forall_forall in Hr.
  intros a. rewrite !in_map_iff. split.
  - intros (t & <- & Ht). apply filter_In in Ht as [Ht Hk]. split; [eauto|].
    apply keep_hit; [|assumption]. now apply Hr, list_elem_of_In.
  - intros [(t & <- & Ht) Hhit]. exists t. split; [reflexivity|].
    apply filter_In. split; [assumption|].
    apply (hit_keep h); [|assumption]. now apply Hr, list_elem_of_In.
Qed.

Lemma filter_returns_every_hit_witness :
  exists h' res,
    (forall fuel, depth_forest dept_forest < fuel ->
       searchAgencies fuel dept_store (map root dept_forest) "40" = Some (h', res)) /\
    (forall a, In a res <-> In a (map root dept_forest) /\ hit dept_store "40" a).
Proof.
  apply (filter_returns_every_hit "40" dept_forest dept_store).
  split; [repeat constructor | apply (bool_decide_unpack _); vm_compute; exact I].
Defined.

(** X3: a root that is returned without matching directly comes back with
    its [children] cut down to those of its children that match or have a
    matching descendant, in their former order; its other fields are as
    they were. *)
Theorem filter_prunes_children_of_indirect_hit q ts (h : gmap loc Agency) a obj :
  forest_in h ts -> In a (map root ts) -> h !! a = Some obj ->
  matches obj q = false -> hit h q a ->
  exists h' res obj',
    (forall fuel, depth_forest ts < fuel ->
       searchAgencies fuel h (map root ts) q = Some (h', res)) /\
    In a res /\
    h' !! a = Some obj' /\
    obj' = set_children (children obj') obj /\
    sublist (children obj') (children obj) /\
    (forall c, In c (children obj') <-> In c (children obj) /\ hit h q c).
Proof.
  intros Hf Ha Hobj Hm Hhit.
  destruct (searchAgencies_forest q ts h Hf) as (h' & Hrun & Hrep & _).
  destruct Hf as [Hr _]. rewrite Forall_forall in Hr, Hrep.
  apply in_map_iff in Ha as ([a' obj0 kids] & <- & Ht). simpl in *.
  assert (Hrt : repr h (Node a' obj0 kids)) by (apply Hr; now apply list_elem_of_In).
  assert (Hk : keep q (Node a' obj0 kids) = true) by now apply (hit_keep h).
  inversion Hrt as [a1 obj1 kids1 Hl Hch Hkids]; subst.
  assert (obj0 = obj) as -> by congruence.
  assert (Hrt' : repr h' (after q (Node a' obj kids)))
    by (apply Hrep; now apply list_elem_of_In, in_map).
  simpl in Hk, Hrt'. rewrite Hm in Hk, Hrt'. simpl in Hk.
  rewrite pruned_filter, ltb_length_filter, Hk in Hrt'.
  apply repr_lookup in Hrt'. simpl in Hrt'. rewrite map_root_after in Hrt'.
  exists h', (map root (List.filter (keep q) ts)),
         (set_children (map root (List.filter (keep q) kids)) obj).
  split; [exact Hrun|]. split.
  { apply in_map_iff. exists (Node a' obj kids). split; [reflexivity|].
    apply filter_In. split; [assumption|]. simpl. now rewrite Hm. }
  split; [exact Hrt'|]. split; [reflexivity|]. simpl.
  rewrite Forall_forall in Hkids. split.
  - rewrite Hch. clear. induction kids as [|k kids IH]; simpl; [constructor|].
    destruct (keep q k); simpl; now constructor.
  - intros c. rewrite Hch, !in_map_iff. split.
    + intros (k & <- & Hin). apply filter_In in Hin as [Hin Hkk]. split; [eauto|].
      apply keep_hit; [|assumption]. now apply Hkids, list_elem_of_In.
    + intros [(k & <- & Hin) Hc]. exists k. split; [reflexivity|].
      apply filter_In. split; [assumption|].
      apply (hit_keep h); [|assumption]. now apply Hkids, list_elem_of_In.
Qed.

Lemma filter_prunes_children_witness :
  exists h' res obj',
    (forall fuel, depth_forest dept_forest < fuel ->
       searchAgencies fuel dept_store (map root dept_forest) "40" = Some (h', res)) /\
    In 0 res /\
    h' !! (0 : loc) = Some obj' /\
    obj' = set_children (children obj') (agency_of "Department" [1; 2] []) /\
    sublist (children obj') [1; 2] /\
    (forall c, In c (children obj') <-> In c [1; 2] /\ hit dept_store "40" c).
Proof.
  apply (filter_prunes_children_of_indirect_hit "40" dept_forest dept_store 0
           (agency_of "Department" [1; 2] [])).
  - split; [repeat constructor | apply (bool_decide_unpack _); vm_compute; exact I].
  - now left.
  - reflexivity.
  - reflexivity.
  - right. exists 1. split.
    + apply (desc_child _ 0 (agency_of "Department" [1; 2] [])); [reflexivity | now left].
    + exists (agency_of "Alpha Office" [] [40%Z]). split; reflexivity.
Defined.

(** X4: filtering is idempotent.  Run again with the same query on the
    roots it has just returned, the filter returns the same roots and
    writes nothing: the store is the one the first run left. *)
Theorem filter_idempotent q ts (h : gmap loc Agency) :
  forest_in h ts ->
  exists h' res,
    (forall fuel, depth_forest ts < fuel ->
       searchAgencies fuel h (map root ts) q = Some (h', res)) /\
    (forall fuel, depth_forest ts < fuel ->
       searchAgencies fuel h' res q = Some (h', res)).
Proof.
  intros Hf. destruct (searchAgencies_forest q ts h Hf) as (h' & Hrun & Hrep & _).
  exists h', (map root (List.filter (keep q) ts)). split; [exact Hrun|].
  set (ts' := map (after q) (List.filter (keep q) ts)).
  assert (Hroots : map root ts' = map root (List.filter (keep q) ts))
    by apply map_root_after.
  assert (Hr' : Forall (repr h') ts').
  { rewrite Forall_forall in *. intros t' Ht'.
    apply list_elem_of_In, in_map_iff in Ht' as (t & <- & Ht).
    apply filter_In in Ht as [Ht _]. now apply Hrep, list_elem_of_In, in_map. }
  assert (Hf' : forest_in h' ts').
  { split; [assumption|]. destruct Hf as [_ Hnd].
    apply (sublist_NoDup _ (locs_forest ts)); [exact Hnd | apply locs_forest_kept_sublist]. }
  destruct (searchAgencies_forest q ts' h' Hf') as (h'' & Hrun' & Hrep' & Hframe').
  assert (Hkept : List.filter (keep q) ts' = ts').
  { apply filter_keep_all, Forall_forall. intros t' Ht'.
    apply list_elem_of_In, in_map_iff in Ht' as (t & <- & Ht).
    apply filter_In in Ht as [_ Hk]. now rewrite keep_after. }
  assert (Hafter : map (after q) ts' = ts').
  { unfold ts'. rewrite map_map. apply map_ext. intros t. apply after_idem. }
  rewrite Hkept in Hrun'. rewrite Hafter in Hrep'.
  assert (E : h'' = h') by now apply (store_eq_of_repr h' h'' ts').
  rewrite E, Hroots in Hrun'.
  intros fuel Hfuel. apply Hrun'.
  pose proof (depth_forest_kept q ts). unfold ts'. lia.
Qed.

Lemma filter_idempotent_witness :
  exists h' res,
    (forall fuel, depth_forest dept_forest < fuel ->
       searchAgencies fuel dept_store (map root dept_forest) "40" = Some (h', res)) /\
    (forall fuel, depth_forest dept_forest < fuel ->
       searchAgencies fuel h' res "40" = Some (h', res)).
Proof.
  apply (filter_idempotent "40" dept_forest dept_store).
  split; [repeat constructor | apply (bool_decide_unpack _); vm_compute; exact I].
Defined.

(** X5: the filter writes nothing when every root either matches directly
    or has no match at all below it; in particular a search without any
    result leaves every agency object as it was. *)
Theorem filter_writes_nothing_without_indirect_hit q ts (h : gmap loc Agency) :
  forest_in h ts ->
  (forall a, In a (map root ts) -> matches_at h q a \/ ~ hit h q a) ->
  exists res,
    (forall fuel, depth_forest ts < fuel ->
       searchAgencies fuel h (map root ts) q = Some (h, res)) /\
    ((forall a, In a (map root ts) -> ~ hit h q a) -> res = []).
Proof.
  intros Hf Hroots.
  destruct (searchAgencies_forest q ts h Hf) as (h' & Hrun & Hrep & Hframe).
  destruct Hf as [Hr Hnd].
  assert (Hsame : map (after q) ts = ts).
  { rewrite <- (map_id ts) at 2. apply map_ext_in. intros t Ht.
    rewrite Forall_forall in Hr.
    assert (Hrt : repr h t) by (apply Hr; now apply list_elem_of_In).
    destruct (Hroots (root t) (in_map root _ _ Ht)) as [(obj & Ho & Hm) | Hno].
    - rewrite (repr_lookup h t Hrt) in Ho. injection Ho as <-.
      destruct t as [a obj kids]. simpl in *. now rewrite Hm.
    - apply after_not_kept. destruct (keep q t) eqn:Hk; [|reflexivity].
      destruct Hno. now apply keep_hit. }
  rewrite Hsame in Hrep.
  assert (E : h' = h) by now apply (store_eq_of_repr h h' ts).
  subst h'. exists (map root (List.filter (keep q) ts)). split; [exact Hrun|].
  intros Hnone.
  assert (Hempty : List.filter (keep q) ts = []).
  { apply filter_keep_none. apply not_true_is_false. intros Hex.
    apply existsb_exists in Hex as (t & Ht & Hk).
    apply (Hnone (root t)); [now apply in_map|].
    rewrite Forall_forall in Hr. apply keep_hit; [|assumption].
    now apply Hr, list_elem_of_In. }
  now rewrite Hempty.
Qed.

Lemma filter_writes_nothing_witness :
  exists res,
    (forall fuel, depth_forest epa_forest < fuel ->
       searchAgencies fuel epa_store (map root epa_forest) "epa" = Some (epa_store, res)).
Proof.
  destruct (filter_writes_nothing_without_indirect_hit "epa" epa_forest epa_store)
    as (res & Hrun & _).
  - split; [repeat constructor | apply (bool_decide_unpack _); vm_compute; exact I].
  - intros a [<-|[]]. left. exists (agency_of "EPA" [1] [40%Z]). split; reflexivity.
  - exists res. exact Hrun.
Defined.

(** * Derived views *)

Lemma insert_ascending_In x l y : In y (insert_ascending x l) <-> y = x \/ In y l.
Proof.
  induction l as [|z l IH]; simpl; [intuition|].
  destruct (Z.leb x z); simpl; [intuition|]. rewrite IH. intuition.
Qed.

Lemma sort_ascending_In l y : In y (sort_ascending l) <-> In y l.
Proof.
  induction l as [|x l IH]; simpl; [tauto|].
  rewrite insert_ascending_In, IH. intuition.
Qed.

Lemma insert_ascending_length x l : length (insert_ascending x l) = S (length l).
Proof.
  induction l as [|z l IH]; simpl; [reflexivity|].
  destruct (Z.leb x z); simpl; [reflexivity | now rewrite IH].
Qed.

Lemma sort_ascending_length l : length (sort_ascending l) = length l.
Proof.
  induction l as [|x l IH]; simpl; [reflexivity|].
  now rewrite insert_ascending_length, IH.
Qed.

Lemma ascending_cons x l :
  ascending (x :: l) <-> (forall y, In y l -> (x < y)%Z) /\ ascending l.
Proof.
  revert x. induction l as [|z l IH]; intros x.
  - simpl. intuition.
  - change (ascending (x :: z :: l)) with ((x < z)%Z /\ ascending (z :: l)).
    rewrite (IH z). split.
    + intros (Hxz & Hz & Hl). split; [|now split].
      intros y [<-|Hy]; [assumption|]. specialize (Hz y Hy). lia.
    + intros (Hx & Hz & Hl). split; [apply Hx; now left | now split].
Qed.

Lemma insert_ascending_ascending x l :
  ascending l -> ~ In x l -> ascending (insert_ascending x l).
Proof.
  induction l as [|z l IH]; intros Hl Hx; [simpl; tauto|].
  cbn [insert_ascending]. apply ascending_cons in Hl as [Hz Hl].
  destruct (Z.leb_spec x z) as [Hle|Hgt].
  - assert (x < z)%Z by (assert (x <> z) by (intros ->; apply Hx; now left); lia).
    apply ascending_cons. split.
    + intros y [<-|Hy]; [assumption|]. specialize (Hz y Hy). lia.
    + apply ascending_cons. now split.
  - apply ascending_cons. split.
    + intros y Hy. apply insert_ascending_In in Hy as [->|Hy]; [lia | now apply Hz].
    + apply IH; [assumption|]. intros Hin. apply Hx. now right.
Qed.

Lemma sort_ascending_ascending l : NoDup l -> ascending (sort_ascending l).
Proof.
  induction 1 as [|x l Hx _ IH]; [exact I|]. simpl.
  apply insert_ascending_ascending; [assumption|].
  rewrite sort_ascending_In. now rewrite <- list_elem_of_In.
Qed.

(** Two strictly ascending lists with the same elements are equal. *)
Lemma ascending_unique l1 : forall l2,
  ascending l1 -> ascending l2 -> (forall x, In x l1 <-> In x l2) -> l1 = l2.
Proof.
  induction l1 as [|x l1 IH]; intros l2 H1 H2 Hsame.
  - destruct l2 as [|y l2]; [reflexivity|]. destruct (proj2 (Hsame y)). now left.
  - destruct l2 as [|y l2]; [destruct (proj1 (Hsame x)); now left|].
    apply ascending_cons in H1 as [Hx H1], H2 as [Hy H2].
    assert (x = y) as ->.
    { destruct (proj1 (Hsame x) (or_introl eq_refl)) as [->|Hxin]; [reflexivity|].
      destruct (proj2 (Hsame y) (or_introl eq_refl)) as [->|Hyin]; [reflexivity|].
      specialize (Hx y Hyin). specialize (Hy x Hxin). lia. }
    f_equal. apply IH; try assumption. intros z. split; intros Hz.
    + destruct (proj1 (Hsame z) (or_intror Hz)) as [<-|Hin]; [|assumption].
      specialize (Hx y Hz). lia.
    + destruct (proj2 (Hsame z) (or_intror Hz)) as [<-|Hin]; [|assumption].
      specialize (Hy y Hz). lia.
Qed.

(** X6: the computed signal [uniqueTitles] is the strictly ascending list
    of the titles the selected agency references: it is ascending without
    repetition, holds exactly the referenced titles (none when no agency is
    selected), and is the only list with these two properties.  The list
    that the agency tree computes for the badges of the selected agency
    ([getUniqueTitles]) is the same one. *)
Theorem uniqueTitles_is_the_ascending_list_of_titles w :
  ascending (uniqueTitles w) /\
  (forall t, In t (uniqueTitles w) <-> In t (referenced_titles w)) /\
  (forall l, ascending l -> (forall t, In t l <-> In t (referenced_titles w)) ->
             l = uniqueTitles w) /\
  (forall a agency, selectedAgency (signals w) = Some a -> store w !! a = Some agency ->
     AgencyVisualization.getUniqueTitles agency = uniqueTitles w).
Proof.
  assert (H : ascending (uniqueTitles w) /\
              (forall t, In t (uniqueTitles w) <-> In t (referenced_titles w))).
  { unfold uniqueTitles, referenced_titles.
    destruct (selectedAgency (signals w)) as [a|]; [|now split].
    destruct (store w !! a) as [agency|]; [|now split]. split.
    - apply sort_ascending_ascending, Set_from_NoDup.
    - intros t. now rewrite sort_ascending_In, Set_from_In. }
  destruct H as [Hasc Hin]. split; [assumption|]. split; [assumption|]. split.
  - intros l Hl Hsame. apply ascending_unique; try assumption.
    intros t. now rewrite Hsame, Hin.
  - intros a agency Hsel Ha. unfold uniqueTitles. now rewrite Hsel, Ha.
Qed.

Lemma set_add_all_length l : forall seen, length (set_add_all seen l) <= length l.
Proof.
  induction l as [|x l IH]; intros seen; simpl; [lia|].
  destruct (existsb (Z.eqb x) seen); simpl.
  - specialize (IH seen). lia.
  - specialize (IH (x :: seen)). lia.
Qed.

Lemma set_add_all_fresh l : forall seen,
  NoDup l -> (forall y, In y l -> ~ In y seen) -> set_add_all seen l = l.
Proof.
  induction l as [|x l IH]; intros seen Hnd Hfresh; [reflexivity|]. simpl.
  apply NoDup_cons in Hnd as [Hx Hnd]. rewrite list_elem_of_In in Hx.
  destruct (existsb (Z.eqb x) seen) eqn:E.
  - apply existsb_eqb_In in E. destruct (Hfresh x); [now left | assumption].
  - f_equal. apply IH; [assumption|].
    intros y Hy [<-|Hin]; [contradiction|]. apply (Hfresh y); [now right | assumption].
Qed.

Lemma set_add_all_full l : forall seen,
  length (set_add_all seen l) = length l ->
  NoDup l /\ (forall y, In y l -> ~ In y seen).
Proof.
  induction l as [|x l IH]; intros seen; simpl.
  - intros _. split; [constructor | tauto].
  - destruct (existsb (Z.eqb x) seen) eqn:E.
    + pose proof (set_add_all_length l seen). lia.
    + simpl. intros Hlen. injection Hlen as Hlen.
      destruct (IH _ Hlen) as [Hnd Hfresh]. split.
      * apply NoDup_cons. split; [|assumption].
        rewrite list_elem_of_In. intros Hin. apply (Hfresh x Hin). now left.
      * intros y [<-|Hy].
        -- intros Hin. apply existsb_eqb_In in Hin. congruence.
        -- intros Hin. apply (Hfresh y Hy). now right.
Qed.

Lemma set_add_all_ext l : forall s1 s2,
  (forall y, In y s1 <-> In y s2) -> set_add_all s1 l = set_add_all s2 l.
Proof.
  induction l as [|x l IH]; intros s1 s2 Hsame; [reflexivity|]. simpl.
  assert (E : existsb (Z.eqb x) s1 = existsb (Z.eqb x) s2).
  { destruct (existsb (Z.eqb x) s1) eqn:E1, (existsb (Z.eqb x) s2) eqn:E2;
      try reflexivity.
    - apply existsb_eqb_In, Hsame, existsb_eqb_In in E1. congruence.
    - apply existsb_eqb_In, Hsame, existsb_eqb_In in E2. congruence. }
  rewrite E. destruct (existsb (Z.eqb x) s2); [now apply IH|].
  f_equal. apply IH. intros y. simpl. now rewrite Hsame.
Qed.

Lemma set_add_all_seen l : forall seen x,
  set_add_all (x :: seen) l
  = set_add_all seen (List.filter (fun y => negb (Z.eqb y x)) l).
Proof.
  induction l as [|y l IH]; intros seen x; [reflexivity|].
  cbn [set_add_all List.filter existsb].
  destruct (Z.eqb_spec y x) as [->|Hne]; cbn [negb orb].
  - apply IH.
  - cbn [set_add_all]. destruct (existsb (Z.eqb y) seen); [apply IH|].
    f_equal. rewrite <- (IH (y :: seen) x).
    apply set_add_all_ext. intros z. simpl. tauto.
Qed.

(** X7: the deduplication of [loadTitleData] keeps the first reference to
    every title, in the order of the references: the head of the list
    stays, followed by the deduplication of the rest without it; a list
    without repetition is left as it is. *)
Theorem Set_from_keeps_first_occurrences :
  (forall x l,
     Set_from (x :: l) = x :: Set_from (List.filter (fun y => negb (Z.eqb y x)) l)) /\
  (forall l, NoDup l -> Set_from l = l) /\
  (forall l, Set_from (Set_from l) = Set_from l).
Proof.
  assert (Hid : forall l, NoDup l -> Set_from l = l).
  { intros l Hl. apply set_add_all_fresh; [assumption | intros y _ []]. }
  split; [|split; [exact Hid|]].
  - intros x l. rewrite Set_from_cons. f_equal. apply set_add_all_seen.
  - intros l. apply Hid, Set_from_NoDup.
Qed.

(** X8: the summary of the selected agency counts consistently: its
    [uniqueTitles] is the length of the computed list [uniqueTitles], it
    never exceeds [totalReferences], equals it exactly when no title is
    referenced twice, and is zero exactly when there is no reference. *)
Theorem selectedAgencyAnalytics_counts w s :
  selectedAgencyAnalytics w = Some s ->
  Analytics.uniqueTitles s = length (uniqueTitles w) /\
  Analytics.totalReferences s = length (referenced_titles w) /\
  Analytics.uniqueTitles s <= Analytics.totalReferences s /\
  (Analytics.uniqueTitles s = Analytics.totalReferences s
   <-> NoDup (referenced_titles w)) /\
  (Analytics.uniqueTitles s = 0 <-> Analytics.totalReferences s = 0).
Proof.
  unfold selectedAgencyAnalytics, uniqueTitles, referenced_titles.
  destruct (selectedAgency (signals w)) as [a|]; [|discriminate].
  destruct (store w !! a) as [agency|]; [|discriminate].
  intros [= <-]. simpl.
  set (titles := map CFRReference.title (cfr_references agency)).
  assert (Hlen : length (cfr_references agency) = length titles)
    by (unfold titles; now rewrite length_map).
  rewrite Hlen, sort_ascending_length.
  split; [reflexivity|]. split; [reflexivity|].
  split; [apply set_add_all_length|]. split; [split|].
  - intros E. now apply (set_add_all_full titles []).
  - intros Hnd. unfold Set_from. rewrite set_add_all_fresh; trivial. intros y _ [].
  - destruct titles as [|t titles']; [tauto|]. rewrite Set_from_cons. simpl.
    split; discriminate.
Qed.

Lemma selectedAgencyAnalytics_counts_witness :
  selectedAgencyAnalytics epa_refs_world = Some (Analytics.mk 3 2 0) /\
  uniqueTitles epa_refs_world = [40; 42]%Z /\
  2 = length (uniqueTitles epa_refs_world) /\
  3 = length (referenced_titles epa_refs_world) /\
  2 <= 3 /\
  (2 = 3 <-> NoDup (referenced_titles epa_refs_world)) /\
  (2 = 0 <-> 3 = 0).
Proof.
  split; [reflexivity|]. split; [reflexivity|].
  exact (selectedAgencyAnalytics_counts epa_refs_world (Analytics.mk 3 2 0) eq_refl).
Defined.

Lemma selectAgency_selection a w :
  store (selectAgency a w) = store w /\
  selectedAgency (signals (selectAgency a w)) = Some a.
Proof.
  unfold selectAgency, loadAgencyHistory, loadAgencyChanges, loadTitleData. simpl.
  destruct (store w !! a) as [obj|] eqn:Ha; simpl; rewrite ?Ha; simpl; rewrite ?Ha;
    [|now split].
  destruct (cfr_references obj) as [|ref refs]; [now split|].
  cbn [map]. rewrite Set_from_cons, make_batches_cons. now split.
Qed.

(** X9: the pruning of the filter shows in the summary of an agency that
    is selected afterwards.  For an agency that is not the selected one,
    the summary computed when it is selected after [filteredAgencies] has
    been evaluated differs from the one computed when it is selected
    before only by [childAgencies], which can be lower: [totalReferences],
    [uniqueTitles] and the list of unique titles are read off fields the
    filter never writes. *)
Theorem filter_lowers_childAgencies_of_later_selection fuel w w' res a :
  filteredAgencies fuel w = Some (w', res) ->
  selectedAgency (signals w) <> Some a ->
  selectedAgency (signals w') <> Some a /\
  uniqueTitles (selectAgency a w') = uniqueTitles (selectAgency a w) /\
  match selectedAgencyAnalytics (selectAgency a w),
        selectedAgencyAnalytics (selectAgency a w') with
  | Some s, Some s' =>
      Analytics.totalReferences s' = Analytics.totalReferences s /\
      Analytics.uniqueTitles s' = Analytics.uniqueTitles s /\
      Analytics.childAgencies s' <= Analytics.childAgencies s
  | None, None => True
  | _, _ => False
  end.
Proof.
  intros Hrun Hsel.
  assert (Hw' : selectedAgency (signals w') = selectedAgency (signals w) /\
                forall obj', store w' !! a = Some obj' ->
                  exists obj, store w !! a = Some obj /\
                    cfr_references obj' = cfr_references obj /\
                    length (children obj') <= length (children obj)).
  { unfold filteredAgencies in Hrun. destruct (Js.truthy _).
    - destruct (searchAgencies _ _ _ _) as [[h' r]|] eqn:Hs; [|discriminate].
      injection Hrun as <- <-. split; [reflexivity|]. simpl.
      destruct (searchAgencies_shrinks _ _ _ _ _ _ Hs) as [Hsh _].
      intros obj' Ho'. specialize (Hsh a). rewrite Ho' in Hsh.
      destruct (store w !! a) as [obj|]; [|contradiction].
      destruct Hsh as [E Hsub]. exists obj. split; [reflexivity|].
      split; [now rewrite E | now apply sublist_length].
    - injection Hrun as <- <-. split; [reflexivity|]. intros obj' Ho'. eauto. }
  destruct Hw' as [Hsame Hobj]. split; [now rewrite Hsame|].
  assert (Hdom : store w' !! a = None -> store w !! a = None).
  { unfold filteredAgencies in Hrun. destruct (Js.truthy _).
    - destruct (searchAgencies _ _ _ _) as [[h' r]|] eqn:Hs; [|discriminate].
      injection Hrun as <- <-. simpl.
      destruct (searchAgencies_shrinks _ _ _ _ _ _ Hs) as [Hsh _].
      intros Hnone. specialize (Hsh a). rewrite Hnone in Hsh.
      now destruct (store w !! a).
    - now injection Hrun as <- <-. }
  unfold uniqueTitles, selectedAgencyAnalytics.
  destruct (selectAgency_selection a w) as [-> ->].
  destruct (selectAgency_selection a w') as [-> ->].
  destruct (store w' !! a) as [obj'|] eqn:Ho'.
  - destruct (Hobj obj' eq_refl) as (obj & -> & Hrefs & Hlen).
    rewrite Hrefs. simpl. repeat split. exact Hlen.
  - rewrite (Hdom eq_refl). now split.
Qed.

Lemma filter_lowers_childAgencies_witness :
  exists w',
    filteredAgencies 3 (dept_world "40") = Some (w', [0]) /\
    selectedAgency (signals w') <> Some 0 /\
    uniqueTitles (selectAgency 0 w') = uniqueTitles (selectAgency 0 (dept_world "40")) /\
    selectedAgencyAnalytics (selectAgency 0 (dept_world "40"))
    = Some (Analytics.mk 0 0 2) /\
    selectedAgencyAnalytics (selectAgency 0 w') = Some (Analytics.mk 0 0 1).
Proof.
  destruct (filteredAgencies 3 (dept_world "40")) as [[w' res]|] eqn:Hrun;
    [|vm_compute in Hrun; discriminate].
  destruct (filter_lowers_childAgencies_of_later_selection 3 (dept_world "40") w' res 0
              Hrun ltac:(discriminate)) as (Hsel & Htitles & _).
  exists w'. split; [|split; [exact Hsel|split; [exact Htitles|]]];
    vm_compute in Hrun; injection Hrun as <- <-; [reflexivity|].
  split; reflexivity.
Defined.

(** * The analytics card *)

Lemma indicator_sum_absent (x : Z) U :
  ~ In x U -> list_sum (map (fun t => if Z.eqb x t then 1 else 0) U) = 0.
Proof.
  induction U as [|v U IH]; intros Hx; [reflexivity|]. simpl.
  destruct (Z.eqb_spec x v) as [->|_]; [destruct Hx; now left|].
  simpl. apply IH. intros Hin. apply Hx. now right.
Qed.

Lemma indicator_sum (x : Z) U :
  NoDup U -> In x U ->
  list_sum (map (fun t => if Z.eqb x t then 1 else 0) U) = 1.
Proof.
  induction 1 as [|u U Hu Hnd IH]; intros Hin; [contradiction|]. simpl.
  rewrite list_elem_of_In in Hu.
  destruct (Z.eqb_spec x u) as [->|Hne].
  - now rewrite indicator_sum_absent.
  - destruct Hin as [->|Hin]; [contradiction | now apply IH].
Qed.

Lemma references_sum (refs : list CFRReference.t) U :
  NoDup U -> (forall r, In r refs -> In (CFRReference.title r) U) ->
  list_sum (map (fun t => length (List.filter
                                    (fun ref => Z.eqb (CFRReference.title ref) t) refs)) U)
  = length refs.
Proof.
  intros Hnd. induction refs as [|r refs IH]; intros Hin.
  - simpl. clear. induction U as [|u U IHU]; [reflexivity | exact IHU].
  - assert (Hsplit : forall V,
      list_sum (map (fun t => length (List.filter
                  (fun ref => Z.eqb (CFRReference.title ref) t) (r :: refs))) V)
      = list_sum (map (fun t => if Z.eqb (CFRReference.title r) t then 1 else 0) V)
        + list_sum (map (fun t => length (List.filter
                  (fun ref => Z.eqb (CFRReference.title ref) t) refs)) V)).
    { induction V as [|u V IHV]; [reflexivity|]. simpl in IHV |- *.
      destruct (Z.eqb (CFRReference.title r) u); simpl; lia. }
    rewrite Hsplit, (indicator_sum _ U Hnd) by (apply Hin; now left).
    rewrite IH by (intros r' Hr'; apply Hin; now right). reflexivity.
Qed.

Lemma references_to_positive agency t :
  0 < AgencyAnalytics.references_to agency t
  <-> In t (AgencyAnalytics.uniqueTitles agency).
Proof.
  unfold AgencyAnalytics.references_to, AgencyAnalytics.uniqueTitles.
  rewrite Set_from_In, in_map_iff.
  induction (cfr_references agency) as [|r refs IH]; simpl.
  - split; [lia | intros (r & _ & [])].
  - destruct (Z.eqb_spec (CFRReference.title r) t) as [E|Hne]; simpl.
    + split; [eauto | lia].
    + rewrite IH. split.
      * intros (r' & E & Hr'). eauto.
      * intros (r' & E & [->|Hr']); [contradiction | eauto].
Qed.

(** X10: the data of the title distribution chart has one bar for each
    distinct title, in the order of first reference; every bar counts at
    least one reference, the counts add up to the number of references of
    the agency, and a bar is marked selected exactly when its title is the
    selected one. *)
Theorem titleDistribution_partitions_the_references agency selectedTitle :
  let bars := AgencyAnalytics.titleDistribution agency selectedTitle in
  map AgencyAnalytics.bar_title bars = AgencyAnalytics.uniqueTitles agency /\
  NoDup (map AgencyAnalytics.bar_title bars) /\
  Forall (fun b => 1 <= AgencyAnalytics.bar_count b) bars /\
  list_sum (map AgencyAnalytics.bar_count bars) = length (cfr_references agency) /\
  (forall b, In b bars ->
     (AgencyAnalytics.isSelected b = true
      <-> selectedTitle = Some (AgencyAnalytics.bar_title b))).
Proof.
  intros bars. unfold bars, AgencyAnalytics.titleDistribution.
  assert (Htitles : map AgencyAnalytics.bar_title
                      (map (fun title =>
                              AgencyAnalytics.mkBar title
                                (AgencyAnalytics.references_to agency title)
                                match selectedTitle with
                                | Some t => Z.eqb title t
                                | None => false
                                end) (AgencyAnalytics.uniqueTitles agency))
                    = AgencyAnalytics.uniqueTitles agency).
  { rewrite map_map. simpl. apply map_id. }
  split; [exact Htitles|]. split; [rewrite Htitles; apply Set_from_NoDup|].
  split; [|split].
  - apply Forall_forall. intros b Hb.
    apply list_elem_of_In, in_map_iff in Hb as (t & <- & Ht). simpl.
    now apply references_to_positive.
  - rewrite map_map. simpl.
    apply (references_sum (cfr_references agency) (AgencyAnalytics.uniqueTitles agency)).
    + apply Set_from_NoDup.
    + intros r Hr. apply Set_from_In. now apply in_map.
  - intros b Hb. apply in_map_iff in Hb as (t & <- & Ht). simpl.
    destruct selectedTitle as [t'|]; [|split; discriminate].
    rewrite Z.eqb_eq. split; congruence.
Qed.

(** X11: [getTitleReferenceCount] never exceeds the number of references;
    for a selected title other than zero it is positive exactly when the
    agency references the title; for no selection and for the title number
    zero it is zero, whatever the references. *)
Theorem getTitleReferenceCount_counts agency :
  (forall sel, AgencyAnalytics.getTitleReferenceCount agency sel
               <= length (cfr_references agency)) /\
  (forall t, t <> 0%Z ->
     (0 < AgencyAnalytics.getTitleReferenceCount agency (Some t)
      <-> In t (map CFRReference.title (cfr_references agency)))) /\
  AgencyAnalytics.getTitleReferenceCount agency (Some 0%Z) = 0 /\
  AgencyAnalytics.getTitleReferenceCount agency None = 0.
Proof.
  split; [|split; [|split; reflexivity]].
  - intros [t|]; simpl; [|lia]. destruct (Z.eqb t 0); [lia|].
    unfold AgencyAnalytics.references_to.
    induction (cfr_references agency) as [|r refs IH]; simpl; [lia|].
    destruct (Z.eqb _ _); simpl; lia.
  - intros t Ht. simpl. destruct (Z.eqb_spec t 0); [contradiction|].
    rewrite references_to_positive. apply Set_from_In.
Qed.

(** * Further properties of the batched load *)

Lemma result_for_title evs t td : result_for evs t = Some td -> TitleData.title td = t.
Proof.
  unfold result_for. destruct (reply_for t evs) as [[r now]|]; [|discriminate].
  destruct r as [[response|]|]; simpl; try discriminate.
  destruct (truthy_number _); [|discriminate]. now intros [= <-].
Qed.

Lemma find_result evs t (U : list Z) :
  List.find (fun td => Z.eqb (TitleData.title td) t) (omap (result_for evs) U)
  = if existsb (Z.eqb t) U then result_for evs t else None.
Proof.
  induction U as [|u U IH]; [reflexivity|]. cbn [omap list_omap existsb].
  destruct (result_for evs u) as [td|] eqn:Hu.
  - pose proof (result_for_title _ _ _ Hu) as Htd. cbn [List.find]. rewrite Htd.
    destruct (Z.eqb_spec u t) as [->|Hne].
    + now rewrite Z.eqb_refl.
    + destruct (Z.eqb_spec t u) as [->|_]; [congruence|]. exact IH.
  - destruct (Z.eqb_spec t u) as [->|_]; [|exact IH].
    rewrite IH, Hu. now destruct (existsb _ _).
Qed.

(** X12: what the analytics card shows after a load.  Once the batched load
    of an agency has finished, the card of a referenced title whose
    response carried a usable word count shows that word count and the date
    of the response (the time of arrival when the response has no date);
    for a title whose fetch failed or brought nothing usable, and for a
    title the agency does not reference, it shows 0 and no date. *)
Theorem analytics_card_shows_the_fetched_count a obj w0 evs w' :
  store w0 !! a = Some obj -> cfr_references obj <> [] -> calm w0 ->
  run (loadTitleData a w0) evs = Some w' ->
  tasks w' !! length (tasks w0) = Some Finished ->
  forall t,
    (forall response n now,
       In t (map CFRReference.title (cfr_references obj)) ->
       reply_for t evs = Some (Ok (Some response), now) ->
       truthy_number (TitleWordCountResponse.word_count response) = Some n ->
       AgencyAnalytics.getTitleWordCount (Some t) (titleData (signals w')) = n /\
       AgencyAnalytics.getTitleLastUpdated (Some t) (titleData (signals w'))
       = date_or_now (TitleWordCountResponse.date response) now) /\
    (fetched evs t = false \/ ~ In t (map CFRReference.title (cfr_references obj)) ->
     AgencyAnalytics.getTitleWordCount (Some t) (titleData (signals w')) = 0%Z /\
     AgencyAnalytics.getTitleLastUpdated (Some t) (titleData (signals w')) = "").
Proof.
  intros Ha Hrefs Hq Hrun Hfin t.
  rewrite (loadTitleData_final a obj w0 evs w' Ha Hrefs Hq Hrun Hfin).
  unfold AgencyAnalytics.getTitleWordCount, AgencyAnalytics.getTitleLastUpdated,
    AgencyAnalytics.find_title.
  rewrite find_result. split.
  - intros response n now Hin Hreply Hn.
    apply Set_from_In, existsb_eqb_In in Hin. rewrite Hin.
    unfold result_for. rewrite Hreply. simpl. rewrite Hn. simpl.
    assert (Hn0 : n <> 0%Z).
    { unfold truthy_number in Hn.
      destruct (TitleWordCountResponse.word_count response) as [m|]; [|discriminate].
      destruct (Z.eqb_spec m 0); [discriminate|]. congruence. }
    destruct (Z.eqb_spec n 0); [contradiction|]. split; [reflexivity|].
    unfold Js.or_else.
    destruct (date_or_now (TitleWordCountResponse.date response) now); reflexivity.
  - intros [Hf | Hout].
    + assert (E : result_for evs t = None).
      { rewrite result_for_fetched, Hf. reflexivity. }
      rewrite E. now destruct (existsb _ _).
    + destruct (existsb (Z.eqb t) (Set_from _)) eqn:E; [|now split].
      apply (proj1 (existsb_eqb_In _ _)) in E.
      apply (proj1 (Set_from_In _ _)) in E. now destruct Hout.
Qed.

Lemma analytics_card_witness :
  exists w',
    run (loadTitleData 0 seven_refs_selected) five_fails_selected = Some w' /\
    AgencyAnalytics.getTitleWordCount (Some 3%Z) (titleData (signals w')) = 30%Z /\
    AgencyAnalytics.getTitleLastUpdated (Some 6%Z) (titleData (signals w')) = "now" /\
    AgencyAnalytics.getTitleWordCount (Some 5%Z) (titleData (signals w')) = 0%Z.
Proof.
  destruct (run (loadTitleData 0 seven_refs_selected) five_fails_selected)
    as [w'|] eqn:Hrun; [|vm_compute in Hrun; discriminate].
  assert (Hdone : tasks w' !! 2 = Some Finished)
    by (vm_compute in Hrun; injection Hrun as <-; reflexivity).
  assert (Hcalm : calm seven_refs_selected)
    by (unfold calm; simpl; constructor;
        [right; now left | constructor; [right; now right | constructor]]).
  pose proof (analytics_card_shows_the_fetched_count 0
                (agency_of "Agency" [] [1; 1; 2; 3; 4; 5; 6]%Z) seven_refs_selected
                five_fails_selected w' eq_refl ltac:(discriminate) Hcalm Hrun Hdone)
    as Hcard.
  exists w'. split; [reflexivity|]. split; [|split].
  - apply (proj1 (Hcard 3%Z)
             (TitleWordCountResponse.mk (Some 30%Z) (Some "2024-06-30")) 30%Z "now");
      [vm_compute; tauto | reflexivity | reflexivity].
  - apply (proj1 (Hcard 6%Z) (TitleWordCountResponse.mk (Some 60%Z) None) 60%Z "now");
      [vm_compute; tauto | reflexivity | reflexivity].
  - apply (proj2 (Hcard 5%Z)). now left.
Defined.

Lemma filter_sublist {A} (f : A -> bool) (l : list A) : sublist (List.filter f l) l.
Proof.
  induction l as [|x l IH]; simpl; [constructor|].
  destruct (f x); now constructor.
Qed.

(** Two entries of the same title and word count whose dates differ at
    most by standing for the arrival times of a response without date. *)
Lemma results_same_bodies evs1 evs2 (l : list Z) :
  (forall t, option_map fst (reply_for t evs1) = option_map fst (reply_for t evs2)) ->
  Forall2 (fun e1 e2 =>
             TitleData.title e1 = TitleData.title e2 /\
             TitleData.wordCount e1 = TitleData.wordCount e2 /\
             (TitleData.lastUpdated e1 = TitleData.lastUpdated e2 \/
              exists response now1 now2,
                reply_for (TitleData.title e1) evs1 = Some (Ok (Some response), now1) /\
                reply_for (TitleData.title e1) evs2 = Some (Ok (Some response), now2) /\
                (TitleWordCountResponse.date response = None \/
                 TitleWordCountResponse.date response = Some "") /\
                TitleData.lastUpdated e1 = now1 /\ TitleData.lastUpdated e2 = now2))
          (omap (result_for evs1) l) (omap (result_for evs2) l).
Proof.
  intros Hsame. induction l as [|t l IH]; [constructor|].
  cbn [omap list_omap].
  assert (Hcase :
    (result_for evs1 t = None /\ result_for evs2 t = None) \/
    exists response n now1 now2,
      reply_for t evs1 = Some (Ok (Some response), now1) /\
      reply_for t evs2 = Some (Ok (Some response), now2) /\
      result_for evs1 t
      = Some (TitleData.mk t n (date_or_now (TitleWordCountResponse.date response) now1)) /\
      result_for evs2 t
      = Some (TitleData.mk t n (date_or_now (TitleWordCountResponse.date response) now2))).
  { specialize (Hsame t). unfold result_for.
    destruct (reply_for t evs1) as [[r1 now1]|], (reply_for t evs2) as [[r2 now2]|];
      simpl in Hsame; try discriminate; [|now left].
    injection Hsame as <-.
    destruct r1 as [[response|]|]; simpl; try (now left).
    destruct (truthy_number _) as [n|]; [|now left].
    right. exists response, n, now1, now2. auto. }
  destruct Hcase as [[-> ->] | (response & n & now1 & now2 & H1 & H2 & -> & ->)];
    [exact IH|].
  constructor; [|exact IH]. simpl. split; [reflexivity|]. split; [reflexivity|].
  destruct (TitleWordCountResponse.date response) as [[|c d]|] eqn:Hd; simpl.
  - right. exists response, now1, now2. rewrite Hd. auto.
  - now left.
  - right. exists response, now1, now2. rewrite Hd. auto.
Qed.

(** X13: the order in which the responses arrive shows in the result only
    through the times of arrival that stand in for missing dates.  Two
    schedules that bring the same body for every title and take the load to
    its end leave entries for the same titles, in the order of first
    reference, with the same word counts; the dates agree wherever the
    response carries one, and otherwise each is the time at which the
    response arrived in its schedule.  When the times of arrival agree as
    well, the two results are equal. *)
Theorem arrival_order_shows_only_in_missing_dates a obj w0 evs1 evs2 w1 w2 :
  store w0 !! a = Some obj -> cfr_references obj <> [] -> calm w0 ->
  run (loadTitleData a w0) evs1 = Some w1 ->
  run (loadTitleData a w0) evs2 = Some w2 ->
  tasks w1 !! length (tasks w0) = Some Finished ->
  tasks w2 !! length (tasks w0) = Some Finished ->
  (forall t, option_map fst (reply_for t evs1) = option_map fst (reply_for t evs2)) ->
  let uniqueTitles := Set_from (map CFRReference.title (cfr_references obj)) in
  map TitleData.title (titleData (signals w1))
  = map TitleData.title (titleData (signals w2)) /\
  sublist (map TitleData.title (titleData (signals w1))) uniqueTitles /\
  map TitleData.wordCount (titleData (signals w1))
  = map TitleData.wordCount (titleData (signals w2)) /\
  Forall2 (fun e1 e2 =>
             TitleData.lastUpdated e1 = TitleData.lastUpdated e2 \/
             exists response now1 now2,
               reply_for (TitleData.title e1) evs1 = Some (Ok (Some response), now1) /\
               reply_for (TitleData.title e1) evs2 = Some (Ok (Some response), now2) /\
               (TitleWordCountResponse.date response = None \/
                TitleWordCountResponse.date response = Some "") /\
               TitleData.lastUpdated e1 = now1 /\ TitleData.lastUpdated e2 = now2)
          (titleData (signals w1)) (titleData (signals w2)) /\
  ((forall t, reply_for t evs1 = reply_for t evs2) ->
   titleData (signals w1) = titleData (signals w2)).
Proof.
  intros Ha Hrefs Hq Hrun1 Hrun2 Hfin1 Hfin2 Hsame uniqueTitles.
  rewrite (loadTitleData_final a obj w0 evs1 w1 Ha Hrefs Hq Hrun1 Hfin1).
  rewrite (loadTitleData_final a obj w0 evs2 w2 Ha Hrefs Hq Hrun2 Hfin2).
  fold uniqueTitles.
  pose proof (results_same_bodies evs1 evs2 uniqueTitles Hsame) as Hall.
  split; [|split; [|split; [|split]]].
  - induction Hall as [|e1 e2 l1 l2 (Ht & _) _ IH]; [reflexivity|].
    simpl. now rewrite Ht, IH.
  - rewrite titles_of_results. apply filter_sublist.
  - induction Hall as [|e1 e2 l1 l2 (_ & Hc & _) _ IH]; [reflexivity|].
    simpl. now rewrite Hc, IH.
  - eapply Forall2_impl; [exact Hall|]. simpl. tauto.
  - intros Heq. now apply omap_result_for_ext.
Qed.

Lemma arrival_order_witness :
  exists w1 w2,
    run (loadTitleData 0 seven_refs_selected) undated_first = Some w1 /\
    run (loadTitleData 0 seven_refs_selected) undated_swapped = Some w2 /\
    map TitleData.title (titleData (signals w1)) = [1; 2; 3; 4; 6]%Z /\
    map TitleData.title (titleData (signals w2)) = [1; 2; 3; 4; 6]%Z /\
    map TitleData.wordCount (titleData (signals w1))
    = map TitleData.wordCount (titleData (signals w2)) /\
    map TitleData.lastUpdated (titleData (signals w1))
    = ["09:00"; "09:01"; "2024-06-30"; "2024-06-30"; "2024-06-30"] /\
    map TitleData.lastUpdated (titleData (signals w2))
    = ["09:01"; "09:00"; "2024-06-30"; "2024-06-30"; "2024-06-30"].
Proof.
  destruct (run (loadTitleData 0 seven_refs_selected) undated_first)
    as [w1|] eqn:Hrun1; [|vm_compute in Hrun1; discriminate].
  destruct (run (loadTitleData 0 seven_refs_selected) undated_swapped)
    as [w2|] eqn:Hrun2; [|vm_compute in Hrun2; discriminate].
  assert (Hcalm : calm seven_refs_selected)
    by (unfold calm; simpl; constructor;
        [right; now left | constructor; [right; now right | constructor]]).
  assert (Hfin1 : tasks w1 !! 2 = Some Finished)
    by (vm_compute in Hrun1; injection Hrun1 as <-; reflexivity).
  assert (Hfin2 : tasks w2 !! 2 = Some Finished)
    by (vm_compute in Hrun2; injection Hrun2 as <-; reflexivity).
  assert (Hsame : forall t, option_map fst (reply_for t undated_first)
                            = option_map fst (reply_for t undated_swapped)).
  { intros t. unfold undated_first, undated_swapped. cbn [reply_for].
    destruct (Z.eqb_spec 1 t) as [<-|?]; [reflexivity|].
    destruct (Z.eqb_spec 2 t) as [<-|?]; [reflexivity|].
    destruct (Z.eqb_spec 3 t) as [<-|?]; [reflexivity|].
    destruct (Z.eqb_spec 4 t) as [<-|?]; [reflexivity|].
    destruct (Z.eqb_spec 5 t) as [<-|?]; [reflexivity|].
    destruct (Z.eqb_spec 6 t) as [<-|?]; reflexivity. }
  destruct (arrival_order_shows_only_in_missing_dates 0
              (agency_of "Agency" [] [1; 1; 2; 3; 4; 5; 6]%Z) seven_refs_selected
              undated_first undated_swapped w1 w2 eq_refl ltac:(discriminate)
              Hcalm Hrun1 Hrun2 Hfin1 Hfin2 Hsame) as (Htitles & _ & Hcounts & _).
  exists w1, w2. split; [reflexivity|]. split; [reflexivity|].
  split; [vm_compute in Hrun1; injection Hrun1 as <-; reflexivity|].
  split; [vm_compute in Hrun2; injection Hrun2 as <-; reflexivity|].
  split; [exact Hcounts|].
  split; [vm_compute in Hrun1; injection Hrun1 as <-; reflexivity|].
  vm_compute in Hrun2. injection Hrun2 as <-. reflexivity.
Defined.

Lemma fulfil_length t v ps : forall ps',
  fulfil t v ps = Some ps' -> length ps' = length ps.
Proof.
  induction ps as [|[t0 p] ps IH]; intros ps'; simpl; [discriminate|].
  destruct p as [|v0].
  - destruct (Z.eqb t0 t); [now intros [= <-]|].
    destruct (fulfil t v ps) as [ps0|]; [|discriminate].
    intros [= <-]. simpl. now rewrite (IH ps0).
  - destruct (fulfil t v ps) as [ps0|]; [|discriminate].
    intros [= <-]. simpl. now rewrite (IH ps0).
Qed.

Lemma pending_titles_length ps : length (pending_titles ps) <= length ps.
Proof.
  unfold pending_titles. induction ps as [|[t p] ps IH]; simpl; [lia|].
  destruct p; simpl; lia.
Qed.

Lemma bulk_run_bound tid evs : forall w acc ps rest w',
  bulk_at tid w acc ps rest ->
  length ps <= 5 -> Forall (fun b => length b <= 5) rest ->
  run w evs = Some w' ->
  forall b, tasks w' !! tid = Some (AwaitBatch b) -> length (batchPromises b) <= 5.
Proof.
  induction evs as [|[tid' resp] evs IH]; intros w acc ps rest w' Hat Hp Hrest; simpl.
  - intros [= <-] b Hb. destruct Hat as [Htid _].
    rewrite Htid in Hb. now injection Hb as <-.
  - destruct (deliver tid' resp w) as [w1|] eqn:Hd; [|discriminate].
    intros Hrun.
    destruct (decide (tid' = tid)) as [->|Hne].
    + destruct (deliver_bulk _ _ _ _ _ _ _ Hat Hd)
        as (t & r & now & ps' & -> & Hful & Hw1).
      destruct (all_fulfilled ps') as [rs|] eqn:Hall.
      * destruct rest as [|b0 rest].
        -- destruct (bulk_at_finish tid w acc ps [] w1 Hat) as [Hcalm Hfin1];
             [now subst w1|].
           destruct (calm_run tid evs w1 w' Hcalm Hrun Hfin1) as (_ & _ & Hf).
           intros b Hb. congruence.
        -- apply Forall_cons in Hrest as [Hb0 Hrest].
           apply (IH w1 (acc ++ validResults rs) (map (fun t => (t, Pending)) b0) rest);
             try assumption.
           ++ apply (bulk_at_insert tid w acc ps (b0 :: rest));
                [assumption | now subst w1].
           ++ now rewrite length_map.
      * apply (IH w1 acc ps' rest); try assumption.
        -- apply (bulk_at_insert tid w acc ps rest); [assumption | now subst w1].
        -- now rewrite (fulfil_length _ _ _ _ Hful).
    + assert (Ht : exists t, tasks w !! tid' = Some t).
      { unfold deliver in Hd. destruct (tasks w !! tid'); [eauto | discriminate]. }
      destruct Ht as [t Ht].
      assert (Hct : calm_task t) by (destruct Hat as [_ Ho]; now apply (Ho tid')).
      destruct (deliver_calm _ _ _ _ _ Ht Hct Hd) as (Htasks & _).
      apply (IH w1 acc ps rest); try assumption.
      now apply (bulk_at_other tid w acc ps rest w1 tid').
Qed.

(** X14: bounded concurrency.  At every moment of a run a batched load that
    has not finished holds at most five promises, and between one and five
    of its requests are in flight. *)
Theorem loadTitleData_at_most_five_in_flight a obj w0 evs w' b :
  store w0 !! a = Some obj -> cfr_references obj <> [] -> calm w0 ->
  run (loadTitleData a w0) evs = Some w' ->
  tasks w' !! length (tasks w0) = Some (AwaitBatch b) ->
  length (batchPromises b) <= 5 /\
  1 <= length (pending_titles (batchPromises b)) <= 5.
Proof.
  intros Ha Hrefs Hq Hrun Hb.
  destruct (loadTitleData_bulk a obj w0 Ha Hrefs Hq) as (b0 & rest & HB & Hat & _).
  pose proof (make_batches_sizes (Set_from (map CFRReference.title (cfr_references obj))))
    as Hsizes.
  rewrite HB in Hsizes. apply Forall_cons in Hsizes as [Hb0 Hsizes].
  assert (Hlen : length (batchPromises b) <= 5).
  { apply (bulk_run_bound _ evs _ _ _ _ w' Hat); try assumption.
    - rewrite length_map. lia.
    - eapply Forall_impl; [exact Hsizes|]. simpl. intros; lia. }
  split; [exact Hlen|].
  pose proof (pending_titles_length (batchPromises b)).
  assert (Hlive : pending_titles (batchPromises b) <> []).
  { destruct (bulk_run_live _ evs _ _ _ _ w' Hat) with (3 := Hrun)
      as [Hfin | (b1 & Hb1 & Hp1)].
    - rewrite pending_titles_pending. intros ->. simpl in Hb0. lia.
    - eapply Forall_impl; [exact Hsizes|]. intros l Hl ->. simpl in Hl. lia.
    - congruence.
    - rewrite Hb in Hb1. now injection Hb1 as <-. }
  destruct (pending_titles (batchPromises b)); [congruence | simpl in *; lia].
Qed.

Lemma loadTitleData_at_most_five_in_flight_witness :
  exists w' b,
    run (loadTitleData 0 seven_refs_selected)
        [(2, WordCountReply 3 (count 30) "now"); (0, HistoryReply Failed)] = Some w' /\
    tasks w' !! 2 = Some (AwaitBatch b) /\
    pending_titles (batchPromises b) = [1; 2; 4; 5]%Z /\
    length (batchPromises b) <= 5 /\
    1 <= length (pending_titles (batchPromises b)) <= 5.
Proof.
  destruct (run (loadTitleData 0 seven_refs_selected)
              [(2, WordCountReply 3 (count 30) "now"); (0, HistoryReply Failed)])
    as [w'|] eqn:Hrun; [|vm_compute in Hrun; discriminate].
  assert (Hb : exists b, tasks w' !! 2 = Some (AwaitBatch b) /\
                         pending_titles (batchPromises b) = [1; 2; 4; 5]%Z).
  { vm_compute in Hrun. injection Hrun as <-. eexists. split; reflexivity. }
  destruct Hb as (b & Hb & Hp).
  exists w', b. split; [reflexivity|]. split; [exact Hb|]. split; [exact Hp|].
  apply (loadTitleData_at_most_five_in_flight 0
           (agency_of "Agency" [] [1; 1; 2; 3; 4; 5; 6]%Z) seven_refs_selected
           [(2, WordCountReply 3 (count 30) "now"); (0, HistoryReply Failed)]
           w' b eq_refl ltac:(discriminate)); try assumption.
  unfold calm; simpl; constructor;
    [right; now left | constructor; [right; now right | constructor]].
Defined.

Lemma batch_loop_lookup (l : list Z) bs : 0 < bs ->
  forall fuel j i, length l - j <= fuel ->
    batch_loop fuel l bs j !! i
    = if Nat.ltb (j + i * bs) (length l)
      then Some (take bs (drop (j + i * bs) l)) else None.
Proof.
  intros Hbs fuel. induction fuel as [|fuel IH]; intros j i Hfuel; simpl.
  - destruct (Nat.ltb_spec (j + i * bs) (length l)); [lia | reflexivity].
  - destruct (Nat.ltb_spec j (length l)) as [Hlt|Hge].
    + destruct i as [|i]; simpl.
      * rewrite Nat.add_0_r. destruct (Nat.ltb_spec j (length l)); [|lia].
        unfold slice. now replace (j + bs - j) with bs by lia.
      * rewrite IH by lia. now replace (j + bs + i * bs) with (j + (bs + i * bs)) by lia.
    + destruct (Nat.ltb_spec (j + i * bs) (length l)); [lia | reflexivity].
Qed.

(** X15: the batches are filled greedily: batch number [i] is the five
    titles from position [5 i] on (fewer in the last batch), there are as
    many batches as [length l / 5] rounded up, and so every batch but the
    last holds exactly five titles. *)
Theorem make_batches_fills_batches_in_order (l : list Z) :
  (forall i, make_batches l !! i
             = if Nat.ltb (i * 5) (length l)
               then Some (take 5 (drop (i * 5) l)) else None) /\
  length (make_batches l) = (length l + 4) / 5 /\
  (forall i b, make_batches l !! i = Some b -> S i < length (make_batches l) ->
               length b = 5).
Proof.
  assert (Hlookup : forall i, make_batches l !! i
             = if Nat.ltb (i * 5) (length l)
               then Some (take 5 (drop (i * 5) l)) else None).
  { intros i. unfold make_batches.
    rewrite (batch_loop_lookup l batchSize) by (unfold batchSize; lia).
    reflexivity. }
  assert (Hlen : length (make_batches l) = (length l + 4) / 5).
  { set (k := length (make_batches l)).
    assert (Hk : make_batches l !! k = None) by (apply lookup_ge_None; unfold k; lia).
    rewrite Hlookup in Hk.
    destruct (Nat.ltb_spec (k * 5) (length l)) as [|Hge]; [discriminate|].
    assert (Hprev : k = 0 \/ (k - 1) * 5 < length l).
    { destruct k as [|k'] eqn:Ek; [now left | right].
      assert (Hsome : is_Some (make_batches l !! k'))
        by (apply lookup_lt_is_Some; fold k in Ek |- *; unfold k in Ek; lia).
      rewrite Hlookup in Hsome.
      destruct (Nat.ltb_spec (k' * 5) (length l)); [|now destruct Hsome].
      simpl. now rewrite Nat.sub_0_r. }
    apply Nat.div_unique with (r := length l + 4 - 5 * k); lia. }
  split; [exact Hlookup|]. split; [exact Hlen|].
  intros i b Hb Hnext.
  assert (Hsome : is_Some (make_batches l !! S i)) by now apply lookup_lt_is_Some.
  rewrite Hlookup in Hb, Hsome.
  destruct (Nat.ltb_spec (S i * 5) (length l)); [|now destruct Hsome].
  destruct (Nat.ltb_spec (i * 5) (length l)); [|discriminate].
  injection Hb as <-. rewrite length_take, length_drop. lia.
Qed.

(** * What a response can change *)

Lemma refresh_title_frame t r now s :
  agencies (refresh_title t r now s) = agencies s /\
  selectedAgency (refresh_title t r now s) = selectedAgency s /\
  selectedTitle (refresh_title t r now s) = selectedTitle s /\
  searchQuery (refresh_title t r now s) = searchQuery s.
Proof.
  destruct r as [[response|]|]; simpl; try now repeat split.
  destruct (truthy_number _); now repeat split.
Qed.

Lemma deliver_frame tid resp w w' :
  deliver tid resp w = Some w' ->
  store w' = store w /\
  agencies (signals w') = agencies (signals w) /\
  selectedAgency (signals w') = selectedAgency (signals w) /\
  selectedTitle (signals w') = selectedTitle (signals w) /\
  searchQuery (signals w') = searchQuery (signals w) /\
  length (tasks w') = length (tasks w) /\
  (forall j, j <> tid -> tasks w' !! j = tasks w !! j) /\
  (exists l, log w' = log w ++ l).
Proof.
  unfold deliver. destruct (tasks w !! tid) as [t|] eqn:Ht; [|discriminate].
  destruct t as [| | |b|title], resp as [r|r|title' r now]; try discriminate.
  - intros [= <-]. simpl. rewrite length_insert.
    repeat split; eauto using list_lookup_insert_ne.
  - intros [= <-]. simpl. rewrite length_insert.
    repeat split; eauto using list_lookup_insert_ne.
  - destruct (fulfil title' _ _) as [ps|]; [|discriminate].
    destruct (all_fulfilled ps) as [rs|].
    + intros [= <-]. destruct (batches b) as [|batch rest]; simpl;
        rewrite length_insert; repeat split; eauto using list_lookup_insert_ne.
      rewrite <- app_assoc. eauto.
    + intros [= <-]. simpl. rewrite length_insert.
      repeat split; eauto using list_lookup_insert_ne.
  - destruct (Z.eqb title title'); [|discriminate].
    intros [= <-]. simpl. rewrite length_insert.
    destruct (refresh_title_frame title r now (signals w)) as (Ha & Hs & Ht' & Hq).
    repeat split; eauto using list_lookup_insert_ne.
Qed.

(** X16: whatever responses arrive and in whatever order, the
    continuations never change the selection ([selectedAgency],
    [selectedTitle]), the search query, the forest or any agency object:
    no response is checked against the selection either.  They start no
    new task and touch no task other than the ones the responses are for,
    and the record of the traffic only grows. *)
Theorem responses_never_change_the_selection evs : forall w w',
  run w evs = Some w' ->
  store w' = store w /\
  agencies (signals w') = agencies (signals w) /\
  selectedAgency (signals w') = selectedAgency (signals w) /\
  selectedTitle (signals w') = selectedTitle (signals w) /\
  searchQuery (signals w') = searchQuery (signals w) /\
  length (tasks w') = length (tasks w) /\
  (forall j, ~ In j (map fst evs) -> tasks w' !! j = tasks w !! j) /\
  (exists l, log w' = log w ++ l).
Proof.
  induction evs as [|[tid resp] evs IH]; intros w w'; simpl.
  - intros [= <-]. repeat split. exists []. now rewrite app_nil_r.
  - destruct (deliver tid resp w) as [w1|] eqn:Hd; [|discriminate]. intros Hrun.
    destruct (deliver_frame _ _ _ _ Hd)
      as (Hst & Hag & Hsa & Hse & Hq & Hlen & Hother & l1 & Hl1).
    destruct (IH _ _ Hrun)
      as (Hst' & Hag' & Hsa' & Hse' & Hq' & Hlen' & Hother' & l2 & Hl2).
    split; [congruence|]. split; [congruence|]. split; [congruence|].
    split; [congruence|]. split; [congruence|]. split; [congruence|]. split.
    + intros j Hj. rewrite Hother' by tauto. apply Hother. intros ->. tauto.
    + exists (l1 ++ l2). now rewrite Hl2, Hl1, app_assoc.
Qed.

Lemma responses_never_change_the_selection_witness :
  exists w',
    run (selectAgency 0 seven_refs_world) five_fails_selected = Some w' /\
    selectedAgency (signals w') = Some 0 /\ selectedTitle (signals w') = None /\
    length (tasks w') = 3.
Proof.
  destruct (run (selectAgency 0 seven_refs_world) five_fails_selected)
    as [w'|] eqn:Hrun; [|vm_compute in Hrun; discriminate].
  destruct (responses_never_change_the_selection _ _ _ Hrun)
    as (_ & _ & Hsa & Hse & _ & Hlen & _).
  exists w'. split; [reflexivity|]. now rewrite Hsa, Hse, Hlen.
Defined.

(** X17: the last response wins.  With two history requests in flight,
    whichever settles last decides [selectedAgencyHistory], whatever agency
    is selected by then: a late response for an agency selected earlier
    overwrites the history of the current one. *)
Theorem history_last_response_wins w i j ra rb :
  i <> j ->
  tasks w !! i = Some AwaitHistory -> tasks w !! j = Some AwaitHistory ->
  exists w',
    run w [(j, HistoryReply rb); (i, HistoryReply ra)] = Some w' /\
    selectedAgencyHistory (signals w') = data_or_empty ra /\
    selectedAgency (signals w') = selectedAgency (signals w).
Proof.
  intros Hne Hi Hj. unfold run, deliver at 1. rewrite Hj.
  unfold deliver. simpl. rewrite list_lookup_insert_ne by congruence.
  rewrite Hi. eexists. split; [reflexivity|]. split; reflexivity.
Qed.

Lemma history_last_response_wins_witness :
  selectedAgency (signals reselected_world) = Some 2 /\
  log reselected_world
  = [Sent 0 (GetHistory "Alpha Office"); Sent 1 (GetChanges "Alpha Office");
     Sent 2 (GetWordCount 40);
     Sent 3 (GetHistory "Beta Office"); Sent 4 (GetChanges "Beta Office");
     Sent 5 (GetWordCount 7)] /\
  exists w',
    run reselected_world
        [(3, HistoryReply (Ok (Some [HistoricalData.mk "2024-06-30" 7])));
         (0, HistoryReply (Ok (Some [HistoricalData.mk "2024-06-30" 40])))] = Some w' /\
    selectedAgencyHistory (signals w') = [HistoricalData.mk "2024-06-30" 40] /\
    selectedAgency (signals w') = Some 2.
Proof.
  split; [reflexivity|]. split; [reflexivity|].
  exact (history_last_response_wins reselected_world 0 3
           (Ok (Some [HistoricalData.mk "2024-06-30" 40]))
           (Ok (Some [HistoricalData.mk "2024-06-30" 7]))
           ltac:(discriminate) eq_refl eq_refl).
Defined.

(** * What a selection sends *)

Lemma loadTitleData_log a obj w :
  store w !! a = Some obj ->
  log (loadTitleData a w)
  = log w ++ map (fun t => Sent (length (tasks w)) (GetWordCount t))
                 (take 5 (Set_from (map CFRReference.title (cfr_references obj)))) /\
  length (tasks (loadTitleData a w))
  = length (tasks w) + match cfr_references obj with [] => 0 | _ :: _ => 1 end.
Proof.
  intros Ha. unfold loadTitleData. rewrite Ha.
  destruct (cfr_references obj) as [|ref refs].
  - simpl. now rewrite app_nil_r, Nat.add_0_r.
  - cbn [map]. rewrite Set_from_cons, make_batches_cons.
    cbn [continue_load set_task emit spawn log tasks].
    rewrite length_insert, length_app. split; reflexivity.
Qed.

Lemma selectAgency_log a obj w :
  store w !! a = Some obj ->
  let n := length (tasks w) in
  let uniqueTitles := Set_from (map CFRReference.title (cfr_references obj)) in
  log (selectAgency a w)
  = log w
    ++ [Sent n (GetHistory (slug obj)); Sent (S n) (GetChanges (slug obj))]
    ++ map (fun t => Sent (S (S n)) (GetWordCount t)) (take 5 uniqueTitles) /\
  length (tasks (selectAgency a w))
  = n + 2 + match cfr_references obj with [] => 0 | _ :: _ => 1 end.
Proof.
  intros Ha n uniqueTitles. unfold selectAgency.
  set (w2 := loadAgencyChanges a _).
  assert (Hw2 : store w2 !! a = Some obj /\
                log w2 = log w ++ [Sent n (GetHistory (slug obj));
                                   Sent (S n) (GetChanges (slug obj))] /\
                length (tasks w2) = S (S n)).
  { unfold w2, loadAgencyChanges, loadAgencyHistory. simpl. rewrite Ha. simpl.
    rewrite Ha. simpl. split; [exact Ha|]. split.
    - rewrite <- app_assoc, length_app. simpl.
      now replace (length (tasks w) + 1) with (S n) by (unfold n; lia).
    - rewrite !length_app. simpl. unfold n. lia. }
  destruct Hw2 as (Ha2 & Hlog2 & Hlen2).
  destruct (loadTitleData_log a obj w2 Ha2) as [Hlog Hlen].
  rewrite Hlog, Hlen, Hlog2, Hlen2. split.
  - now rewrite <- app_assoc.
  - lia.
Qed.

(** X18: what [selectAgency] sends before it waits: one history request
    and one changes request for the slug of the agency, then the word-count
    requests of the first five distinct titles and no other; it starts two
    tasks, and a third one when the agency has references. *)
Theorem selectAgency_sends_the_first_batch a obj w :
  store w !! a = Some obj ->
  let n := length (tasks w) in
  let uniqueTitles := Set_from (map CFRReference.title (cfr_references obj)) in
  log (selectAgency a w)
  = log w
    ++ [Sent n (GetHistory (slug obj)); Sent (S n) (GetChanges (slug obj))]
    ++ map (fun t => Sent (S (S n)) (GetWordCount t)) (take 5 uniqueTitles) /\
  length (tasks (selectAgency a w))
  = n + 2 + match cfr_references obj with [] => 0 | _ :: _ => 1 end.
Proof. exact (selectAgency_log a obj w). Qed.

Lemma selectAgency_sends_the_first_batch_witness :
  log (selectAgency 0 seven_refs_world)
  = [Sent 0 (GetHistory "Agency"); Sent 1 (GetChanges "Agency");
     Sent 2 (GetWordCount 1); Sent 2 (GetWordCount 2); Sent 2 (GetWordCount 3);
     Sent 2 (GetWordCount 4); Sent 2 (GetWordCount 5)] /\
  length (tasks (selectAgency 0 seven_refs_world)) = 3.
Proof.
  exact (selectAgency_sends_the_first_batch 0
           (agency_of "Agency" [] [1; 1; 2; 3; 4; 5; 6]%Z) seven_refs_world eq_refl).
Defined.

(** X19: a click on a title badge selects the agency and then the title:
    the title stays selected although [selectAgency] clears it, and the
    request of the single-title refresh leaves after those of the first
    batch, so that a title among the first five distinct titles of the
    agency is requested twice. *)
Theorem onTitleClick_selects_agency_and_title a obj title w :
  store w !! a = Some obj ->
  let w' := AgencyVisualization.onTitleClick a title w in
  let n := length (tasks w) in
  let uniqueTitles := Set_from (map CFRReference.title (cfr_references obj)) in
  let k := match cfr_references obj with [] => 0 | _ :: _ => 1 end in
  selectedAgency (signals w') = Some a /\
  selectedTitle (signals w') = Some title /\
  log w'
  = log w
    ++ [Sent n (GetHistory (slug obj)); Sent (S n) (GetChanges (slug obj))]
    ++ map (fun t => Sent (S (S n)) (GetWordCount t)) (take 5 uniqueTitles)
    ++ [Sent (n + 2 + k) (GetWordCount title)] /\
  tasks w' !! (n + 2 + k) = Some (AwaitWordCount title) /\
  (In title (take 5 uniqueTitles) ->
   In (Sent (S (S n)) (GetWordCount title)) (log w') /\
   In (Sent (n + 3) (GetWordCount title)) (log w')).
Proof.
  intros Ha w' n uniqueTitles k.
  destruct (selectAgency_log a obj w Ha) as [Hlog Hlen].
  fold n uniqueTitles k in Hlog, Hlen.
  assert (Hsel : selectedAgency (signals (selectAgency a w)) = Some a).
  { unfold selectAgency, loadAgencyHistory, loadAgencyChanges, loadTitleData.
    simpl. rewrite Ha. simpl. rewrite Ha. simpl. rewrite Ha.
    destruct (cfr_references obj) as [|ref refs]; [reflexivity|].
    cbn [map]. rewrite Set_from_cons, make_batches_cons. reflexivity. }
  assert (Hlog' : log w'
    = log w
      ++ [Sent n (GetHistory (slug obj)); Sent (S n) (GetChanges (slug obj))]
      ++ map (fun t => Sent (S (S n)) (GetWordCount t)) (take 5 uniqueTitles)
      ++ [Sent (n + 2 + k) (GetWordCount title)]).
  { unfold w', AgencyVisualization.onTitleClick, selectTitle, loadTitleWordCount.
    simpl. rewrite Hlog, Hlen, <- !app_assoc. reflexivity. }
  split; [exact Hsel|]. split; [reflexivity|]. split; [exact Hlog'|]. split.
  - unfold w', AgencyVisualization.onTitleClick, selectTitle, loadTitleWordCount.
    simpl. rewrite <- Hlen. apply list_lookup_middle. reflexivity.
  - intros Hin. rewrite Hlog'. split.
    + apply in_or_app. right. apply in_or_app. right. apply in_or_app. left.
      now apply (in_map (fun t => Sent (S (S n)) (GetWordCount t))).
    + assert (Hk : k = 1).
      { unfold k, uniqueTitles in *. destruct (cfr_references obj); [|reflexivity].
        now simpl in Hin. }
      apply in_or_app. right. apply in_or_app. right. apply in_or_app. right.
      left. f_equal. lia.
Qed.

Lemma onTitleClick_witness :
  selectedAgency (signals (AgencyVisualization.onTitleClick 0 3 seven_refs_world)) = Some 0 /\
  selectedTitle (signals (AgencyVisualization.onTitleClick 0 3 seven_refs_world))
  = Some 3%Z /\
  log (AgencyVisualization.onTitleClick 0 3 seven_refs_world)
  = [Sent 0 (GetHistory "Agency"); Sent 1 (GetChanges "Agency");
     Sent 2 (GetWordCount 1); Sent 2 (GetWordCount 2); Sent 2 (GetWordCount 3);
     Sent 2 (GetWordCount 4); Sent 2 (GetWordCount 5); Sent 3 (GetWordCount 3)].
Proof.
  destruct (onTitleClick_selects_agency_and_title 0
              (agency_of "Agency" [] [1; 1; 2; 3; 4; 5; 6]%Z) 3 seven_refs_world eq_refl)
    as (Hsa & Hse & Hlog & _).
  split; [exact Hsa|]. split; [exact Hse|]. exact Hlog.
Defined.

(** * Reloading the forest *)

Lemma searchAgencies_nil fuel (h : gmap loc Agency) q :
  0 < fuel -> searchAgencies fuel h [] q = Some (h, []).
Proof. destruct fuel; [lia | reflexivity]. Qed.

(** X20: when the request for the agencies fails, or its body is null, a
    primitive, or an object whose [agencies] and [data] are both falsy, the
    forest becomes empty: from then on every search returns the empty list
    and writes nothing, while the selection and the three collections are
    as they were.  Of an object, the forest is the first of [agencies] and
    [data] that is truthy: an array is taken even when it is empty, [data]
    is read only when [agencies] is falsy, and a truthy value that is not
    an array is stored as it is instead of being replaced by the empty
    list (the one case in which the forest is no longer an array). *)
Theorem loadAgencies_failure_empties_the_forest (r : reply agencies_response) w :
  r = Failed \/ r = Ok None \/ r = Ok (Some ResponseOther)
  \/ r = Ok (Some (ResponseObject Falsy Falsy)) ->
  loadAgencies_settled r (signals w) = Some (set_agencies [] (signals w)) /\
  (let w' := upd_signals (set_agencies []) w in
   agencies (signals w') = [] /\
   selectedAgency (signals w') = selectedAgency (signals w) /\
   selectedTitle (signals w') = selectedTitle (signals w) /\
   titleData (signals w') = titleData (signals w) /\
   selectedAgencyHistory (signals w') = selectedAgencyHistory (signals w) /\
   selectedAgencyChanges (signals w') = selectedAgencyChanges (signals w) /\
   forall fuel query, 0 < fuel ->
     filteredAgencies fuel (updateSearch query w') = Some (updateSearch query w', [])) /\
  (forall r' s, loadAgencies_settled r' s = None <->
     (exists d, r' = Ok (Some (ResponseObject Truthy d))) \/
     r' = Ok (Some (ResponseObject Falsy Truthy))) /\
  (forall l d s,
     loadAgencies_settled (Ok (Some (ResponseObject (IsArray l) d))) s
     = Some (set_agencies l s)) /\
  (forall l s,
     loadAgencies_settled (Ok (Some (ResponseObject Falsy (IsArray l)))) s
     = Some (set_agencies l s)) /\
  (forall l s,
     loadAgencies_settled (Ok (Some (ResponseArray l))) s = Some (set_agencies l s)).
Proof.
  intros Hr.
  split; [destruct Hr as [-> | [-> | [-> | ->]]]; reflexivity|].
  split; [|split; [|repeat split]].
  - do 6 (split; [reflexivity|]).
    intros fuel query Hfuel. unfold filteredAgencies. simpl.
    destruct (Js.truthy _); [|reflexivity].
    rewrite searchAgencies_nil by assumption. reflexivity.
  - intros r' s. split.
    + destruct r' as [[[l|ag d|]|]|]; simpl; try discriminate.
      destruct ag as [|l|]; [destruct d as [|l|]|..]; simpl; try discriminate; eauto.
    + intros [[d ->] | ->]; reflexivity.
Qed.

Lemma loadAgencies_failure_witness :
  loadAgencies_settled Failed (signals loaded_world)
  = Some (set_agencies [] (signals loaded_world)) /\
  selectedAgency (signals (upd_signals (set_agencies []) loaded_world)) = Some 1 /\
  filteredAgencies 1 (updateSearch "epa" (upd_signals (set_agencies []) loaded_world))
  = Some (updateSearch "epa" (upd_signals (set_agencies []) loaded_world), []).
Proof.
  destruct (loadAgencies_failure_empties_the_forest Failed loaded_world (or_introl eq_refl))
    as (Hset & (_ & Hsa & _ & _ & _ & _ & Hsearch) & _).
  split; [exact Hset|]. split; [exact Hsa|]. apply Hsearch. lia.
Defined.
